(** * Landing page report: a shallow embedding of [landing_page_report_v2.py]

    The program is a batch pipeline over pandas tables: rank the landing
    pages of every (program, channel) group, outer-join the month-over-month
    and year-over-year rankings, fill the gaps with zero, sort by the
    official program order and write a grouped Markdown report.

    Layout of the development:
    - [Py]: the Python values that live in table cells, exceptions as an
      error monad, comparison, arithmetic and [:.0f] formatting;
    - [pd]: the pandas operations the program calls, on immutable table
      values (one function per pandas call, named after it);
    - the object store: tables are heap objects, [data[col] = ...] mutates
      one in place, every other call allocates its result;
    - the program itself, function by function;
    - the properties.

    A number is the rational it stands for.  Subtraction and comparison
    are exact, as they are in the program on counts; a quotient, a product
    by a [float] and the conversion of [:.0f] are rounded to the nearest
    binary64 number, as Python rounds them.  Infinities and the negative
    zero are not cells: a run that would make one ends in the model. *)

From Stdlib Require Import QArith Qcanon Qcabs Qabs Qpower Lqa OrdersEx.
From stdpp Require Import gmap strings list sorting numbers pretty.

Local Open Scope Z_scope.

(** ** Python values and exceptions *)

Module Py.

Inductive exn :=
  | KeyError
  | ValueError
  | TypeError
  | ZeroDivisionError
  | OverflowError
  | FloatingPointError
  | MergeError
  | ReferenceError.

Inductive result (A : Type) :=
  | Ok (a : A)
  | Raise (e : exn).
Arguments Ok {A} a.
Arguments Raise {A} e.

#[global] Instance exn_eq_dec : EqDecision exn.
Proof. solve_decision. Defined.

#[global] Instance result_ret : MRet result := λ A a, Ok a.
#[global] Instance result_bind : MBind result := λ A B f m,
  match m with
  | Ok a => f a
  | Raise e => Raise e
  end.
#[global] Instance result_fmap : FMap result := λ A B f m,
  match m with
  | Ok a => Ok (f a)
  | Raise e => Raise e
  end.

(** [raise_unless b e]: the guard of a check that raises [e]. *)
Definition raise_unless (b : bool) (e : exn) : result unit :=
  if b then Ok tt else Raise e.

Fixpoint traverse {A B} (f : A → result B) (l : list A) : result (list B) :=
  match l with
  | [] => Ok []
  | x :: l => y ← f x; ys ← traverse f l; Ok (y :: ys)
  end.

(** A cell of a table.  [NaN] is pandas' missing value.  [Cat cats i] is a
    value of an ordered categorical column: the [i]-th of the categories
    [cats]. *)
Inductive cell :=
  | Str (s : string)
  | Num (q : Qc)
  | NaN
  | Cat (categories : list string) (code : nat).

#[global] Instance cell_eq_dec : EqDecision cell.
Proof. solve_decision. Defined.

#[global] Instance cell_inhabited : Inhabited cell := populate NaN.

Definition int (z : Z) : cell := Num (Qc_of_Z z).

Definition isna (c : cell) : bool :=
  match c with NaN => true | _ => false end.

(** The string a cell stands for, when it is text. *)
Definition cell_text (c : cell) : option string :=
  match c with
  | Str s => Some s
  | Cat cats i => cats !! i
  | _ => None
  end.

(** *** Order *)

Definition string_leb (a b : string) : bool :=
  match String_as_OT.compare a b with Gt => false | _ => true end.

(** Sort order of the cells of one column: numbers by value, strings by code
    point, categorical values by code.  A column of a table read from a file
    holds one kind of value; the order between kinds (numbers, then strings,
    then categorical values) only makes the comparison total. Missing values
    are ordered apart, by [na_position]. *)
Definition kind (c : cell) : nat :=
  match c with Num _ => 0 | Str _ => 1 | Cat _ _ => 2 | NaN => 3 end%nat.

Definition value_leb (x y : cell) : bool :=
  match x, y with
  | Num a, Num b => bool_decide (a ≤ b)%Qc
  | Str a, Str b => string_leb a b
  | Cat _ i, Cat _ j => bool_decide (i ≤ j)%nat
  | _, _ => bool_decide (kind x ≤ kind y)%nat
  end.

(** [cell_leb asc x y]: [x] may come before [y] in a sort with
    [na_position='last']; descending when [asc] is [false]. *)
Definition cell_leb (ascending : bool) (x y : cell) : bool :=
  match isna x, isna y with
  | _, true => true
  | true, false => false
  | false, false => if ascending then value_leb x y else value_leb y x
  end.

(** Lexicographic order on tuples of cells. *)
Fixpoint key_leb (ascending : bool) (k1 k2 : list cell) : bool :=
  match k1, k2 with
  | x :: k1, y :: k2 =>
      if cell_leb ascending x y
      then if cell_leb ascending y x then key_leb ascending k1 k2 else true
      else false
  | _, _ => true
  end.

(** Values of one column can be compared by [<] when they are all numbers
    or all strings (or all of one categorical type); Python raises
    [TypeError] otherwise. *)
Definition comparable (s : list cell) : bool :=
  let ks := remove_dups (kind <$> filter (λ c, isna c = false) s) in
  bool_decide (length ks ≤ 1)%nat.

(** *** Stable sorting *)

(** Insertion sort; [x] is put before the first element it may precede, so
    that equal elements keep their order. *)
Section isort.
Context {A : Type} (leb : A → A → bool).

Fixpoint insert_sorted (x : A) (l : list A) : list A :=
  match l with
  | [] => [x]
  | y :: l' => if leb x y then x :: l else y :: insert_sorted x l'
  end.

Fixpoint stable_sort (l : list A) : list A :=
  match l with
  | [] => []
  | x :: l => insert_sorted x (stable_sort l)
  end.

(** What a stable sort achieves for two elements [a], [b] of its result,
    [a] in front: [a] may precede [b], and if [b] may precede [a] as
    well then [a] was [before] [b] in the argument. *)
Definition sorted_stable (before : A → A → Prop) (a b : A) : Prop :=
  leb a b = true ∧ (leb b a = true → before a b).
End isort.

(** *** Comparison with a scalar *)

(** [x > y] for a number [y]. *)
Definition gt (x : cell) (y : Qc) : result bool :=
  match x with
  | Num q => Ok (bool_decide (y < q)%Qc)
  | NaN => Ok false
  | _ => Raise TypeError
  end.

(** [x >= y] for a number [y]. *)
Definition ge (x : cell) (y : Qc) : result bool :=
  match x with
  | Num q => Ok (bool_decide (y ≤ q)%Qc)
  | NaN => Ok false
  | _ => Raise TypeError
  end.

(** [x == y]; a missing value equals nothing, itself included. *)
Definition eqb (x y : cell) : bool :=
  match x, y with
  | Num a, Num b => bool_decide (a = b)
  | _, _ =>
      match cell_text x, cell_text y with
      | Some a, Some b => bool_decide (a = b)
      | _, _ => false
      end
  end.

(** [x != 0]: true of a missing value. *)
Definition ne0 (x : cell) : bool :=
  match x with
  | Num q => bool_decide (q ≠ 0%Qc)
  | _ => true
  end.

(** *** Double precision *)

(** Nearest integer of a non-negative rational, ties to even. *)
Definition round_half_even (n : Z) (d : positive) : Z :=
  let a := n / Z.pos d in
  let r := n mod Z.pos d in
  match (2 * r ?= Z.pos d) with
  | Lt => a
  | Gt => a + 1
  | Eq => if Z.even a then a else a + 1
  end.

(** The number [m * 2 ^ e]. *)
Definition binary (m e : Z) : Qc :=
  if bool_decide (0 ≤ e) then Qc_of_Z (m * 2 ^ e)
  else Q2Qc (m # Z.to_pos (2 ^ (- e))).

(** The integer part of the binary logarithm of [a / d], for [0 < a]. *)
Definition ilog2 (a : Z) (d : positive) : Z :=
  let k := Z.log2 a - Z.log2 (Z.pos d) in
  if bool_decide (Z.pos d * 2 ^ Z.max k 0 ≤ a * 2 ^ Z.max (- k) 0)
  then k else k - 1.

(** The [float] nearest to a rational, ties to even.  A [float] is a
    binary64 number: [m * 2 ^ e] with [m] below [2 ^ 53] in absolute value
    and [e] from -1074 to 971; the exponent of the rounding is the least
    one that leaves 53 bits, and not below -1074.  Beyond the largest
    [float] Python has [inf], and a negative number that rounds to zero is
    [-0.0]: no cell stands for them, and the rounding has no value there. *)
Definition binary64 (q : Qc) : option Qc :=
  let n := Qnum (this q) in
  let d := Qden (this q) in
  if bool_decide (n = 0) then Some q
  else
    let e := Z.max (ilog2 (Z.abs n) d - 52) (-1074) in
    let m := round_half_even (Z.abs n * 2 ^ Z.max (- e) 0)
                             (d * Z.to_pos (2 ^ Z.max e 0))%positive in
    if bool_decide (2 ^ (1024 - e) ≤ m) then None
    else if bool_decide (n < 0) then
      if bool_decide (m = 0) then None else Some (binary (- m) e)
    else Some (binary m e).

(** The cell of a [float] result.  Where the program goes on with [inf] or
    [-0.0] the model stops with [FloatingPointError], so that nothing is
    stated of such a run. *)
Definition float (q : Qc) : result cell :=
  match binary64 q with
  | Some r => Ok (Num r)
  | None => Raise FloatingPointError
  end.

(** *** Arithmetic *)

(** Subtraction, exact: the program subtracts counts. *)
Definition sub (x y : cell) : result cell :=
  match x, y with
  | Num a, Num b => Ok (Num (a - b)%Qc)
  | Num _, NaN | NaN, Num _ | NaN, NaN => Ok NaN
  | _, _ => Raise TypeError
  end.

(** True division: the quotient is a [float], the nearest one to the exact
    quotient.  Python raises on a zero divisor, whatever the dividend. *)
Definition truediv (x y : cell) : result cell :=
  match x, y with
  | Num a, Num b =>
      if bool_decide (b = 0%Qc) then Raise ZeroDivisionError
      else float (a / b)%Qc
  | NaN, Num b =>
      if bool_decide (b = 0%Qc) then Raise ZeroDivisionError else Ok NaN
  | Num _, NaN | NaN, NaN => Ok NaN
  | _, _ => Raise TypeError
  end.

(** The product of a [float] and a number, as [ratio * 100] is: a [float],
    the nearest one to the exact product. *)
Definition mul (x y : cell) : result cell :=
  match x, y with
  | Num a, Num b => float (a * b)%Qc
  | Num _, NaN | NaN, Num _ | NaN, NaN => Ok NaN
  | _, _ => Raise TypeError
  end.

(** *** Formatting *)

(** [f"{x:.0f}"]: the number as a [float] (an integer too large for one
    raises), printed without decimals; the sign of a negative number is kept
    even when it rounds to zero. *)
Definition format_0f (x : cell) : result string :=
  match x with
  | Num q =>
      match binary64 q with
      | Some r =>
          let n := Qnum (this r) in
          let d := Qden (this r) in
          let digits := pretty (round_half_even (Z.abs n) d) in
          Ok (if bool_decide (n < 0) then "-" +:+ digits else digits)
      | None => Raise OverflowError
      end
  | NaN => Ok "nan"
  | _ => Raise ValueError
  end.

(** [f"{x}"] of a cell. How Python prints a number is left to [number_str]. *)
Definition str (number_str : Qc → string) (x : cell) : string :=
  match x with
  | Str s => s
  | Num q => number_str q
  | NaN => "nan"
  | Cat cats i => default "nan" (cats !! i)
  end.

End Py.

(** ** pandas *)

Module pd.
Import Py.

(** A table: the column labels, the names of the index levels, and the rows,
    each with its index label (one cell per level) and its cells by column.
    A cell that a row lacks reads as missing. *)
Record DataFrame := mkDataFrame {
  columns : list string;
  index_names : list (option string);
  body : list (list cell * gmap string cell)
}.

Definition rows (df : DataFrame) : list (gmap string cell) := (body df).*2.

(** Every row has a cell for exactly the columns of the table, and a label
    for every index level. *)
Definition wf (df : DataFrame) : Prop :=
  Forall (λ e, dom e.2 = list_to_set (C:=gset string) (columns df)
               ∧ length e.1 = length (index_names df)) (body df).

(** The tuple of the cells of a row under the columns [by_]. *)
Definition row_key (by_ : list string) (r : gmap string cell) : list cell :=
  (λ c, r !!! c) <$> by_.

(** [df[c]] *)
Definition getitem (df : DataFrame) (c : string) : result (list cell) :=
  raise_unless (bool_decide (c ∈ columns df)) KeyError;;
  Ok ((λ r, r !!! c) <$> rows df).

(** [s > y] and [s == y] on a column *)
Definition series_gt (s : list cell) (y : Qc) : result (list bool) :=
  traverse (λ c, gt c y) s.

Definition series_eq (s : list cell) (y : cell) : list bool :=
  (λ c, eqb c y) <$> s.

(** [s.isin(values)] *)
Definition isin (s : list cell) (values : list string) : list bool :=
  (λ c, match cell_text c with
        | Some v => bool_decide (v ∈ values)
        | None => false
        end) <$> s.

Fixpoint select {A} (mask : list bool) (l : list A) : list A :=
  match mask, l with
  | b :: mask, x :: l => if b then x :: select mask l else select mask l
  | _, _ => []
  end.

(** [df[mask]]: a new table with the rows where the mask holds *)
Definition getitem_mask (df : DataFrame) (mask : list bool) : DataFrame :=
  {| columns := columns df;
     index_names := index_names df;
     body := select mask (body df) |}.

(** [df.empty] *)
Definition empty (df : DataFrame) : bool :=
  bool_decide (body df = [] ∨ columns df = []).

(** [s.unique()]: the distinct values, in order of first appearance *)
Definition unique (s : list cell) : list cell :=
  reverse (remove_dups (reverse s)).

(** [df.iterrows()] and [row.get(c, d)] *)
Definition iterrows (df : DataFrame) : list (gmap string cell) := rows df.

Definition get (r : gmap string cell) (c : string) (d : cell) : cell :=
  default d (r !! c).

(** *** Top rows of a column *)

(** [s.nlargest(n)] as positions: nothing when [n <= 0]; otherwise the first
    [n] positions of the column sorted by descending value, missing values
    last, equal values in their original order ([keep='first']). *)
Definition series_nlargest (n : Z) (s : list cell) : list nat :=
  if bool_decide (n ≤ 0) then []
  else take (Z.to_nat n)
         (stable_sort (λ a b, cell_leb false a.2 b.2)
                      (zip (seq 0 (length s)) s)).*1.

Definition numeric (s : list cell) : bool :=
  forallb (λ c, match c with Num _ | NaN => true | _ => false end) s.

(** [df.take(positions)] *)
Definition take_rows (df : DataFrame) (positions : list nat) : DataFrame :=
  {| columns := columns df;
     index_names := index_names df;
     body := omap (λ i, body df !! i) positions |}.

(** [df.nlargest(n, column)]; a column of text is refused. *)
Definition nlargest (n : Z) (column : string) (df : DataFrame)
  : result DataFrame :=
  s ← getitem df column;
  raise_unless (numeric s) TypeError;;
  Ok (take_rows df (series_nlargest n s)).

(** *** Grouping *)

(** The key of a row; rows with a missing key belong to no group
    ([dropna=True]). *)
Definition group_key (by_ : list string) (r : gmap string cell)
  : option (list cell) :=
  let k := row_key by_ r in
  if bool_decide (NaN ∈ k) then None else Some k.

(** The keys of the groups, sorted ([sort=True]) *)
Definition group_keys (df : DataFrame) (by_ : list string)
  : list (list cell) :=
  stable_sort (key_leb true)
    (remove_dups (omap (λ e, group_key by_ e.2) (body df))).

(** The rows of one group, without the grouping columns
    ([include_groups=False]) *)
Definition get_group (df : DataFrame) (by_ : list string) (k : list cell)
  : DataFrame :=
  {| columns := filter (λ c, c ∉ by_) (columns df);
     index_names := index_names df;
     body := (λ e, (e.1, foldr delete e.2 by_))
               <$> filter (λ e, group_key by_ e.2 = Some k) (body df) |}.

(** [df.groupby(by_).apply(f, include_groups=False)] for an [f] that returns
    rows of its argument: the results are stacked, the key of the group
    being put in front of the index label of each row. *)
Definition groupby_apply (df : DataFrame) (by_ : list string)
    (f : DataFrame → result DataFrame) : result DataFrame :=
  raise_unless (bool_decide (by_ ≠ [])) ValueError;;
  raise_unless (bool_decide (by_ ⊆ columns df)) KeyError;;
  parts ← traverse (λ k, x ← f (get_group df by_ k); Ok (k, x))
                   (group_keys df by_);
  Ok {| columns := filter (λ c, c ∉ by_) (columns df);
        index_names := (Some <$> by_) ++ index_names df;
        body := p ← parts; (λ e, (p.1 ++ e.1, e.2)) <$> body p.2 |}.

(** *** Index and columns *)

(** The column names [reset_index] gives to the index levels. *)
Definition level_names (df : DataFrame) : list string :=
  match index_names df with
  | [name] =>
      [default (if bool_decide ("index" ∈ columns df)
                then "level_0" else "index") name]
  | names => imap (λ i name, default ("level_" +:+ pretty i) name) names
  end.

Definition RangeIndex (i : nat) : list cell := [int (Z.of_nat i)].

(** [df.reset_index()]: the index levels become columns, in front; a name
    that is already taken is refused. *)
Definition reset_index (df : DataFrame) : result DataFrame :=
  let names := level_names df in
  raise_unless (bool_decide (NoDup names ∧ Forall (λ n, n ∉ columns df) names))
               ValueError;;
  Ok {| columns := names ++ columns df;
        index_names := [None];
        body := imap (λ i e, (RangeIndex i,
                              list_to_map (zip names e.1) ∪ e.2))
                     (body df) |}.

(** [df.drop(columns=cols)] *)
Definition drop (df : DataFrame) (cols : list string) : result DataFrame :=
  raise_unless (bool_decide (cols ⊆ columns df)) KeyError;;
  Ok {| columns := filter (λ c, c ∉ cols) (columns df);
        index_names := index_names df;
        body := (λ e, (e.1, foldr delete e.2 cols)) <$> body df |}.

(** [df[c] = values], on the value of the table *)
Definition setitem (df : DataFrame) (c : string) (values : list cell)
  : result DataFrame :=
  raise_unless (bool_decide (length values = length (body df))) ValueError;;
  Ok {| columns := if bool_decide (c ∈ columns df) then columns df
                   else columns df ++ [c];
        index_names := index_names df;
        body := zip_with (λ e v, (e.1, <[c:=v]> e.2)) (body df) values |}.

(** [pd.Categorical(values, categories=categories, ordered=True)]: a value
    that is not a category becomes missing. *)
Definition categorize (categories : list string) (v : cell) : cell :=
  match cell_text v ≫= (λ s, list_find (eq s) categories) with
  | Some (i, _) => Cat categories i
  | None => NaN
  end.

Definition Categorical (values : list cell) (categories : list string)
  : list cell :=
  categorize categories <$> values.

(** [df.fillna(value)] for a dict [value]: per column, missing cells are
    replaced; keys that are not columns are ignored. *)
Definition fill_row (cols : list string) (value : list (string * cell))
    (r : gmap string cell) : gmap string cell :=
  foldr (λ cv r, if bool_decide (cv.1 ∈ cols ∧ r !!! cv.1 = NaN)
                 then <[cv.1:=cv.2]> r else r) r value.

Definition fillna (df : DataFrame) (value : list (string * cell))
  : DataFrame :=
  {| columns := columns df;
     index_names := index_names df;
     body := (λ e, (e.1, fill_row (columns df) value e.2)) <$> body df |}.

(** [df.sort_values(by_, ascending=ascending)]: stable, lexicographic in
    the columns [by_], missing values last. *)
Definition sort_values (df : DataFrame) (by_ : list string)
    (ascending : bool) : result DataFrame :=
  keys ← traverse (getitem df) by_;
  raise_unless (forallb comparable keys) TypeError;;
  Ok {| columns := columns df;
        index_names := index_names df;
        body := stable_sort
                  (λ a b, key_leb ascending (row_key by_ a.2) (row_key by_ b.2))
                  (body df) |}.

(** *** Outer join *)

Definition positions_of (k : list cell) (keys : list (list cell))
  : list nat :=
  (filter (λ p, p.2 = k) (zip (seq 0 (length keys)) keys)).*1.

(** The pairs of one key: all pairs of a row of the left table and a row
    of the right table; a row is paired with nothing when the other table
    has no row of the key. *)
Definition pair_up (ls rs : list nat) : list (option nat * option nat) :=
  match ls, rs with
  | [], rs => (λ j, (None, Some j)) <$> rs
  | ls, [] => (λ i, (Some i, None)) <$> ls
  | ls, rs => i ← ls; j ← rs; [(Some i, Some j)]
  end.

(** The pairs of row positions of a full outer join, key by key in sorted
    order. *)
Definition outer_join_indexers (lkeys rkeys : list (list cell))
  : list (option nat * option nat) :=
  k ← stable_sort (key_leb true) (remove_dups (lkeys ++ rkeys));
  pair_up (positions_of k lkeys) (positions_of k rkeys).

Definition cell_of (r : option (gmap string cell)) (c : string) : cell :=
  from_option (λ r, r !!! c) NaN r.

(** The names of the columns of the result: a column that is not a key and
    that both tables have gets the suffix of its side. *)
Definition suffixed (on others : list string) (suffix : string)
    (c : string) : string :=
  if bool_decide ((c ∉ on) ∧ (c ∈ others)) then c +:+ suffix else c.

Definition merged_row (left right : DataFrame) (on : list string)
    (suffixes : string * string) (ij : option nat * option nat)
  : gmap string cell :=
  let l : option (gmap string cell) := ij.1 ≫= (λ i, rows left !! i) in
  let r : option (gmap string cell) := ij.2 ≫= (λ j, rows right !! j) in
  list_to_map
    (((λ c, (c, cell_of (match l with Some _ => l | None => r end) c)) <$> on)
     ++ ((λ c, (suffixed on (columns right) suffixes.1 c, cell_of l c))
           <$> filter (λ c, c ∉ on) (columns left))
     ++ ((λ c, (suffixed on (columns left) suffixes.2 c, cell_of r c))
           <$> filter (λ c, c ∉ on) (columns right))).

(** [pd.merge(left, right, on=on, how='outer', suffixes=suffixes)] *)
Definition merge (left right : DataFrame) (on : list string)
    (suffixes : string * string) : result DataFrame :=
  raise_unless (bool_decide (on ⊆ columns left ∧ on ⊆ columns right))
               KeyError;;
  let cols :=
    (suffixed on (columns right) suffixes.1 <$> columns left)
    ++ (suffixed on (columns left) suffixes.2
          <$> filter (λ c, c ∉ on) (columns right)) in
  raise_unless (bool_decide (NoDup cols)) MergeError;;
  Ok {| columns := cols;
        index_names := [None];
        body := imap (λ p ij, (RangeIndex p,
                               merged_row left right on suffixes ij))
                  (outer_join_indexers (row_key on <$> rows left)
                                       (row_key on <$> rows right)) |}.

End pd.

(** ** The object store and the output *)

Import Py pd.

(** What one [f.write] call of the report writer puts into the file: the
    format string is the constructor, its arguments are the values
    interpolated. *)
Inductive chunk :=
  | ProgramHeader (display_name : string)
  | LandingPageHeader
  | ChannelHeader (channel : cell)
  | BulletHead (page sessions_mom : cell)
  | SessionDeltas (sessions_yoy_str sessions_mom_str : string)
  | ConversionsHead (conv_mom : cell)
  | ConversionsYoY (conv_yoy_diff_str conv_yoy_pct_str : string)
  | ConversionsMoM (conv_mom_diff_str conv_mom_pct_str : string)
  | Newline.

Definition newline : string := String (Ascii.ascii_of_nat 10) EmptyString.
Definition quote : string := String (Ascii.ascii_of_nat 34) EmptyString.

Definition fmt (x : cell) : string :=
  match format_0f x with Ok s => s | Raise _ => EmptyString end.

(** The text of a chunk. *)
Definition render (number_str : Qc → string) (c : chunk) : string :=
  match c with
  | ProgramHeader display_name =>
      "## **" +:+ display_name +:+ "**" +:+ newline +:+ newline
  | LandingPageHeader =>
      "### **Landing Page Report**" +:+ newline +:+ newline
  | ChannelHeader channel =>
      "#### **" +:+ str number_str channel +:+ "**" +:+ newline +:+ newline
  | BulletHead page sessions_mom =>
      "* " +:+ quote +:+ str number_str page +:+ quote +:+ ": "
      +:+ fmt sessions_mom +:+ " sessions "
  | SessionDeltas sessions_yoy_str sessions_mom_str =>
      "(YoY: " +:+ sessions_yoy_str +:+ " | MoM: " +:+ sessions_mom_str +:+ ")"
  | ConversionsHead conv_mom =>
      " Conversions: " +:+ fmt conv_mom +:+ " "
  | ConversionsYoY conv_yoy_diff_str conv_yoy_pct_str =>
      "(YoY: " +:+ conv_yoy_diff_str +:+ ", " +:+ conv_yoy_pct_str +:+ "% | "
  | ConversionsMoM conv_mom_diff_str conv_mom_pct_str =>
      "MoM: " +:+ conv_mom_diff_str +:+ ", " +:+ conv_mom_pct_str +:+ "%)"
  | Newline => newline
  end.

Definition render_file (number_str : Qc → string) (cs : list chunk) : string :=
  foldr (λ c s, render number_str c +:+ s) EmptyString cs.

(** Tables are objects: a variable holds a reference.  The world is the
    store of the tables, the files written and the standard output. *)
Definition loc := positive.

Record world := mkWorld {
  heap : gmap loc DataFrame;
  files : gmap string (list chunk);
  stdout : list string
}.

(** Computations that may raise and that change the world; what was done
    before an exception stays done. *)
Definition M (A : Type) : Type := world → result A * world.

#[global] Instance M_ret : MRet M := λ A a w, (Ok a, w).
#[global] Instance M_bind : MBind M := λ A B f m w,
  match m w with
  | (Ok a, w') => f a w'
  | (Raise e, w') => (Raise e, w')
  end.

Definition lift {A} (r : result A) : M A := λ w, (r, w).

(** A new object *)
Definition new (df : DataFrame) : M loc := λ w,
  let l := fresh (dom (heap w)) in
  (Ok l, {| heap := <[l:=df]> (heap w); files := files w; stdout := stdout w |}).

(** The object behind a reference *)
Definition deref (l : loc) : M DataFrame := λ w,
  match heap w !! l with
  | Some df => (Ok df, w)
  | None => (Raise ReferenceError, w)
  end.

(** Overwrite an object in place *)
Definition assign (l : loc) (df : DataFrame) : M unit := λ w,
  (Ok tt, {| heap := <[l:=df]> (heap w); files := files w; stdout := stdout w |}).

(** A method call that returns a new table: [l.f(...)] *)
Definition call (l : loc) (f : DataFrame → result DataFrame) : M loc :=
  df ← deref l; r ← lift (f df); new r.

(** [open(path, 'w')], [f.write(c)] and [print(s)] *)
Definition open_w (path : string) : M unit := λ w,
  (Ok tt, {| heap := heap w; files := <[path:=[]]> (files w); stdout := stdout w |}).

Definition write (path : string) (c : chunk) : M unit := λ w,
  (Ok tt, {| heap := heap w;
             files := alter (λ cs, cs ++ [c]) path (files w);
             stdout := stdout w |}).

Definition print (s : string) : M unit := λ w,
  (Ok tt, {| heap := heap w; files := files w; stdout := stdout w ++ [s] |}).

(** [for x in xs: body] *)
Fixpoint for_ {A} (xs : list A) (body : A → M unit) : M unit :=
  match xs with
  | [] => mret tt
  | x :: xs => body x;; for_ xs body
  end.

(** ** The program *)

(** The official program order of the monthly report *)
Definition PROGRAM_ORDER : list string :=
  [ "Informatics"; "CyberOps"; "CyberEng"; "MED"; "LEPSL"; "Data Science";
    "MSAAI"; "MSLDT"; "MTS"; "MESH"; "MSHA"; "MSNP"; "EML"; "MSITL";
    "MSNNL" ].

(** Display names of the programs *)
Definition PROGRAM_NAMES : gmap string string :=
  list_to_map
    [ ("Informatics", "Health Care Informatics");
      ("CyberOps", "Cyber Security Operations and Leadership");
      ("CyberEng", "Cyber Security Engineering");
      ("MED", "Education");
      ("LEPSL", "Law Enforcement and Public Safety Leadership");
      ("Data Science", "Applied Data Science");
      ("MSAAI", "Applied Artificial Intelligence");
      ("MSLDT", "Learning Design and Technology");
      ("MTS", "Theological Studies");
      ("MESH", "Engineering for Sustainability & Health");
      ("MSHA", "Humanitarian Action");
      ("MSNP", "Nonprofit Leadership & Management");
      ("EML", "Engineering Management and Leadership");
      ("MSITL", "Information Technology Leadership");
      ("MSNNL", "MSN Nursing Leadership") ].

(** Functions that only read their tables are functions on table values;
    the others work on references. *)

(** Filter data by specified channels. *)
Definition filter_channels (data : DataFrame) (channels : list string)
  : result DataFrame :=
  s ← getitem data "default_channel";
  Ok (getitem_mask data (isin s channels)).

(** Get top N pages by metric for each program and channel combination. *)
Definition get_top_pages (data : DataFrame) (group_cols : list string)
    (metric : string) (top_n : Z) : result DataFrame :=
  applied ← groupby_apply data group_cols (nlargest top_n metric);
  result ← reset_index applied;
  if bool_decide ("level_2" ∈ columns result) then drop result ["level_2"]
  else if bool_decide ("level_1" ∈ columns result) then drop result ["level_1"]
  else Ok result.

(** Sort data according to the official program order.  The column
    assignment changes the caller's table. *)
Definition sort_by_program_order (data : loc) : M loc :=
  df ← deref data;
  program_category ← lift (getitem df "program_category");
  df ← lift (setitem df "program_category"
               (Categorical program_category PROGRAM_ORDER));
  assign data df;;
  sorted ← call data
    (λ df, sort_values df ["program_category"; "default_channel"] true);
  call sorted reset_index.

Definition fill_values : list (string * cell) :=
  [ ("Session_mom", int 0);
    ("Session_yoy", int 0);
    ("sessions_mom_difference", int 0);
    ("sessions_yoy_difference", int 0);
    ("Conversions_mom", int 0);
    ("Conversions_yoy", int 0);
    ("conversions_mom_difference", int 0);
    ("conversions_yoy_difference", int 0);
    ("conversion_rate_mom_percent_difference", int 0);
    ("conversion_rate_yoy_percent_difference", int 0) ].

Definition join_columns : list string :=
  ["program_category"; "default_channel"; "Landing_page"].

(** Merge MoM and YoY data and prepare summary. *)
Definition summarize_data (mom_data yoy_data : loc) : M loc :=
  mom ← deref mom_data;
  yoy ← deref yoy_data;
  summary ← lift (merge mom yoy join_columns ("_mom", "_yoy")) ≫= new;
  summary ← call summary (λ df, Ok (fillna df fill_values));
  sort_by_program_order summary.

(** [f"+{x:.0f}" if x >= 0 else f"{x:.0f}"] *)
Definition signed (x : cell) : result string :=
  nonneg ← ge x 0%Qc;
  s ← format_0f x;
  Ok (if nonneg : bool then "+" +:+ s else s).

(** Percentage change, with the convention for a zero base. *)
Definition pct_change (diff prev : cell) : result cell :=
  if ne0 prev then
    ratio ← truediv diff prev; mul ratio (int 100)
  else
    positive ← gt diff 0%Qc;
    Ok (if positive : bool then int 100 else int 0).

(** The local variables of the loop over the rows of a channel. *)
Record locals := mkLocals {
  page : cell;
  sessions_mom : cell;
  sessions_mom_diff : cell;
  sessions_yoy_diff : cell;
  conv_mom : cell;
  conv_mom_diff : cell;
  conv_yoy_diff : cell;
  prev_conv_mom : cell;
  prev_conv_yoy : cell;
  conv_pct_change_mom : cell;
  conv_pct_change_yoy : cell;
  sessions_yoy_str : string;
  sessions_mom_str : string;
  conv_yoy_diff_str : string;
  conv_yoy_pct_str : string;
  conv_mom_diff_str : string;
  conv_mom_pct_str : string
}.

(** What the loop body computes for a row before it writes. *)
Definition row_locals (row : gmap string cell) : result locals :=
  page ← (if row !! "Landing_page" is Some c then Ok c else Raise KeyError);
  let sessions_mom := get row "Session_mom" (int 0) in
  let sessions_mom_diff := get row "sessions_mom_difference" (int 0) in
  let sessions_yoy_diff := get row "sessions_yoy_difference" (int 0) in
  let conv_mom := get row "Conversions_mom" (int 0) in
  let conv_mom_diff := get row "conversions_mom_difference" (int 0) in
  let conv_yoy_diff := get row "conversions_yoy_difference" (int 0) in
  prev_conv_mom ← sub conv_mom conv_mom_diff;
  prev_conv_yoy ← sub conv_mom conv_yoy_diff;
  conv_pct_change_mom ← pct_change conv_mom_diff prev_conv_mom;
  conv_pct_change_yoy ← pct_change conv_yoy_diff prev_conv_yoy;
  sessions_yoy_str ← signed sessions_yoy_diff;
  sessions_mom_str ← signed sessions_mom_diff;
  conv_yoy_diff_str ← signed conv_yoy_diff;
  conv_yoy_pct_str ← signed conv_pct_change_yoy;
  conv_mom_diff_str ← signed conv_mom_diff;
  conv_mom_pct_str ← signed conv_pct_change_mom;
  Ok (mkLocals page sessions_mom sessions_mom_diff sessions_yoy_diff
        conv_mom conv_mom_diff conv_yoy_diff prev_conv_mom prev_conv_yoy
        conv_pct_change_mom conv_pct_change_yoy
        sessions_yoy_str sessions_mom_str
        conv_yoy_diff_str conv_yoy_pct_str conv_mom_diff_str conv_mom_pct_str).

(** The bullet point of a row. *)
Definition write_row (f : string) (row : gmap string cell) : M unit :=
  v ← lift (row_locals row);
  lift (format_0f (sessions_mom v));;
  write f (BulletHead (page v) (sessions_mom v));;
  write f (SessionDeltas (sessions_yoy_str v) (sessions_mom_str v));;
  has_conversions ← lift (gt (conv_mom v) 0%Qc);
  (if has_conversions : bool then
     lift (format_0f (conv_mom v));;
     write f (ConversionsHead (conv_mom v));;
     write f (ConversionsYoY (conv_yoy_diff_str v) (conv_yoy_pct_str v));;
     write f (ConversionsMoM (conv_mom_diff_str v) (conv_mom_pct_str v))
   else mret tt);;
  write f Newline.

(** The section of a channel within a program. *)
Definition write_channel (f : string) (program_data : DataFrame)
    (channel : cell) : M unit :=
  default_channel ← lift (getitem program_data "default_channel");
  channel_data ← lift
    (sort_values (getitem_mask program_data (series_eq default_channel channel))
                 ["Session_mom"] false);
  write f (ChannelHeader channel);;
  for_ (iterrows channel_data) (write_row f);;
  write f Newline.

(** The section of a program; nothing for a program without rows. *)
Definition write_program (f : string) (data : DataFrame) (program : string)
  : M unit :=
  program_category ← lift (getitem data "program_category");
  let program_data :=
    getitem_mask data (series_eq program_category (Str program)) in
  if empty program_data then mret tt
  else
    let display_name := default program (PROGRAM_NAMES !! program) in
    write f (ProgramHeader display_name);;
    write f LandingPageHeader;;
    default_channel ← lift (getitem program_data "default_channel");
    for_ (unique default_channel) (write_channel f program_data);;
    write f Newline.

(** Generate markdown report with programs in official order. *)
Definition generate_markdown (data : loc) (output_file : string) : M unit :=
  df ← deref data;
  Session_mom ← lift (getitem df "Session_mom");
  mask ← lift (series_gt Session_mom (Qc_of_Z 20));
  data ← new (getitem_mask df mask);
  data ← call data Ok;
  data ← sort_by_program_order data;
  open_w output_file;;
  df ← deref data;
  for_ PROGRAM_ORDER (write_program output_file df);;
  print ("Markdown file created successfully with platform-independent newlines: "
         +:+ output_file).

(** ** Notions used in the statements *)

(** The world after [cs] has been written to the file [f]. *)
Definition append (f : string) (cs : list chunk) (w : world) : world :=
  {| heap := heap w;
     files := alter (λ old, old ++ cs) f (files w);
     stdout := stdout w |}.

(** Every object of [w] other than those of [X] is the same in [w']. *)
Definition unchanged_except (X : gset loc) (w w' : world) : Prop :=
  ∀ l, l ∈ dom (heap w) → l ∉ X → heap w' !! l = heap w !! l.

(** [w'] has all the objects of [w], unchanged. *)
Definition extends (w w' : world) : Prop :=
  dom (heap w) ⊆ dom (heap w') ∧ unchanged_except ∅ w w'.

(** A computation that does not touch the store. *)
Definition keeps_heap {A} (m : M A) : Prop := ∀ w, heap (m w).2 = heap w.

(** A computation that never raises [e]. *)
Definition never_raises {A} (e : exn) (m : M A) : Prop :=
  ∀ w, (m w).1 ≠ Raise e.

(** The table [sort_by_program_order] leaves in its argument: the program
    column has become categorical. *)
Definition with_program_categories (df : DataFrame) : result DataFrame :=
  program_category ← getitem df "program_category";
  setitem df "program_category" (Categorical program_category PROGRAM_ORDER).

(** The table [sort_by_program_order] returns. *)
Definition program_sorted (df : DataFrame) : result DataFrame :=
  df ← with_program_categories df;
  sorted ← sort_values df ["program_category"; "default_channel"] true;
  reset_index sorted.

(** The chunks of a row, of a channel, of a program and of the whole
    report, when they are written without an exception. *)
Definition row_chunks (row : gmap string cell) : result (list chunk) :=
  v ← row_locals row;
  format_0f (sessions_mom v);;
  has_conversions ← gt (conv_mom v) 0%Qc;
  conversions ←
    (if has_conversions : bool then
       format_0f (conv_mom v);;
       Ok [ ConversionsHead (conv_mom v);
            ConversionsYoY (conv_yoy_diff_str v) (conv_yoy_pct_str v);
            ConversionsMoM (conv_mom_diff_str v) (conv_mom_pct_str v) ]
     else Ok []);
  Ok ([ BulletHead (page v) (sessions_mom v);
        SessionDeltas (sessions_yoy_str v) (sessions_mom_str v) ]
      ++ conversions ++ [Newline]).

Definition channel_rows (program_data : DataFrame) (channel : cell)
  : result (list (gmap string cell)) :=
  default_channel ← getitem program_data "default_channel";
  channel_data ←
    sort_values (getitem_mask program_data (series_eq default_channel channel))
                ["Session_mom"] false;
  Ok (iterrows channel_data).

Definition channel_chunks (program_data : DataFrame) (channel : cell)
  : result (list chunk) :=
  rs ← channel_rows program_data channel;
  lines ← traverse row_chunks rs;
  Ok (ChannelHeader channel :: concat lines ++ [Newline]).

Definition program_rows (data : DataFrame) (program : string)
  : result DataFrame :=
  program_category ← getitem data "program_category";
  Ok (getitem_mask data (series_eq program_category (Str program))).

Definition display_name (program : string) : string :=
  default program (PROGRAM_NAMES !! program).

Definition program_chunks (data : DataFrame) (program : string)
  : result (list chunk) :=
  program_data ← program_rows data program;
  if empty program_data then Ok []
  else
    default_channel ← getitem program_data "default_channel";
    sections ← traverse (channel_chunks program_data)
                        (unique default_channel);
    Ok (ProgramHeader (display_name program) :: LandingPageHeader
        :: concat sections ++ [Newline]).

Definition report_chunks (data : DataFrame) : result (list chunk) :=
  sections ← traverse (program_chunks data) PROGRAM_ORDER;
  Ok (concat sections).

(** The [float]s are the binary64 numbers: a significand below [2 ^ 53] in
    absolute value, an exponent from -1074 to 971. *)
Definition is_float (r : Qc) : Prop :=
  ∃ m e : Z, r = binary m e ∧ (Z.abs m < 2 ^ 53)%Z ∧ (-1074 ≤ e ≤ 971)%Z.

(** [r] is a [float] nearest to [q]: no [float] is nearer. *)
Definition nearest_float (q r : Qc) : Prop :=
  is_float r ∧ ∀ r', is_float r' → (Qcabs (r - q) ≤ Qcabs (r' - q))%Qc.

(** The percent change as the specification words it, in exact
    arithmetic: the difference over the previous-period value, times 100;
    for a zero previous-period value, 100 when the difference is positive
    and 0 otherwise. *)
Definition percent_change (diff prev : Qc) : Qc :=
  if decide (prev = 0%Qc)
  then if decide (0 < diff)%Qc then Qc_of_Z 100 else Qc_of_Z 0
  else (diff / prev * Qc_of_Z 100)%Qc.

(** *** Reading a report *)

(** The program headers of a report, in order. *)
Definition headers (cs : list chunk) : list string :=
  omap (λ c, match c with ProgramHeader d => Some d | _ => None end) cs.

(** The program a header stands for. *)
Definition program_of (display : string) : option string :=
  snd <$> list_find (λ p, display_name p = display) PROGRAM_ORDER.

(** A bullet line as a reader finds it: under the header of a program and
    the header of a channel. *)
Record report_line := mkLine {
  line_program : option string;
  line_channel : option cell;
  line_page : cell;
  line_sessions : cell
}.

Fixpoint lines_from (program : option string) (channel : option cell)
    (cs : list chunk) : list report_line :=
  match cs with
  | [] => []
  | ProgramHeader d :: cs => lines_from (program_of d) None cs
  | ChannelHeader ch :: cs => lines_from program (Some ch) cs
  | BulletHead pg s :: cs =>
      mkLine program channel pg s :: lines_from program channel cs
  | _ :: cs => lines_from program channel cs
  end.

Definition report_lines (cs : list chunk) : list report_line :=
  lines_from None None cs.

(** The line of the row [r] of a table, in the section of [program] and
    [channel]. *)
Definition line_of (program : string) (channel : cell)
    (r : gmap string cell) : report_line :=
  mkLine (Some program) (Some channel)
         (r !!! "Landing_page") (get r "Session_mom" (int 0)).

(** A row of the program [program], by the text of its program cell. *)
Definition in_program (program : string) (r : gmap string cell) : Prop :=
  cell_text (r !!! "program_category") = Some program.

(** A row that passes the low-traffic filter. *)
Definition has_traffic (r : gmap string cell) : Prop :=
  match r !! "Session_mom" with
  | Some (Num q) => (Qc_of_Z 20 < q)%Qc
  | _ => False
  end.

#[global] Instance in_program_dec program r : Decision (in_program program r).
Proof. unfold in_program. apply _. Defined.

#[global] Instance has_traffic_dec r : Decision (has_traffic r).
Proof.
  unfold has_traffic. destruct (r !! "Session_mom") as [[]|]; apply _.
Defined.

(** The row as [sort_by_program_order] recodes it. *)
Definition recode (r : gmap string cell) : gmap string cell :=
  <["program_category" :=
      categorize PROGRAM_ORDER (r !!! "program_category")]> r.

(** Whether the program has a section: some row of the sorted table is a
    row of the program. *)
Definition has_section (data : DataFrame) (program : string) : Prop :=
  Exists (λ r, eqb (r !!! "program_category") (Str program) = true)
         (rows data).

#[global] Instance has_section_dec data program :
  Decision (has_section data program).
Proof. unfold has_section. apply _. Defined.

(** The lines of a section are lines of rows of the program. *)
Definition section_line (data : DataFrame) (program : string)
    (l : report_line) : Prop :=
  ∃ ch r, r ∈ rows data
    ∧ eqb (r !!! "program_category") (Str program) = true
    ∧ eqb (r !!! "default_channel") ch = true
    ∧ is_Some (r !! "Landing_page")
    ∧ l = mkLine (program_of (display_name program)) (Some ch)
                 (r !!! "Landing_page") (get r "Session_mom" (int 0)).


(** The sort key of [sort_by_program_order] and the order it sorts by. *)
Definition program_key (r : gmap string cell) : list cell :=
  row_key ["program_category"; "default_channel"] r.

Definition program_leb (a b : list cell * gmap string cell) : bool :=
  key_leb true (program_key a.2) (program_key b.2).

(** The program has a row that passes the low-traffic filter. *)
Definition survives (df : DataFrame) (program : string) : Prop :=
  Exists (λ r, has_traffic r ∧ in_program program r) (rows df).

#[global] Instance survives_dec df program : Decision (survives df program).
Proof. unfold survives. apply _. Defined.

(** The line [l] of a report is the line of the row [r] of the table [df],
    in the section of the program [p]. *)
Definition line_of_row (df : DataFrame) (l : report_line) (p : string)
    (r : gmap string cell) : Prop :=
  r ∈ rows df
  ∧ in_program p r
  ∧ line_program l = Some p
  ∧ (∃ ch, line_channel l = Some ch
           ∧ eqb (r !!! "default_channel") ch = true)
  ∧ line_sessions l = r !!! "Session_mom"
  ∧ ("Landing_page" ∈ columns df → line_page l = r !!! "Landing_page").

(** A row of the summary without its index column: a merged row, filled
    and recoded. *)
Definition summary_row (mom yoy : DataFrame) (columns : list string)
    (ij : option nat * option nat) : gmap string cell :=
  recode (fill_row columns fill_values
            (merged_row mom yoy join_columns ("_mom", "_yoy") ij)).

(** How often [x] occurs in [l]. *)
Definition occurrences {A} `{EqDecision A} (x : A) (l : list A) : nat :=
  length (filter (λ y, y = x) l).

(** *** The columns of the ranked tables *)

Definition shared_columns : list string := ["Session"; "Conversions"].

Definition mom_columns : list string :=
  [ "sessions_mom_difference"; "conversions_mom_difference";
    "conversion_rate_mom_percent_difference" ].

Definition yoy_columns : list string :=
  [ "sessions_yoy_difference"; "conversions_yoy_difference";
    "conversion_rate_yoy_percent_difference" ].

(** Modelled from the spec: the columns of the two input files, which are
    not part of the repository.  Both tables have the sessions and the
    conversions of their period, under the same names [Session] and
    [Conversions] (the merge tells them apart by its suffixes), and each has
    the differences of its own comparison only. *)
Definition ranked_schema (mom yoy : DataFrame) : Prop :=
  shared_columns ⊆ columns mom ∧ shared_columns ⊆ columns yoy
  ∧ mom_columns ⊆ columns mom ∧ Forall (λ c, c ∉ columns yoy) mom_columns
  ∧ yoy_columns ⊆ columns yoy ∧ Forall (λ c, c ∉ columns mom) yoy_columns.

#[global] Instance ranked_schema_dec mom yoy : Decision (ranked_schema mom yoy).
Proof. unfold ranked_schema. apply _. Defined.

(** *** The canonical order *)

(** The position of a program cell in the official order; a missing
    program comes after all programs. *)
Definition program_rank (c : cell) : nat :=
  match c with
  | Cat _ i => i
  | _ => length PROGRAM_ORDER
  end.

(** [r1] may come before [r2]: by the program first, then by the channel,
    in the order of the strings, a missing channel last. *)
Definition summary_order (r1 r2 : gmap string cell) : Prop :=
  (program_rank (r1 !!! "program_category")
   < program_rank (r2 !!! "program_category"))%nat
  ∨ (program_rank (r1 !!! "program_category")
     = program_rank (r2 !!! "program_category")
     ∧ cell_leb true (r1 !!! "default_channel") (r2 !!! "default_channel")
       = true).

(** A program cell after the recoding: a program of the official order, or
    missing. *)
Definition recoded (c : cell) : Prop :=
  c = NaN ∨ ∃ i p, c = Cat PROGRAM_ORDER i ∧ PROGRAM_ORDER !! i = Some p.

(** *** Triples *)

(** The table has a row of the program [p], of a channel equal to [ch] and
    of the landing page [pg]. *)
Definition has_triple (df : DataFrame) (p : string) (ch pg : cell) : Prop :=
  ∃ r, r ∈ rows df
       ∧ in_program p r
       ∧ eqb (r !!! "default_channel") ch = true
       ∧ r !!! "Landing_page" = pg.

(** The line is the line of the page [pg] under the headers of the program
    [p] and of the channel [ch]. *)
Definition reports_triple (l : report_line) (p : string) (ch pg : cell)
  : Prop :=
  line_program l = Some p ∧ line_channel l = Some ch ∧ line_page l = pg.

(** *** Ranking *)

(** [x] is a larger metric value than [y]; a missing value is smaller than
    every number. *)
Definition larger (x y : cell) : Prop :=
  match x, y with
  | Num a, Num b => (b < a)%Qc
  | Num _, NaN => True
  | _, _ => False
  end.

(** In the column [s], position [i] comes before position [j] in the
    ranking: its value is larger, or the values are the same and [i] is the
    earlier position. *)
Definition outranks (s : list cell) (i j : nat) : Prop :=
  ∃ x y, s !! i = Some x ∧ s !! j = Some y
         ∧ (larger x y ∨ (x = y ∧ (i < j)%nat)).

(** The rows of the group of key [k], in the order of the table. *)
Definition group_rows (df : DataFrame) (by_ : list string) (k : list cell)
  : list (gmap string cell) :=
  filter (λ r, group_key by_ r = Some k) (rows df).

(** The rows [nlargest] keeps of the group of key [k]. *)
Definition top_of_group (df : DataFrame) (by_ : list string)
    (metric : string) (n : Z) (k : list cell) : DataFrame :=
  take_rows (get_group df by_ k)
    (series_nlargest n ((λ r, r !!! metric) <$> rows (get_group df by_ k))).

(** The cells of a row under the columns [cols]. *)
Definition restrict (cols : list string) (r : gmap string cell)
  : gmap string cell :=
  filter (λ cv, cv.1 ∈ cols) r.

(** ** Sample tables *)

(** A table as [read_csv] gives it: the columns of the header, the cells of
    the lines, and the default index. *)
Definition table (cols : list string) (cells : list (list cell))
  : DataFrame :=
  {| columns := cols;
     index_names := [None];
     body := imap (λ i r, (RangeIndex i, list_to_map (zip cols r))) cells |}.

Definition mom_header : list string :=
  join_columns ++ shared_columns ++ mom_columns.

Definition yoy_header : list string :=
  join_columns ++ shared_columns ++ yoy_columns.

(** Month over month: a page with conversions, a page with little traffic
    and a page of another program. *)
Definition mom_table : DataFrame :=
  table mom_header
    [ [Str "Informatics"; Str "Organic Search"; Str "/home";
       int 50; int 10; int 5; int 2; int 1];
      [Str "Informatics"; Str "Organic Search"; Str "/apply";
       int 15; int 0; int (-2); int 0; int 0];
      [Str "CyberOps"; Str "Paid Search"; Str "/cyber";
       int 30; int 0; int 4; int 0; int 0] ].

(** Year over year: the first page again, and a page that the other table
    does not have. *)
Definition yoy_table : DataFrame :=
  table yoy_header
    [ [Str "Informatics"; Str "Organic Search"; Str "/home";
       int 40; int 8; int (-3); int (-1); int (-2)];
      [Str "MED"; Str "Paid Social"; Str "/teach";
       int 70; int 3; int 6; int 1; int 1] ].

Definition program_channel : list string :=
  ["program_category"; "default_channel"].

(** Whether a call returns, and what it returns. *)
Definition is_Ok {A} (r : result A) : bool :=
  match r with
  | Ok _ => true
  | Raise _ => false
  end.

Definition value {A} (d : A) (r : result A) : A :=
  match r with
  | Ok a => a
  | Raise _ => d
  end.

(** The ranking of the pages, for a table that it accepts. *)
Definition ranked (top_n : Z) (data : DataFrame) : DataFrame :=
  value data (get_top_pages data program_channel "Session" top_n).

(** Two rankings as objects of a store. *)
Definition rankings (mom yoy : DataFrame) : world :=
  {| heap := {[ 1%positive := ranked 3 mom; 2%positive := ranked 3 yoy ]};
     files := ∅;
     stdout := [] |}.

Definition ranked_world : world := rankings mom_table yoy_table.

(** The summary is the sixth object: the merge, the filling, the sort and
    the new index each make one. *)
Definition summary_data : loc := 6%positive.

Definition summary_world : world :=
  (summarize_data 1%positive 2%positive ranked_world).2.

Definition summary_table : DataFrame :=
  default mom_table (heap summary_world !! summary_data).

Definition report_world : world :=
  (generate_markdown summary_data "report.md" summary_world).2.

Definition report_file : list chunk :=
  default [] (files report_world !! "report.md").



(** A row whose percent change is not a [float]: 23 conversions more
    than 40; year over year, 21 more than 42. *)
Definition rounded_line : gmap string cell :=
  list_to_map
    [ ("Landing_page", Str "/apply");
      ("Session_mom", int 120);
      ("sessions_mom_difference", int 12);
      ("sessions_yoy_difference", int 7);
      ("Conversions_mom", int 63);
      ("conversions_mom_difference", int 23);
      ("conversions_yoy_difference", int 21) ].

Definition rounded_line_locals : locals :=
  {| page := Str "/apply";
     sessions_mom := int 120;
     sessions_mom_diff := int 12;
     sessions_yoy_diff := int 7;
     conv_mom := int 63;
     conv_mom_diff := int 23;
     conv_yoy_diff := int 21;
     prev_conv_mom := Num (Qc_of_Z 63 - Qc_of_Z 23);
     prev_conv_yoy := Num (Qc_of_Z 63 - Qc_of_Z 21);
     conv_pct_change_mom := Num (binary 8092405580431359 (-47));
     conv_pct_change_yoy := Num (binary (50 * 2 ^ 47) (-47));
     sessions_yoy_str := "+7";
     sessions_mom_str := "+12";
     conv_yoy_diff_str := "+21";
     conv_yoy_pct_str := "+50";
     conv_mom_diff_str := "+23";
     conv_mom_pct_str := "+57" |}.

(** A table with a program outside the official order. *)
Definition other_program_table : DataFrame :=
  table mom_header
    [ [Str "XYZ"; Str "Organic Search"; Str "/x";
       int 100; int 10; int 5; int 2; int 1] ].

(** A table with two rows of the same program, channel and landing page. *)
Definition repeated_page_table : DataFrame :=
  table yoy_header
    [ [Str "Informatics"; Str "Organic Search"; Str "/home";
       int 40; int 8; int (-3); int (-1); int (-2)];
      [Str "Informatics"; Str "Organic Search"; Str "/home";
       int 45; int 9; int 2; int 1; int 1] ].

(** A table with a row without a program. *)
Definition missing_program_table : DataFrame :=
  table mom_header
    [ [NaN; Str "Organic Search"; Str "/lost";
       int 60; int 0; int 5; int 0; int 0] ].

(** The summary of two tables, when [summarize_data] returns one. *)
Definition summary_of (mom yoy : DataFrame) : DataFrame :=
  let w := (summarize_data 1%positive 2%positive (rankings mom yoy)).2 in
  default mom (heap w !! summary_data).

(** *** The claims as worded, where the code differs *)

(** The ranking keeps, of every combination of the grouping attributes that
    the table has, min([top_n], size of the group) rows. *)
Definition keeps_top_of_each_combination (data result : DataFrame)
    (group_cols : list string) (top_n : Z) : Prop :=
  ∀ k, k ∈ row_key group_cols <$> rows data →
    Z.of_nat (length (filter (λ r, row_key group_cols r = k) (rows result)))
    = Z.min top_n
        (Z.of_nat
           (length (filter (λ r, row_key group_cols r = k) (rows data)))).

(** ** The entry point *)

Definition channels_of_interest : list string :=
  ["Organic Search"; "Paid Search"; "Paid Social"].

Definition mom_file : string :=
  "USDOnline-DashboardMk2_RLandingPagesMoM_Table.csv".

Definition yoy_file : string :=
  "USDOnline-DashboardMk2_RLandingPagesYoY_Table.csv".

Definition report_path : string :=
  "landing_page_top3_next_month_v5_update.md".

(** [df.shape] *)
Definition shape (df : DataFrame) : nat * nat :=
  (length (body df), length (columns df)).

(** The entry point is parametric in what the program takes from outside:
    [pd.read_csv], which makes a table of a file, and the text [print]
    gives to a list of column names and to a shape. *)
Section main.
Variable read_csv : string → M loc.
Variable str_of_columns : list string → string.
Variable str_of_shape : nat * nat → string.

(** Load MoM and YoY data from CSV files. *)
Definition load_data (mom_file yoy_file : string) : M (loc * loc) :=
  mom_data ← read_csv mom_file;
  yoy_data ← read_csv yoy_file;
  mret (mom_data, yoy_data).

Definition main : M unit :=
  loaded ← load_data mom_file yoy_file;
  let mom_data := loaded.1 in
  let yoy_data := loaded.2 in
  mom ← deref mom_data;
  print ("MoM columns: " +:+ str_of_columns (columns mom));;
  yoy ← deref yoy_data;
  print ("YoY columns: " +:+ str_of_columns (columns yoy));;
  mom ← deref mom_data;
  print ("MoM shape: " +:+ str_of_shape (shape mom));;
  yoy ← deref yoy_data;
  print ("YoY shape: " +:+ str_of_shape (shape yoy));;
  mom_filtered ←
    call mom_data (λ df, filter_channels df channels_of_interest);
  yoy_filtered ←
    call yoy_data (λ df, filter_channels df channels_of_interest);
  mom_top_pages ←
    call mom_filtered
      (λ df, get_top_pages df ["program_category"; "default_channel"]
                           "Session" 3);
  yoy_top_pages ←
    call yoy_filtered
      (λ df, get_top_pages df ["program_category"; "default_channel"]
                           "Session" 3);
  summary_data ← summarize_data mom_top_pages yoy_top_pages;
  generate_markdown summary_data report_path.
End main.

(** *** Notions for the entry point and the other functions *)

(** A row of one of the channels, by the text of its channel cell. *)
Definition in_channels (channels : list string) (r : gmap string cell)
  : Prop :=
  match cell_text (r !!! "default_channel") with
  | Some v => v ∈ channels
  | None => False
  end.

#[global] Instance in_channels_dec channels r :
  Decision (in_channels channels r).
Proof.
  unfold in_channels. destruct (cell_text (r !!! "default_channel")); apply _.
Defined.

(** Files on a disk, for the sample: reading one makes a new table. *)
Definition read_sample (path : string) : M loc :=
  if bool_decide (path = yoy_file) then new yoy_table else new mom_table.

Definition no_text {A} (x : A) : string := EmptyString.

Definition empty_world : world :=
  {| heap := ∅; files := ∅; stdout := [] |}.

(** ** Properties *)

Local Open Scope nat_scope.

(** *** The error monad *)

Lemma bind_Ok {A B} (m : result A) (k : A → result B) b :
  m ≫= k = Ok b → ∃ a, m = Ok a ∧ k a = Ok b.
Proof. destruct m; [eauto | discriminate]. Qed.

Lemma raise_unless_Ok b e u : raise_unless b e = Ok u → b = true.
Proof. by destruct b. Qed.

(** Splits a successful chain of binds into its steps. *)
Ltac inv_ok :=
  repeat match goal with
  | H : Ok _ = Ok _ |- _ => injection H as H; try subst
  | H : Raise _ = Ok _ |- _ => discriminate H
  | H : _ ≫= _ = Ok _ |- _ =>
      let a := fresh "a" in let Ha := fresh "H" a in
      apply bind_Ok in H as (a & Ha & H)
  | H : raise_unless _ _ = Ok _ |- _ =>
      apply raise_unless_Ok in H; try apply bool_decide_eq_true in H
  end.

(** Replays the steps known to succeed in the goal. *)
Ltac use_ok :=
  repeat (match goal with
          | H : ?x = Ok _ |- context [?x] => rewrite H
          end; simpl).

Lemma traverse_Ok {A B} (f : A → result B) l ys :
  traverse f l = Ok ys → Forall2 (λ x y, f x = Ok y) l ys.
Proof.
  revert ys; induction l as [|x l IH]; intros ys H; simpl in H.
  - inv_ok. constructor.
  - inv_ok. constructor; auto.
Qed.

Lemma traverse_total {A B} (f : A → result B) (g : A → B) l :
  (∀ x, x ∈ l → f x = Ok (g x)) → traverse f l = Ok (g <$> l).
Proof.
  induction l as [|x l IH]; intros H; simpl; [done|].
  rewrite H by left. simpl. rewrite IH; [done|].
  intros y Hy. apply H. by right.
Qed.

(** *** Orders *)

Lemma string_leb_total a b : string_leb a b = true ∨ string_leb b a = true.
Proof.
  unfold string_leb.
  destruct (String_as_OT.compare_spec a b) as [->|Hlt|Hlt]; auto.
  right. destruct (String_as_OT.compare_spec b a) as [->|Hlt'|Hlt']; auto.
  exfalso. eapply (irreflexivity String_as_OT.lt a). by etransitivity.
Qed.

Lemma string_leb_trans a b c :
  string_leb a b = true → string_leb b c = true → string_leb a c = true.
Proof.
  unfold string_leb.
  destruct (String_as_OT.compare_spec a b) as [->|Hab|Hab]; [done| |done].
  destruct (String_as_OT.compare_spec b c) as [->|Hbc|Hbc]; [| |done].
  - intros _ _. destruct (String_as_OT.compare_spec a c) as [|?|Hca]; auto.
    exfalso. eapply (irreflexivity String_as_OT.lt a). by etransitivity.
  - intros _ _. destruct (String_as_OT.compare_spec a c) as [|?|Hca]; auto.
    exfalso. eapply (irreflexivity String_as_OT.lt a).
    etransitivity; [exact Hab|]. by etransitivity.
Qed.

Lemma value_leb_total x y : value_leb x y = true ∨ value_leb y x = true.
Proof.
  destruct x, y; simpl; try (by left); try (by right).
  - apply string_leb_total.
  - destruct (Qc_le_total q q0); [left|right]; by apply bool_decide_eq_true.
  - destruct (Nat.le_ge_cases code code0); [left|right];
      by apply bool_decide_eq_true.
Qed.

Lemma value_leb_trans x y z :
  value_leb x y = true → value_leb y z = true → value_leb x z = true.
Proof.
  destruct x, y, z; simpl; try done;
    rewrite ?bool_decide_eq_true; try lia.
  - apply string_leb_trans.
  - apply Qcle_trans.
Qed.

Lemma cell_leb_total asc x y :
  cell_leb asc x y = true ∨ cell_leb asc y x = true.
Proof.
  unfold cell_leb.
  destruct (isna x), (isna y), asc; auto using value_leb_total.
Qed.

Lemma cell_leb_trans asc x y z :
  cell_leb asc x y = true → cell_leb asc y z = true →
  cell_leb asc x z = true.
Proof.
  unfold cell_leb.
  destruct (isna x), (isna y), (isna z), asc; try done;
    eauto using value_leb_trans.
Qed.

Lemma key_leb_total asc k1 k2 :
  key_leb asc k1 k2 = true ∨ key_leb asc k2 k1 = true.
Proof.
  revert k2; induction k1 as [|x k1 IH]; intros [|y k2]; simpl; auto.
  destruct (cell_leb_total asc x y) as [H|H]; rewrite H.
  - destruct (cell_leb asc y x); auto.
  - destruct (cell_leb asc x y); auto.
Qed.

Lemma key_leb_trans asc k1 k2 k3 :
  length k1 = length k2 → length k2 = length k3 →
  key_leb asc k1 k2 = true → key_leb asc k2 k3 = true →
  key_leb asc k1 k3 = true.
Proof.
  revert k2 k3; induction k1 as [|x k1 IH]; intros [|y k2] [|z k3];
    simpl; try done.
  intros [= Hl1] [= Hl2].
  destruct (cell_leb asc x y) eqn:Hxy; [|done].
  destruct (cell_leb asc y z) eqn:Hyz;
    [|by destruct (cell_leb asc y x)].
  rewrite (cell_leb_trans _ _ _ _ Hxy Hyz).
  destruct (cell_leb asc y x) eqn:Hyx, (cell_leb asc z y) eqn:Hzy;
    destruct (cell_leb asc z x) eqn:Hzx; try done; eauto;
    intros; exfalso;
    repeat match goal with
    | Ha : cell_leb asc ?a ?b = true, Hb : cell_leb asc ?b ?c = true,
      Hc : cell_leb asc ?a ?c = false |- _ =>
        rewrite (cell_leb_trans _ _ _ _ Ha Hb) in Hc; discriminate Hc
    end.
Qed.

(** *** Stable sorting *)

Section stable_sort.
Context {A : Type} (leb : A → A → bool).

Lemma insert_sorted_Permutation x l : insert_sorted leb x l ≡ₚ x :: l.
Proof.
  induction l as [|y l IH]; simpl; [done|].
  destruct (leb x y); [done|]. rewrite IH. apply Permutation_swap.
Qed.

Lemma stable_sort_Permutation l : stable_sort leb l ≡ₚ l.
Proof.
  induction l as [|x l IH]; simpl; [done|].
  by rewrite insert_sorted_Permutation, IH.
Qed.

Lemma stable_sort_length l : length (stable_sort leb l) = length l.
Proof. by rewrite stable_sort_Permutation. Qed.

(** The result is ordered by [leb], and elements that [leb] does not
    tell apart stay in the order [before] they had in the argument. *)
Context (before : A → A → Prop).
Context (elems : A → Prop).
Hypothesis leb_total : ∀ a b, leb a b = true ∨ leb b a = true.
Hypothesis leb_trans : ∀ a b c, elems a → elems b → elems c →
  leb a b = true → leb b c = true → leb a c = true.

Lemma insert_sorted_stable x l :
  elems x → Forall elems l →
  Forall (before x) l →
  StronglySorted (sorted_stable leb before) l →
  StronglySorted (sorted_stable leb before) (insert_sorted leb x l).
Proof.
  intros Hx Hel Hbefore Hsorted.
  induction l as [|y l IH]; simpl.
  - repeat constructor.
  - apply Forall_cons in Hbefore as [Hxy Hbefore].
    apply Forall_cons in Hel as [Hy Hel].
    apply StronglySorted_cons in Hsorted as [Hyl Hsorted].
    destruct (leb x y) eqn:Hleb.
    + apply StronglySorted_cons. split; [|by apply StronglySorted_cons].
      constructor; [by split|].
      rewrite Forall_forall in Hyl, Hbefore, Hel |- *.
      intros z Hz. split; [|intros _; by apply Hbefore].
      eapply (leb_trans x y z); auto. by apply Hyl.
    + apply StronglySorted_cons. split; [|by apply IH].
      rewrite insert_sorted_Permutation. constructor; [|done].
      split; [|by rewrite Hleb].
      by destruct (leb_total x y) as [H|H]; [rewrite H in Hleb|].
Qed.

Lemma stable_sort_stable l :
  Forall elems l →
  StronglySorted before l →
  StronglySorted (sorted_stable leb before) (stable_sort leb l).
Proof.
  induction l as [|x l IH]; intros Hel Hl; simpl; [constructor|].
  apply Forall_cons in Hel as [Hx Hel].
  apply StronglySorted_cons in Hl as [Hxl Hl].
  apply insert_sorted_stable; auto.
  - by rewrite stable_sort_Permutation.
  - by rewrite stable_sort_Permutation.
Qed.
End stable_sort.

(** *** pandas operations *)

Lemma getitem_Ok df c s :
  getitem df c = Ok s → c ∈ columns df ∧ s = (λ r, r !!! c) <$> rows df.
Proof. unfold getitem. intros H. by inv_ok. Qed.

Lemma select_fmap {A} (g : A → bool) (l : list A) :
  select (g <$> l) l = filter (λ x, g x = true) l.
Proof.
  induction l as [|x l IH]; [done|].
  rewrite fmap_cons. cbn [select]. rewrite filter_cons, IH.
  destruct (g x); by case_decide.
Qed.

Lemma select_sublist {A} (mask : list bool) (l : list A) :
  select mask l ⊆ l.
Proof.
  revert mask; induction l as [|x l IH]; intros [|[] mask]; simpl;
    try specialize (IH mask); set_solver.
Qed.

(** Filtering by a comparison of a column with a value. *)
Lemma body_getitem_mask_eq df c v :
  body (getitem_mask df (series_eq ((λ r, r !!! c) <$> rows df) v))
  = filter (λ e, eqb (e.2 !!! c) v = true) (body df).
Proof.
  unfold getitem_mask, series_eq, rows; simpl.
  rewrite <-!list_fmap_compose.
  apply (select_fmap (λ e, eqb (e.2 !!! c) v)).
Qed.

Lemma series_gt_Ok s y mask :
  series_gt s y = Ok mask → Forall2 (λ c b, gt c y = Ok b) s mask.
Proof. apply traverse_Ok. Qed.

Lemma select_Forall2 {A} (P : A → bool → Prop) (l : list A) mask x :
  Forall2 P l mask → x ∈ select mask l → x ∈ l ∧ P x true.
Proof.
  induction 1 as [|y b l mask Hy _ IH]; simpl; [set_solver|].
  destruct b.
  - intros [->|Hx]%elem_of_cons; [split; [left|done]|].
    destruct (IH Hx). split; [by right|done].
  - intros Hx. destruct (IH Hx). split; [by right|done].
Qed.

Lemma select_Forall2_elem {A} (P : A → bool → Prop) (l : list A) mask x :
  Forall2 P l mask → x ∈ l → (∀ b, P x b → b = true) → x ∈ select mask l.
Proof.
  induction 1 as [|y b l mask Hy _ IH]; simpl; [set_solver|].
  intros [->|Hx]%elem_of_cons Hb.
  - rewrite (Hb _ Hy). left.
  - destruct b; [right|]; auto.
Qed.

Lemma sort_values_Ok df by_ asc s :
  sort_values df by_ asc = Ok s →
  by_ ⊆ columns df
  ∧ columns s = columns df
  ∧ index_names s = index_names df
  ∧ body s = stable_sort
               (λ a b, key_leb asc (row_key by_ a.2) (row_key by_ b.2))
               (body df).
Proof.
  unfold sort_values. intros H. inv_ok. split; [|done].
  apply traverse_Ok in Ha. intros c Hc.
  apply list_elem_of_lookup in Hc as [i Hi].
  destruct (Forall2_lookup_l _ _ _ _ _ Ha Hi) as (s & _ & Hs).
  by apply getitem_Ok in Hs as [? _].
Qed.

Lemma setitem_Ok df c values s :
  setitem df c values = Ok s →
  length values = length (body df)
  ∧ columns s = (if bool_decide (c ∈ columns df) then columns df
                 else columns df ++ [c])
  ∧ index_names s = index_names df
  ∧ body s = zip_with (λ e v, (e.1, <[c:=v]> e.2)) (body df) values.
Proof. unfold setitem. intros H. by inv_ok. Qed.

Lemma reset_index_Ok df s :
  reset_index df = Ok s →
  NoDup (level_names df)
  ∧ Forall (λ n, n ∉ columns df) (level_names df)
  ∧ columns s = level_names df ++ columns df
  ∧ index_names s = [None]
  ∧ body s = imap (λ i e, (RangeIndex i,
                           list_to_map (zip (level_names df) e.1) ∪ e.2))
                  (body df).
Proof.
  unfold reset_index. intros H. inv_ok.
  by match goal with H : _ ∧ _ |- _ => destruct H end.
Qed.

Lemma rows_imap {A} (f : nat → A → list cell) (g : A → gmap string cell)
    (l : list A) :
  (imap (λ i e, (f i e, g e)) l).*2 = g <$> l.
Proof. rewrite fmap_imap. by rewrite <-imap_const. Qed.

Lemma with_program_categories_Ok df df' :
  with_program_categories df = Ok df' →
  "program_category" ∈ columns df
  ∧ columns df' = columns df
  ∧ index_names df' = index_names df
  ∧ body df' = (λ e, (e.1, recode e.2)) <$> body df.
Proof.
  unfold with_program_categories. intros H. inv_ok.
  apply getitem_Ok in Ha as [Hc ->].
  apply setitem_Ok in H as (_ & Hcols & Hnames & Hbody).
  rewrite bool_decide_eq_true_2 in Hcols by done.
  split_and!; try done. rewrite Hbody. unfold Categorical, rows.
  rewrite <-!list_fmap_compose, zip_with_fmap_r, zip_with_diag.
  done.
Qed.

(** The table [sort_by_program_order] returns: the rows of its argument,
    recoded, sorted by program and channel, each with the old index in
    front. *)
Lemma program_sorted_Ok df s :
  program_sorted df = Ok s →
  "program_category" ∈ columns df
  ∧ "default_channel" ∈ columns df
  ∧ NoDup (level_names df)
  ∧ Forall (λ n, n ∉ columns df) (level_names df)
  ∧ columns s = level_names df ++ columns df
  ∧ index_names s = [None]
  ∧ rows s = (λ e, list_to_map (zip (level_names df) e.1) ∪ e.2)
               <$> stable_sort program_leb
                     ((λ e, (e.1, recode e.2)) <$> body df).
Proof.
  unfold program_sorted. intros H. inv_ok.
  apply with_program_categories_Ok in Ha as (Hpc & Hcols & Hnames & Hbody).
  apply sort_values_Ok in Ha0 as (Hby & Hcols' & Hnames' & Hbody').
  apply reset_index_Ok in H as (Hnd & Hfresh & Hcols'' & Hnames'' & Hbody'').
  assert (level_names a0 = level_names df) as Hlv
    by (unfold level_names; by rewrite Hnames', Hnames, Hcols', Hcols).
  rewrite Hlv, Hcols', Hcols in *.
  split_and!; try done.
  - apply Hby. set_solver.
  - unfold rows. rewrite Hbody'', rows_imap, Hbody', Hbody. done.
Qed.

Lemma eqb_categorize cats v p :
  eqb (categorize cats v) (Str p) = true ↔ cell_text v = Some p ∧ p ∈ cats.
Proof.
  unfold categorize. destruct (cell_text v) as [s|] eqn:Hv; simpl.
  - destruct (list_find (eq s) cats) as [[i x]|] eqn:Hfind; simpl.
    + apply list_find_Some in Hfind as (Hi & <- & _). rewrite Hi.
      rewrite bool_decide_eq_true. split.
      * intros <-. split; [done|]. by eapply list_elem_of_lookup_2.
      * by intros [[= ->] _].
    + split; [done|]. intros [[= ->] Hp].
      destruct (list_find_elem_of (eq p) cats p Hp eq_refl) as [? Hsome].
      by rewrite Hsome in Hfind.
  - split; [done|]. by intros [? _].
Qed.

Lemma categorize_cases cats v :
  categorize cats v = NaN
  ∨ ∃ i p, categorize cats v = Cat cats i ∧ cats !! i = Some p
           ∧ cell_text v = Some p.
Proof.
  unfold categorize. destruct (cell_text v) as [s|]; simpl; [|by left].
  destruct (list_find (eq s) cats) as [[i x]|] eqn:Hfind; simpl; [|by left].
  apply list_find_Some in Hfind as (Hi & <- & _). right. eauto.
Qed.

(** The cells of a column survive [reset_index]. *)
Lemma lookup_with_index (names : list string) (label : list cell)
    (r : gmap string cell) c :
  c ∉ names → (list_to_map (zip names label) ∪ r) !! c = r !! c.
Proof.
  intros Hc. apply lookup_union_r, not_elem_of_list_to_map_1.
  intros Hin. apply Hc.
  apply list_elem_of_fmap in Hin as ([n x] & -> & Hin).
  by apply elem_of_zip_l in Hin.
Qed.

Lemma gt_true x y : gt x y = Ok true ↔ ∃ q, x = Num q ∧ (y < q)%Qc.
Proof.
  destruct x as [|q| |]; simpl; try (split; [done|by intros (? & ? & ?)]).
  split.
  - intros [= Hq%bool_decide_eq_true]. eauto.
  - intros (? & [= <-] & Hq). by rewrite bool_decide_eq_true_2.
Qed.

Lemma has_traffic_gt r :
  has_traffic r ↔ gt (r !!! "Session_mom") (Qc_of_Z 20) = Ok true.
Proof.
  rewrite gt_true. unfold has_traffic.
  rewrite lookup_total_alt.
  destruct (r !! "Session_mom") as [[]|]; simpl; naive_solver.
Qed.

Lemma filter_ext_in {A} (P Q : A → Prop) `{∀ x, Decision (P x)}
    `{∀ x, Decision (Q x)} (l : list A) :
  (∀ x, x ∈ l → P x ↔ Q x) → filter P l = filter Q l.
Proof.
  induction l as [|x l IH]; intros HPQ; [done|].
  rewrite !filter_cons, IH by (intros; apply HPQ; by right).
  destruct (decide (P x)) as [HP|HP], (decide (Q x)) as [HQ|HQ]; try done.
  - destruct HQ. apply HPQ; [left|done].
  - destruct HP. apply HPQ; [left|done].
Qed.

(** *** Filling and merging *)

Lemma fill_row_lookup cols value r c :
  fill_row cols value r !! c = r !! c
  ∨ (r !!! c = NaN ∧ c ∈ cols
     ∧ ∃ v, (c, v) ∈ value ∧ fill_row cols value r !! c = Some v).
Proof.
  induction value as [|[c' v'] value IH]; simpl; [by left|].
  case_bool_decide as Hfill; simpl in *.
  - destruct (decide (c = c')) as [->|Hne].
    + rewrite lookup_insert_eq. destruct Hfill as [Hc Hnan].
      destruct IH as [IH|(Hr & _ & v & Hv & IH)].
      * right. split_and!; [|done|exists v'; split; [left|done]].
        by rewrite lookup_total_alt, <-IH, <-lookup_total_alt.
      * right. split_and!; [done|done|]. exists v'. split; [left|done].
    + rewrite lookup_insert_ne by done.
      destruct IH as [IH|(Hr & Hc & v & Hv & IH)]; [by left|].
      right. split_and!; [done|done|]. exists v. split; [by right|done].
  - destruct IH as [IH|(Hr & Hc & v & Hv & IH)]; [by left|].
    right. split_and!; [done|done|]. exists v. split; [by right|done].
Qed.

(** After [fillna], a designated column has no missing cell. *)
Lemma fill_row_filled cols value r c :
  c ∈ cols → c ∈ value.*1 → Forall (λ cv, cv.2 ≠ NaN) value →
  ∃ v, fill_row cols value r !! c = Some v ∧ v ≠ NaN.
Proof.
  intros Hc Hin Hvalue.
  induction value as [|[c' v'] value IH]; simpl in *;
    [by apply not_elem_of_nil in Hin|].
  apply Forall_cons in Hvalue as [Hv' Hvalue]. simpl in Hv'.
  destruct (decide (c = c')) as [->|Hne].
  - case_bool_decide as Hfill.
    + rewrite lookup_insert_eq. eauto.
    + apply not_and_l in Hfill as [Hfill|Hfill]; [done|].
      rewrite lookup_total_alt in Hfill.
      destruct (fill_row cols value r !! c') as [v|]; simpl in *; [|done].
      eauto.
  - apply elem_of_cons in Hin as [?|Hin]; [done|].
    destruct (IH Hin Hvalue) as (v & Hv & Hnan).
    case_bool_decide; [rewrite lookup_insert_ne by done|]; eauto.
Qed.

Lemma list_to_map_graph (f : string → cell) (l : list string)
    (rest : list (string * cell)) c :
  c ∈ l →
  (list_to_map (((λ c, (c, f c)) <$> l) ++ rest) : gmap string cell) !! c
  = Some (f c).
Proof.
  induction l as [|c' l IH]; [by intros ?%not_elem_of_nil|].
  intros Hc. simpl. destruct (decide (c = c')) as [->|Hne].
  - by rewrite lookup_insert_eq.
  - rewrite lookup_insert_ne by done. apply IH.
    by apply elem_of_cons in Hc as [?|?].
Qed.

Lemma list_to_map_constant (l : list (string * cell)) c v :
  Forall (λ cv, cv.2 = v) l → c ∈ l.*1 →
  (list_to_map l : gmap string cell) !! c = Some v.
Proof.
  induction l as [|[c' v'] l IH]; simpl; [by intros _ ?%not_elem_of_nil|].
  intros [Hv Hl]%Forall_cons Hc. simpl in Hv. subst v'.
  destruct (decide (c = c')) as [->|Hne].
  - by rewrite lookup_insert_eq.
  - rewrite lookup_insert_ne by done. apply IH; [done|].
    by apply elem_of_cons in Hc as [?|?].
Qed.

Lemma list_to_map_skip (l rest : list (string * cell)) c :
  c ∉ l.*1 →
  (list_to_map (l ++ rest) : gmap string cell) !! c
  = (list_to_map rest : gmap string cell) !! c.
Proof.
  intros Hc. rewrite list_to_map_app.
  by apply lookup_union_r, not_elem_of_list_to_map_1.
Qed.

Lemma merge_Ok left right on suffixes m :
  merge left right on suffixes = Ok m →
  on ⊆ columns left ∧ on ⊆ columns right
  ∧ columns m
    = (suffixed on (columns right) suffixes.1 <$> columns left)
      ++ (suffixed on (columns left) suffixes.2
            <$> filter (λ c, c ∉ on) (columns right))
  ∧ NoDup (columns m)
  ∧ index_names m = [None]
  ∧ body m = imap (λ p ij, (RangeIndex p,
                            merged_row left right on suffixes ij))
               (outer_join_indexers (row_key on <$> rows left)
                                    (row_key on <$> rows right)).
Proof.
  unfold merge. intros H. inv_ok.
  match goal with H : _ ∧ _ |- _ => destruct H end.
  by split_and!.
Qed.

(** The key cells of a merged row come from the left row when there is
    one, from the right row otherwise. *)
Lemma merged_row_key left right on suffixes ij c :
  c ∈ on →
  merged_row left right on suffixes ij !! c
  = Some (cell_of (match ij.1 ≫= (λ i, rows left !! i) with
                   | Some r => Some r
                   | None => ij.2 ≫= (λ j, rows right !! j)
                   end) c).
Proof.
  intros Hc. unfold merged_row.
  rewrite (list_to_map_graph
    (cell_of (match ij.1 ≫= (λ i, rows left !! i) with
              | Some _ => ij.1 ≫= (λ i, rows left !! i)
              | None => ij.2 ≫= (λ j, rows right !! j)
              end))) by done.
  by destruct (ij.1 ≫= _).
Qed.

(** A row that only the right table has is missing in every column that
    comes from the left table. *)
Lemma merged_row_right_only left right on suffixes j c :
  c ∉ on → c ∈ columns left →
  merged_row left right on suffixes (None, Some j)
    !! suffixed on (columns right) suffixes.1 c = Some NaN ∨
  suffixed on (columns right) suffixes.1 c ∈ on.
Proof.
  intros Hon Hc.
  destruct (decide (suffixed on (columns right) suffixes.1 c ∈ on))
    as [|Hname]; [by right|left].
  unfold merged_row. simpl. rewrite list_to_map_skip.
  - rewrite list_to_map_app. apply lookup_union_Some_l.
    apply list_to_map_constant.
    + by apply Forall_fmap, Forall_forall.
    + rewrite <-list_fmap_compose. apply list_elem_of_fmap.
      exists c. split; [done|]. by apply list_elem_of_filter.
  - by rewrite <-list_fmap_compose, list_fmap_id.
Qed.

(** A merged row without a left row is missing in every column that comes
    from the left table. *)
Lemma merged_row_no_left left right on suffixes ij c :
  ij.1 ≫= (λ i, rows left !! i) = None →
  c ∉ on → c ∈ columns left →
  suffixed on (columns right) suffixes.1 c ∉ on →
  merged_row left right on suffixes ij
    !! suffixed on (columns right) suffixes.1 c = Some NaN.
Proof.
  intros Hleft Hon Hc Hname.
  unfold merged_row. rewrite Hleft. rewrite list_to_map_skip.
  - rewrite list_to_map_app. apply lookup_union_Some_l.
    apply list_to_map_constant.
    + by apply Forall_fmap, Forall_forall.
    + rewrite <-list_fmap_compose. apply list_elem_of_fmap.
      exists c. split; [done|]. by apply list_elem_of_filter.
  - by rewrite <-list_fmap_compose, list_fmap_id.
Qed.

Lemma cell_text_categorize cats v p :
  cell_text (categorize cats v) = Some p → cell_text v = Some p.
Proof.
  destruct (categorize_cases cats v) as [->|(i & q & -> & Hi & Hv)];
    [done|].
  simpl. congruence.
Qed.

(** *** Rounding to the nearest [float] *)

Section binary64.
Local Open Scope Z_scope.

Lemma round_half_even_nonneg n d : 0 ≤ n → 0 ≤ round_half_even n d.
Proof.
  intros Hn. unfold round_half_even.
  pose proof (Z.div_pos n (Z.pos d) Hn ltac:(lia)).
  destruct (2 * (n `mod` Z.pos d) ?= Z.pos d); [destruct (Z.even _)|..]; lia.
Qed.

(** The rounding is to a nearest integer. *)
Lemma round_half_even_nearest n d j :
  Z.abs (round_half_even n d * Z.pos d - n) ≤ Z.abs (j * Z.pos d - n).
Proof.
  unfold round_half_even.
  pose proof (Z.div_mod n (Z.pos d) ltac:(lia)) as Hn.
  pose proof (Z.mod_pos_bound n (Z.pos d) ltac:(lia)) as Hr.
  set (a := n / Z.pos d) in *. set (r := n `mod` Z.pos d) in *.
  destruct (Z.compare_spec (2 * r) (Z.pos d)) as [He|Hl|Hg];
    [destruct (Z.even a)|..];
    destruct (Z_le_gt_dec j a); nia.
Qed.

(** The same, on rationals. *)
Lemma round_half_even_nearest_Q n d j :
  (Qabs (inject_Z (round_half_even n d) - (n # d))
   <= Qabs (inject_Z j - (n # d)))%Q.
Proof.
  pose proof (round_half_even_nearest n d j) as H.
  set (m := round_half_even n d) in *.
  assert (∀ k, inject_Z k - (n # d) == (k * Z.pos d - n) # d)%Q as Heq.
  { intros k. unfold Qeq, Qminus, Qplus, Qopp, inject_Z. simpl. lia. }
  rewrite !Heq. unfold Qabs, Qle. simpl. nia.
Qed.


(** Powers of two, of any exponent. *)
Lemma pow2_pos z : (0 < 2 ^ z)%Q.
Proof. by apply Qpower_0_lt. Qed.

Lemma pow2_add a b : (2 ^ (a + b) == 2 ^ a * 2 ^ b)%Q.
Proof. by apply Qpower_plus. Qed.

Lemma pow2_le a b : a ≤ b → (2 ^ a <= 2 ^ b)%Q.
Proof. intros. by apply Qpower_le_compat_l. Qed.

Lemma pow2_lt a b : a < b → (2 ^ a < 2 ^ b)%Q.
Proof. intros. by apply Qpower_lt_compat_l. Qed.

Lemma pow2_Z k : 0 ≤ k → (inject_Z (2 ^ k) == 2 ^ k)%Q.
Proof. intros. by rewrite Zpower_Qpower. Qed.

Lemma pow2_max k :
  (inject_Z (2 ^ Z.max k 0) == 2 ^ k * inject_Z (2 ^ Z.max (- k) 0))%Q.
Proof.
  destruct (Z_le_gt_dec 0 k).
  - rewrite (Z.max_l k), (Z.max_r (- k)) by lia.
    rewrite (pow2_Z k) by done. change (inject_Z (2 ^ 0)) with 1%Q.
    generalize (2 ^ k)%Q. intros p. lra.
  - rewrite (Z.max_r k), (Z.max_l (- k)) by lia.
    rewrite (pow2_Z (- k)) by lia. pose proof (pow2_add k (- k)) as Hadd.
    replace (k + - k) with 0 in Hadd by lia.
    change (inject_Z (2 ^ 0)) with 1%Q. change (2 ^ 0)%Q with 1%Q in Hadd.
    exact Hadd.
Qed.

Lemma binary_Q m e : (this (binary m e) == inject_Z m * 2 ^ e)%Q.
Proof.
  unfold binary. case_bool_decide as He; simpl.
  - by rewrite inject_Z_mult, pow2_Z.
  - rewrite Qred_correct, Qmake_Qdiv.
    rewrite Z2Pos.id by (apply Z.pow_pos_nonneg; lia).
    rewrite pow2_Z by lia.
    pose proof (pow2_pos (- e)). pose proof (pow2_add e (- e)) as Hadd.
    replace (e + - e) with 0 in Hadd by lia.
    change (2 ^ 0)%Q with 1%Q in Hadd.
    revert H Hadd. generalize (2 ^ e)%Q (2 ^ (- e))%Q (inject_Z m).
    intros p p' x Hp Hadd. unfold Qdiv.
    assert (/ p' == p)%Q as ->; [|done].
    field_simplify_eq; [|lra].
    rewrite Hadd. ring.
Qed.


Lemma inject_Z_pos_lt (d : positive) : (0 < inject_Z (Z.pos d))%Q.
Proof. change 0%Q with (inject_Z 0). rewrite <-Zlt_Qlt. lia. Qed.

(** [ilog2] is the integer part of the binary logarithm. *)
Lemma ilog2_Q a d :
  0 < a →
  (2 ^ ilog2 a d <= a # d)%Q ∧ (a # d < 2 ^ (ilog2 a d + 1))%Q.
Proof.
  intros Ha. unfold ilog2.
  set (la := Z.log2 a). set (ld := Z.log2 (Z.pos d)). set (k := la - ld).
  pose proof (Z.log2_nonneg a). pose proof (Z.log2_nonneg (Z.pos d)).
  destruct (Z.log2_spec a Ha) as [Ha1 Ha2].
  destruct (Z.log2_spec (Z.pos d) ltac:(lia)) as [Hd1 Hd2].
  fold la in Ha1, Ha2. fold ld in Hd1, Hd2.
  rewrite Zle_Qle in Ha1, Hd1. rewrite Zlt_Qlt in Ha2, Hd2.
  rewrite !pow2_Z in * by lia.
  pose proof (inject_Z_pos_lt d) as HD.
  pose proof (pow2_add k ld) as Hla. replace (k + ld) with la in Hla by lia.
  pose proof (pow2_add la 1) as Hla1. pose proof (pow2_add ld 1) as Hld1.
  pose proof (pow2_add k 1) as Hk1.
  pose proof (pow2_add (k - 1) 1) as Hk0.
  replace (k - 1 + 1) with k in Hk0 by lia.
  change (2 ^ 1)%Q with 2%Q in *.
  replace (Z.succ la) with (la + 1) in * by lia.
  replace (Z.succ ld) with (ld + 1) in * by lia.
  pose proof (pow2_pos k). pose proof (pow2_pos ld).
  pose proof (pow2_max k) as Hmax.
  assert (0 < inject_Z (2 ^ Z.max (- k) 0))%Q as HJ.
  { change 0%Q with (inject_Z 0). rewrite <-Zlt_Qlt.
    apply Z.pow_pos_nonneg; lia. }
  rewrite (Qmake_Qdiv a d).
  set (A := inject_Z a) in *. set (D := inject_Z (Z.pos d)) in *.
  set (J := inject_Z (2 ^ Z.max (- k) 0)) in *.
  set (pk := (2 ^ k)%Q) in *. set (pk1 := (2 ^ (k + 1))%Q) in *.
  set (pk0 := (2 ^ (k - 1))%Q) in *.
  set (pla := (2 ^ la)%Q) in *. set (pla1 := (2 ^ (la + 1))%Q) in *.
  set (pld := (2 ^ ld)%Q) in *. set (pld1 := (2 ^ (ld + 1))%Q) in *.
  case_bool_decide as Htest.
  - rewrite Zle_Qle, !inject_Z_mult, Hmax in Htest.
    fold D A J pk in Htest. fold pk pk1.
    assert (D * pk <= A)%Q by (clearbody D A J pk; nra).
    clearbody D A J pk pk1 pk0 pla pla1 pld pld1.
    split.
    + apply Qle_shift_div_l; [done|]. nra.
    + apply Qlt_shift_div_r; [done|]. nra.
  - rewrite Zle_Qle, !inject_Z_mult, Hmax in Htest.
    fold D A J pk in Htest. replace (k - 1 + 1) with k by lia. fold pk pk0.
    assert (A < D * pk)%Q.
    { apply Qnot_le_lt. intros Hle. apply Htest.
      clearbody D A J pk. nra. }
    clearbody D A J pk pk1 pk0 pla pla1 pld pld1.
    split.
    + apply Qle_shift_div_l; [done|]. nra.
    + apply Qlt_shift_div_r; [done|]. nra.
Qed.

End binary64.

Section binary64_core.
Local Open Scope Z_scope.

Lemma Qabs_scale u v p :
  (0 < p)%Q → (Qabs (u * p - v * p) == Qabs (u - v) * p)%Q.
Proof.
  intros Hp.
  assert (u * p - v * p == (u - v) * p)%Q as -> by ring.
  rewrite Qabs_Qmult, (Qabs_pos p) by lra. done.
Qed.

Lemma Qabs_cases t :
  (0 <= t ∧ Qabs t == t)%Q ∨ (t <= 0 ∧ Qabs t == - t)%Q.
Proof.
  destruct (Qlt_le_dec t 0); [right|left]; (split; [lra|]).
  - apply Qabs_neg. lra.
  - by apply Qabs_pos.
Qed.

(** The significand and the exponent that [binary64] computes for the
    positive number [a # d]. *)
Variables (a : Z) (d : positive).
Hypothesis Ha : 0 < a.

Let e : Z := Z.max (ilog2 a d - 52) (-1074).
Let m : Z := round_half_even (a * 2 ^ Z.max (- e) 0)
                             (d * Z.to_pos (2 ^ Z.max e 0)).
Let y : Q := ((a # d) * 2 ^ (- e))%Q.

Lemma scaled_Q :
  (a * 2 ^ Z.max (- e) 0 # d * Z.to_pos (2 ^ Z.max e 0) == y)%Q.
Proof.
  unfold y. pose proof (pow2_max (- e)) as Hmax.
  rewrite Z.opp_involutive in Hmax. set (pe := (2 ^ (- e))%Q) in *.
  rewrite !Qmake_Qdiv, Pos2Z.inj_mul, !inject_Z_mult.
  rewrite Z2Pos.id by (apply Z.pow_pos_nonneg; lia).
  rewrite Hmax.
  assert (0 < inject_Z (2 ^ Z.max e 0))%Q as HJ.
  { change 0%Q with (inject_Z 0). rewrite <-Zlt_Qlt.
    apply Z.pow_pos_nonneg; lia. }
  pose proof (inject_Z_pos_lt d).
  clearbody pe. generalize dependent (inject_Z (2 ^ Z.max e 0)).
  generalize (inject_Z a) (inject_Z (Z.pos d)) H.
  intros. field. split; lra.
Qed.

Lemma significand_nearest j :
  (Qabs (inject_Z m - y) <= Qabs (inject_Z j - y))%Q.
Proof. rewrite <-scaled_Q. apply round_half_even_nearest_Q. Qed.


Lemma scaled_bounds :
  (0 < y)%Q ∧ (y < 9007199254740992)%Q
  ∧ (-1074 < e → (4503599627370496 <= y)%Q).
Proof.
  destruct (ilog2_Q a d Ha) as [Hlo Hhi]. unfold y.
  pose proof (pow2_pos (- e)) as Hpe.
  pose proof (pow2_add (ilog2 a d + 1) (- e)) as Hup.
  pose proof (pow2_le (ilog2 a d + 1 + - e) 53 ltac:(lia)) as H53.
  change (2 ^ 53)%Q with 9007199254740992%Q in H53.
  assert (0 < a # d)%Q as Hx by (unfold Qlt; simpl; lia).
  split_and!.
  - revert Hpe Hx. generalize (a # d) (2 ^ (- e))%Q. intros. nra.
  - revert Hpe Hx Hhi Hup H53.
    generalize (a # d) (2 ^ (- e))%Q (2 ^ (ilog2 a d + 1))%Q
               (2 ^ (ilog2 a d + 1 + - e))%Q.
    intros. nra.
  - intros He.
    pose proof (pow2_add (ilog2 a d) (- e)) as Hdown.
    replace (ilog2 a d + - e) with 52 in Hdown by lia.
    change (2 ^ 52)%Q with 4503599627370496%Q in Hdown.
    revert Hpe Hx Hlo Hdown.
    generalize (a # d) (2 ^ (- e))%Q (2 ^ ilog2 a d)%Q.
    intros. nra.
Qed.


Lemma significand_bounds :
  0 ≤ m ≤ 2 ^ 53 ∧ (-1074 < e → 2 ^ 52 ≤ m).
Proof.
  destruct scaled_bounds as (Hy0 & Hy53 & Hy52).
  split_and!.
  - apply round_half_even_nonneg.
    apply Z.mul_nonneg_nonneg; [lia|]. apply Z.pow_nonneg. lia.
  - apply Z.le_ngt. intros Hm.
    assert (2 ^ 53 + 1 ≤ m) as Hm' by lia. rewrite Zle_Qle in Hm'.
    change (inject_Z (2 ^ 53 + 1)) with 9007199254740993%Q in Hm'.
    pose proof (significand_nearest (2 ^ 53)) as Hnear.
    change (inject_Z (2 ^ 53)) with 9007199254740992%Q in Hnear.
    destruct (Qabs_cases (inject_Z m - y)) as [[? Hl]|[? Hl]];
      destruct (Qabs_cases (9007199254740992 - y)) as [[? Hr]|[? Hr]];
      rewrite Hl, Hr in Hnear; lra.
  - intros He. specialize (Hy52 He).
    apply Z.le_ngt. intros Hm.
    assert (m ≤ 2 ^ 52 - 1) as Hm' by lia. rewrite Zle_Qle in Hm'.
    change (inject_Z (2 ^ 52 - 1)) with 4503599627370495%Q in Hm'.
    pose proof (significand_nearest (2 ^ 52)) as Hnear.
    change (inject_Z (2 ^ 52)) with 4503599627370496%Q in Hnear.
    destruct (Qabs_cases (inject_Z m - y)) as [[? Hl]|[? Hl]];
      destruct (Qabs_cases (4503599627370496 - y)) as [[? Hr]|[? Hr]];
      rewrite Hl, Hr in Hnear; lra.
Qed.


(** No [float] is nearer to [a # d] than the one computed. *)
Lemma rounding_nearest m' e' :
  Z.abs m' < 2 ^ 53 → -1074 ≤ e' →
  (Qabs (inject_Z m * 2 ^ e - (a # d))
   <= Qabs (inject_Z m' * 2 ^ e' - (a # d)))%Q.
Proof.
  intros Hm' He'.
  pose proof (pow2_pos e) as Hpe.
  pose proof (pow2_add e (- e)) as Hinv.
  replace (e + - e) with 0 in Hinv by lia. change (2 ^ 0)%Q with 1%Q in Hinv.
  pose proof (pow2_add (e' - e) e) as He.
  replace (e' - e + e) with e' in He by lia.
  assert (a # d == y * 2 ^ e)%Q as ->.
  { unfold y. revert Hinv. generalize (a # d) (2 ^ e)%Q (2 ^ (- e))%Q.
    intros x p p' Hinv. rewrite <-Qmult_assoc, (Qmult_comm p' p), <-Hinv.
    ring. }
  assert (inject_Z m' * 2 ^ e' == inject_Z m' * 2 ^ (e' - e) * 2 ^ e)%Q
    as -> by (rewrite He; ring).
  rewrite !Qabs_scale by done.
  apply Qmult_le_compat_r; [|lra].
  destruct (Z_le_gt_dec e e') as [Hle|Hgt].
  - rewrite <-pow2_Z, <-inject_Z_mult by lia. apply significand_nearest.
  - destruct scaled_bounds as (_ & _ & Hy52).
    destruct significand_bounds as (_ & Hm52).
    pose proof (significand_nearest (2 ^ 52)) as Hnear.
    change (inject_Z (2 ^ 52)) with 4503599627370496%Q in Hnear.
    assert (-1074 < e) as Hnormal by lia.
    specialize (Hy52 Hnormal).
    pose proof (pow2_le (e' - e) (-1) ltac:(lia)) as Hu.
    change (2 ^ (-1))%Q with (1 # 2)%Q in Hu.
    pose proof (pow2_pos (e' - e)) as Hu0.
    assert (- 9007199254740991 <= inject_Z m' <= 9007199254740991)%Q
      as [Hlo Hhi].
    { change 9007199254740991%Q with (inject_Z (2 ^ 53 - 1)).
      change (-9007199254740991)%Q with (inject_Z (- (2 ^ 53 - 1))).
      rewrite <-!Zle_Qle. change (2 ^ 53) with 9007199254740992 in *. lia. }
    revert Hu Hu0 Hlo Hhi Hnear Hy52.
    generalize (2 ^ (e' - e))%Q (inject_Z m') (inject_Z m) y.
    intros u t M y0 Hu Hu0 Hlo Hhi Hnear Hy52.
    assert (t * u <= 9007199254740991 * (1 # 2))%Q by nra.
    destruct (Qabs_cases (M - y0)) as [[? Hl]|[? Hl]];
      destruct (Qabs_cases (4503599627370496 - y0)) as [[? Hr]|[? Hr]];
      destruct (Qabs_cases (t * u - y0)) as [[? Ht]|[? Ht]];
      rewrite Hl, Hr in Hnear; rewrite Hl, Ht; lra.
Qed.

End binary64_core.

Section binary64_nearest.
Local Open Scope Z_scope.

Lemma binary_carry m e : binary (2 * m) e = binary m (e + 1).
Proof.
  apply Qc_is_canon. rewrite !binary_Q, inject_Z_mult.
  pose proof (pow2_add e 1) as H. change (2 ^ 1)%Q with 2%Q in H.
  rewrite H. change (inject_Z 2) with 2%Q. ring.
Qed.

Lemma Qc_minus_Q (x y : Qc) : (this (x - y) == this x - this y)%Q.
Proof.
  unfold Qcminus, Qcplus, Qcopp, Q2Qc. simpl.
  by rewrite !Qred_correct.
Qed.

Lemma Qc_le_abs_diff (r r' q : Qc) :
  (Qabs (this r - this q) <= Qabs (this r' - this q))%Q →
  (Qcabs (r - q) ≤ Qcabs (r' - q))%Qc.
Proof.
  intros H. unfold Qcle.
  change (Qabs (this (r - q)) <= Qabs (this (r' - q)))%Q.
  by rewrite !Qc_minus_Q.
Qed.


Lemma is_float_opp r : is_float r → is_float (- r).
Proof.
  intros (m & e & -> & Hm & He). exists (- m), e. split_and!; [|lia..].
  apply Qc_is_canon.
  change (Qred (- this (binary m e)) == this (binary (- m) e))%Q.
  rewrite Qred_correct, !binary_Q, inject_Z_opp. ring.
Qed.

(** [binary64] rounds to a [float], and to a nearest one. *)
Lemma binary64_nearest q r : binary64 q = Some r → nearest_float q r.
Proof.
  unfold binary64. destruct q as [[n d] Hcanon]. cbn [this Qnum Qden].
  case_bool_decide as Hn.
  { intros [= <-]. subst n. split.
    - exists 0, 0. split_and!; [|done|lia..].
      apply Qc_is_canon. by unfold Qeq.
    - intros r' _. apply Qc_le_abs_diff.
      cbn [this]. assert ((0 # d) - (0 # d) == 0)%Q as -> by ring.
      apply Qabs_nonneg. }
  assert (0 < Z.abs n) as Ha by lia.
  pose proof (significand_bounds _ d Ha) as [[Hm0 Hm53] Hm52].
  pose proof (rounding_nearest _ d Ha) as Hnear.
  set (e := Z.max (ilog2 (Z.abs n) d - 52) (-1074)) in *.
  set (m := round_half_even _ _) in *.
  case_bool_decide as Hover; [done|].
  assert (e ≤ 971 ∧ (m = 2 ^ 53 → e < 971)) as [He Hcarry].
  { split.
    - apply Z.le_ngt. intros Hbig. apply Hover.
      etransitivity; [|apply Hm52; lia].
      apply Z.pow_le_mono_r; lia.
    - intros Hm. apply Z.lt_nge. intros Hbig. apply Hover. rewrite Hm.
      apply Z.pow_le_mono_r; lia. }
  assert (∀ s, s = 1 ∨ s = -1 → is_float (binary (s * m) e)) as Hfloat.
  { intros s Hs. destruct (decide (m = 2 ^ 53)) as [Hm|Hm].
    - exists (s * 2 ^ 52), (e + 1). split_and!.
      + rewrite <-binary_carry. f_equal. rewrite Hm.
        change (2 ^ 53) with (2 * 2 ^ 52). lia.
      + change (2 ^ 52) with 4503599627370496.
        change (2 ^ 53) with 9007199254740992. lia.
      + subst e. lia.
      + specialize (Hcarry Hm). lia.
    - exists (s * m), e. split_and!; [done| |subst e; lia|done].
      change (2 ^ 53) with 9007199254740992 in *. lia. }
  case_bool_decide as Hneg.
  - case_bool_decide as Hzero; [done|]. intros [= <-]. split.
    + replace (- m) with (-1 * m) by lia. apply Hfloat. by right.
    + intros r' (m' & e' & -> & Hm' & [He' _]). apply Qc_le_abs_diff.
      cbn [this]. rewrite !binary_Q.
      specialize (Hnear (- m') e' ltac:(lia) He').
      assert (n # d == - (Z.abs n # d))%Q as Hnd
        by (unfold Qeq; simpl; lia).
      rewrite Hnd, !inject_Z_opp. rewrite inject_Z_opp in Hnear.
      revert Hnear.
      generalize (Z.abs n # d) (inject_Z m) (inject_Z m') (2 ^ e)%Q
                 (2 ^ e')%Q.
      intros x M M' p p' Hnear.
      assert (- M * p - - x == - (M * p - x))%Q as -> by ring.
      assert (M' * p' - - x == - (- M' * p' - x))%Q as -> by ring.
      by rewrite !Qabs_opp.
  - intros [= <-]. split.
    + replace m with (1 * m) by lia. apply Hfloat. by left.
    + intros r' (m' & e' & -> & Hm' & [He' _]). apply Qc_le_abs_diff.
      cbn [this]. rewrite !binary_Q.
      specialize (Hnear m' e' Hm' He').
      by replace (Z.abs n) with n in Hnear by lia.
Qed.

End binary64_nearest.

(** *** The store *)

Lemma M_bind_Ok {A B} (m : M A) (k : A → M B) w b w' :
  (m ≫= k) w = (Ok b, w') →
  ∃ a w1, m w = (Ok a, w1) ∧ k a w1 = (Ok b, w').
Proof.
  unfold mbind, M_bind. destruct (m w) as [[a|e] w1]; [eauto|done].
Qed.

Lemma lift_Ok {A} (r : result A) w a w' :
  lift r w = (Ok a, w') → r = Ok a ∧ w' = w.
Proof. unfold lift. by intros [= -> ->]. Qed.

Lemma deref_Ok l w df w' :
  deref l w = (Ok df, w') → heap w !! l = Some df ∧ w' = w.
Proof. unfold deref. destruct (heap w !! l); by intros [= <- <-]. Qed.

Lemma new_Ok df w l w' :
  new df w = (Ok l, w') →
  (l ∉ dom (heap w)) ∧ heap w' = <[l:=df]> (heap w)
  ∧ files w' = files w ∧ stdout w' = stdout w.
Proof.
  unfold new. intros [= <- <-]. simpl. split; [|done]. apply is_fresh.
Qed.

Lemma assign_Ok l df w u w' :
  assign l df w = (Ok u, w') →
  heap w' = <[l:=df]> (heap w) ∧ files w' = files w ∧ stdout w' = stdout w.
Proof. unfold assign. by intros [= _ <-]. Qed.

Lemma write_run f c w : write f c w = (Ok tt, append f [c] w).
Proof. done. Qed.

Lemma append_nil f w : append f [] w = w.
Proof.
  destruct w as [h fs out]. unfold append; simpl. f_equal.
  apply alter_id. intros x _. apply app_nil_r.
Qed.

Lemma append_app f cs1 cs2 w :
  append f cs2 (append f cs1 w) = append f (cs1 ++ cs2) w.
Proof.
  unfold append; simpl. f_equal.
  rewrite alter_alter_eq. apply alter_ext. intros x _. simpl.
  by rewrite app_assoc.
Qed.

(** Splits a successful run into its steps. *)
Ltac inv_run :=
  repeat match goal with
  | u : unit |- _ => destruct u
  | H : (_ ≫= _) _ = (Ok _, _) |- _ =>
      let a := fresh "a" in let w := fresh "w" in let Ha := fresh "H" a in
      apply M_bind_Ok in H as (a & w & Ha & H)
  | H : lift _ _ = (Ok _, _) |- _ => apply lift_Ok in H as [H ->]
  | H : deref _ _ = (Ok _, _) |- _ => apply deref_Ok in H as [H ->]
  | H : write _ _ _ = (Ok _, _) |- _ => rewrite write_run in H
  | H : mret _ _ = (Ok _, _) |- _ => unfold mret, M_ret in H
  | H : (Ok _, _) = (Ok _, _) |- _ => simplify_eq H; clear H; intros; subst
  end.

(** *** What the program leaves untouched *)

Lemma unchanged_except_refl X w : unchanged_except X w w.
Proof. by intros l _ _. Qed.

Lemma unchanged_except_new X w df :
  unchanged_except X w (new df w).2.
Proof.
  intros l Hl _. simpl. rewrite lookup_insert_ne; [done|].
  intros <-. by apply (is_fresh (dom (heap w))).
Qed.

Lemma unchanged_except_trans X w1 w2 w3 :
  dom (heap w1) ⊆ dom (heap w2) →
  unchanged_except X w1 w2 → unchanged_except X w2 w3 →
  unchanged_except X w1 w3.
Proof.
  intros Hdom H12 H23 l Hl HX. rewrite H23, H12; auto.
Qed.

Lemma sort_by_program_order_frame data w :
  unchanged_except {[data]} w (sort_by_program_order data w).2
  ∧ dom (heap w) ⊆ dom (heap (sort_by_program_order data w).2).
Proof.
  unfold sort_by_program_order, call, unchanged_except.
  unfold mbind, M_bind, deref, lift, assign, new; simpl.
  repeat (case_match; simplify_eq/=); (split; [intros l Hl Hne|]);
    rewrite ?dom_insert_L; try set_solver.
  all: repeat (rewrite lookup_insert_ne;
      [|try (intros <-; set_solver);
        try (intros <-;
             match goal with
             | H : context [fresh ?X] |- _ =>
                 apply (is_fresh X); rewrite ?dom_insert_L; set_solver
             end)]); try done.
Qed.

#[local] Instance extends_preorder : PreOrder extends.
Proof.
  split.
  - intros w. split; [done|apply unchanged_except_refl].
  - intros w1 w2 w3 [Hd1 H1] [Hd2 H2]. split; [set_solver|].
    by eapply unchanged_except_trans.
Qed.

Lemma extends_same_heap w w' : heap w' = heap w → extends w w'.
Proof. intros Heq. split; [by rewrite Heq|]. intros l _ _. by rewrite Heq. Qed.

Lemma extends_new w df : extends w (new df w).2.
Proof.
  split; [|apply unchanged_except_new].
  simpl. rewrite dom_insert_L. set_solver.
Qed.

Lemma extends_bind {A B} (m : M A) (k : A → M B) w0 w :
  extends w0 (m w).2 →
  (∀ a w1, m w = (Ok a, w1) → extends w0 w1 → extends w0 (k a w1).2) →
  extends w0 ((m ≫= k) w).2.
Proof.
  unfold mbind, M_bind. destruct (m w) as [[a|e] w1]; simpl; auto.
Qed.

Lemma keeps_heap_extends {A} (m : M A) w0 w :
  keeps_heap m → extends w0 w → extends w0 (m w).2.
Proof.
  intros Hm Hw. etransitivity; [exact Hw|]. apply extends_same_heap, Hm.
Qed.

Lemma keeps_heap_ret {A} (a : A) : keeps_heap (mret a).
Proof. done. Qed.

Lemma keeps_heap_lift {A} (r : result A) : keeps_heap (lift r).
Proof. done. Qed.

Lemma keeps_heap_write f c : keeps_heap (write f c).
Proof. done. Qed.

Lemma keeps_heap_open_w f : keeps_heap (open_w f).
Proof. done. Qed.

Lemma keeps_heap_print s : keeps_heap (print s).
Proof. done. Qed.

Lemma keeps_heap_deref l : keeps_heap (deref l).
Proof. intros w. unfold deref. by destruct (heap w !! l). Qed.

Lemma keeps_heap_bind {A B} (m : M A) (k : A → M B) :
  keeps_heap m → (∀ a, keeps_heap (k a)) → keeps_heap (m ≫= k).
Proof.
  intros Hm Hk w. unfold mbind, M_bind. specialize (Hm w).
  destruct (m w) as [[a|e] w1]; simpl in *; [|done].
  by rewrite Hk.
Qed.

Lemma keeps_heap_for {A} (xs : list A) (body : A → M unit) :
  (∀ x, keeps_heap (body x)) → keeps_heap (for_ xs body).
Proof.
  intros Hbody. induction xs as [|x xs IH]; simpl.
  - apply keeps_heap_ret.
  - apply keeps_heap_bind; auto.
Qed.

Lemma keeps_heap_if {A} (b : bool) (m1 m2 : M A) :
  keeps_heap m1 → keeps_heap m2 → keeps_heap (if b then m1 else m2).
Proof. by destruct b. Qed.

Create HintDb keeps_heap.
#[local] Hint Resolve keeps_heap_ret keeps_heap_lift keeps_heap_write
  keeps_heap_open_w keeps_heap_print keeps_heap_deref keeps_heap_bind
  keeps_heap_for keeps_heap_if : keeps_heap.

Lemma keeps_heap_write_row f row : keeps_heap (write_row f row).
Proof. unfold write_row. auto 20 with keeps_heap. Qed.

Lemma keeps_heap_write_channel f program_data channel :
  keeps_heap (write_channel f program_data channel).
Proof.
  unfold write_channel.
  auto 20 using keeps_heap_write_row with keeps_heap.
Qed.

Lemma keeps_heap_write_program f data program :
  keeps_heap (write_program f data program).
Proof.
  unfold write_program.
  auto 20 using keeps_heap_write_channel with keeps_heap.
Qed.

Lemma call_Ok l f w l' w' :
  call l f w = (Ok l', w') →
  ∃ df df', heap w !! l = Some df ∧ f df = Ok df'
    ∧ (l' ∉ dom (heap w)) ∧ heap w' = <[l':=df']> (heap w)
    ∧ files w' = files w ∧ stdout w' = stdout w.
Proof.
  unfold call. intros H. inv_run.
  apply new_Ok in H as (? & ? & ? & ?). eauto 10.
Qed.

Lemma extends_call l f w : extends w (call l f w).2.
Proof.
  unfold call, mbind, M_bind, deref, lift.
  destruct (heap w !! l) as [df|]; simpl; [|done].
  destruct (f df); simpl; [apply extends_new|done].
Qed.

Lemma generate_markdown_extends data output_file w :
  extends w (generate_markdown data output_file w).2.
Proof.
  assert (∀ A (m : M A) w', keeps_heap m → extends w w' → extends w (m w').2)
    as Hkeep by (intros; by apply keeps_heap_extends).
  unfold generate_markdown.
  apply extends_bind; [by apply Hkeep; auto with keeps_heap|].
  intros df wa _ Hwa.
  apply extends_bind; [by apply Hkeep; auto with keeps_heap|].
  intros s wb _ Hwb.
  apply extends_bind; [by apply Hkeep; auto with keeps_heap|].
  intros mask wc _ Hwc.
  apply extends_bind; [etransitivity; [done|apply extends_new]|].
  intros l1 wd Hl1 Hwd.
  apply extends_bind; [etransitivity; [done|apply extends_call]|].
  intros l2 we Hl2 Hwe.
  apply call_Ok in Hl2 as (? & ? & _ & _ & Hfresh & _).
  assert (l2 ∉ dom (heap w)) as Hl2 by (destruct Hwd; set_solver).
  apply extends_bind.
  { destruct (sort_by_program_order_frame l2 we) as [Hun Hdom].
    destruct Hwe as [Hde Hue]. split; [set_solver|].
    intros l Hl _.
    rewrite Hun; [apply Hue; set_solver|set_solver|set_solver]. }
  intros l3 wf _ Hwf.
  apply extends_bind; [by apply Hkeep; auto with keeps_heap|].
  intros _ wg _ Hwg.
  apply extends_bind; [by apply Hkeep; auto with keeps_heap|].
  intros df' wh _ Hwh.
  apply extends_bind.
  { apply Hkeep; [|done].
    apply keeps_heap_for. intros p. apply keeps_heap_write_program. }
  intros _ wi _ Hwi.
  by apply Hkeep; auto with keeps_heap.
Qed.

(** *** What a successful run computes *)

Lemma sort_by_program_order_Ok data w l w' df :
  heap w !! data = Some df →
  sort_by_program_order data w = (Ok l, w') →
  ∃ result, program_sorted df = Ok result
    ∧ heap w' !! l = Some result
    ∧ files w' = files w ∧ stdout w' = stdout w.
Proof.
  intros Hdf H. unfold sort_by_program_order in H. inv_run.
  assert (a = df) as -> by congruence.
  apply assign_Ok in Ha2 as (Hheap & Hfiles & Hout).
  apply call_Ok in Ha3 as (df1 & df2 & Hdf1 & Hsort & _ & Hheap3 & Hf3 & Ho3).
  apply call_Ok in H as (df2' & df3 & Hdf2 & Hreset & _ & Hheap4 & Hf4 & Ho4).
  rewrite Hheap, lookup_insert_eq in Hdf1. injection Hdf1 as <-.
  rewrite Hheap3, lookup_insert_eq in Hdf2. injection Hdf2 as <-.
  exists df3. split_and!.
  - unfold program_sorted, with_program_categories.
    rewrite Ha0; simpl. rewrite Ha1; simpl. rewrite Hsort; simpl. done.
  - by rewrite Hheap4, lookup_insert_eq.
  - congruence.
  - congruence.
Qed.

Lemma for_Ok {A} f (xs : list A) (body : A → M unit)
    (g : A → result (list chunk)) w w' :
  (∀ x w w', body x w = (Ok tt, w') →
             ∃ cs, g x = Ok cs ∧ w' = append f cs w) →
  for_ xs body w = (Ok tt, w') →
  ∃ css, traverse g xs = Ok css ∧ w' = append f (concat css) w.
Proof.
  intros Hbody. revert w.
  induction xs as [|x xs IH]; intros w H; simpl in H.
  - injection H as <-. exists []. by rewrite append_nil.
  - inv_run.
    apply Hbody in Ha as (cs & Hcs & ->).
    apply IH in H as (css & Hcss & ->).
    exists (cs :: css). simpl. rewrite Hcs, Hcss. simpl.
    by rewrite append_app.
Qed.

Lemma write_row_Ok f row w w' :
  write_row f row w = (Ok tt, w') →
  ∃ cs, row_chunks row = Ok cs ∧ w' = append f cs w.
Proof.
  intros H. unfold write_row in H. inv_run.
  unfold row_chunks. use_ok.
  match goal with H : gt _ _ = Ok ?b |- _ => destruct b end;
    inv_run; use_ok; (eexists; split; [done|]); by rewrite !append_app.
Qed.

Lemma write_channel_Ok f program_data channel w w' :
  write_channel f program_data channel w = (Ok tt, w') →
  ∃ cs, channel_chunks program_data channel = Ok cs ∧ w' = append f cs w.
Proof.
  intros H. unfold write_channel in H. inv_run.
  match goal with H : for_ _ _ _ = _ |- _ =>
    apply (for_Ok f _ _ row_chunks) in H as (css & Hcss & ->);
      [|apply write_row_Ok]
  end.
  unfold channel_chunks, channel_rows. use_ok.
  unfold iterrows in *. use_ok.
  eexists; split; [done|]. by rewrite !append_app.
Qed.

Lemma write_program_Ok f data program w w' :
  write_program f data program w = (Ok tt, w') →
  ∃ cs, program_chunks data program = Ok cs ∧ w' = append f cs w.
Proof.
  intros H. unfold write_program in H. inv_run.
  unfold program_chunks, program_rows. use_ok.
  match type of H with context [empty ?d] => destruct (empty d) eqn:He end.
  - inv_run. exists []. by rewrite append_nil.
  - inv_run.
    match goal with H : for_ _ _ _ = _ |- _ =>
      eapply for_Ok in H as (css & Hcss & ->); [|apply write_channel_Ok]
    end.
    use_ok. eexists; split; [done|]. by rewrite !append_app.
Qed.

(** A successful run of the report writer: the table is filtered, sorted
    by program, and the file holds the chunks of the report. *)
Lemma generate_markdown_Ok data output_file w w' :
  generate_markdown data output_file w = (Ok tt, w') →
  ∃ df Session_mom mask sorted cs,
    heap w !! data = Some df
    ∧ getitem df "Session_mom" = Ok Session_mom
    ∧ series_gt Session_mom (Qc_of_Z 20) = Ok mask
    ∧ program_sorted (getitem_mask df mask) = Ok sorted
    ∧ report_chunks sorted = Ok cs
    ∧ files w' = <[output_file:=cs]> (files w).
Proof.
  intros H. unfold generate_markdown in H. inv_run.
  apply new_Ok in Ha2 as (_ & Hheap2 & Hf2 & _).
  apply call_Ok in Ha3 as (df1 & df2 & Hdf1 & [= <-] & _ & Hheap3 & Hf3 & _).
  rewrite Hheap2, lookup_insert_eq in Hdf1. injection Hdf1 as <-.
  eapply sort_by_program_order_Ok in Ha4 as (sorted & Hsorted & Hl & Hf4 & _);
    [|by rewrite Hheap3, lookup_insert_eq].
  injection Ha5 as <-. simpl in Ha6. rewrite Hl in Ha6. injection Ha6 as <-.
  apply (for_Ok output_file _ _ (program_chunks sorted)) in Ha7
    as (css & Hcss & ->); [|apply write_program_Ok].
  injection H as <-.
  exists a, a0, a1, sorted, (concat css). split_and!; try done.
  - unfold report_chunks. by rewrite Hcss.
  - simpl. rewrite alter_insert_eq. simpl. congruence.
Qed.

(** *** No division by zero *)

Section no_zde.
Local Abbreviation no_zde r := (r ≠ Raise ZeroDivisionError).

Lemma no_zde_bind {A B} (m : result A) (k : A → result B) :
  no_zde m → (∀ a, no_zde (k a)) → no_zde (m ≫= k).
Proof.
  intros Hm Hk. destruct m as [a|e]; [apply Hk|].
  intros H. apply Hm. by injection H as ->.
Qed.

Lemma no_zde_raise_unless b e :
  e ≠ ZeroDivisionError → no_zde (raise_unless b e).
Proof. destruct b; simpl; congruence. Qed.

Lemma no_zde_traverse {A B} (f : A → result B) l :
  (∀ x, no_zde (f x)) → no_zde (traverse f l).
Proof.
  intros Hf. induction l as [|x l IH]; simpl; [done|].
  apply no_zde_bind; [done|]. intros y.
  apply no_zde_bind; [done|]. done.
Qed.

Lemma no_zde_gt x y : no_zde (gt x y).
Proof. by destruct x. Qed.

Lemma no_zde_ge x y : no_zde (ge x y).
Proof. by destruct x. Qed.

Lemma no_zde_sub x y : no_zde (sub x y).
Proof. by destruct x, y. Qed.

Lemma no_zde_float q : no_zde (float q).
Proof. unfold float. by destruct (binary64 q). Qed.

Lemma no_zde_mul x y : no_zde (mul x y).
Proof. destruct x, y; try done. apply no_zde_float. Qed.

Lemma no_zde_format_0f x : no_zde (format_0f x).
Proof. destruct x; try done. simpl. by destruct (binary64 _). Qed.

Lemma no_zde_signed x : no_zde (signed x).
Proof.
  unfold signed. apply no_zde_bind; [apply no_zde_ge|]. intros b.
  apply no_zde_bind; [apply no_zde_format_0f|]. done.
Qed.

(** The guard [prev != 0] excludes the one divisor that raises. *)
Lemma no_zde_pct_change diff prev : no_zde (pct_change diff prev).
Proof.
  unfold pct_change. destruct (ne0 prev) eqn:Hne.
  - apply no_zde_bind; [|intros; apply no_zde_mul].
    destruct diff, prev; simpl in *; try done;
      apply bool_decide_eq_true in Hne;
      rewrite bool_decide_eq_false_2 by done;
      done || apply no_zde_float.
  - apply no_zde_bind; [apply no_zde_gt|]. done.
Qed.

Lemma no_zde_row_locals row : no_zde (row_locals row).
Proof.
  unfold row_locals.
  repeat (apply no_zde_bind;
          [first [ apply no_zde_sub | apply no_zde_pct_change
                 | apply no_zde_signed | by case_match ]
          | intros ?]).
  done.
Qed.

Lemma no_zde_getitem df c : no_zde (getitem df c).
Proof.
  unfold getitem. apply no_zde_bind; [by apply no_zde_raise_unless|done].
Qed.

Lemma no_zde_series_gt s y : no_zde (series_gt s y).
Proof. apply no_zde_traverse. intros. apply no_zde_gt. Qed.

Lemma no_zde_setitem df c values : no_zde (setitem df c values).
Proof.
  unfold setitem. apply no_zde_bind; [by apply no_zde_raise_unless|done].
Qed.

Lemma no_zde_sort_values df by_ asc : no_zde (sort_values df by_ asc).
Proof.
  unfold sort_values.
  apply no_zde_bind; [apply no_zde_traverse, no_zde_getitem|]. intros ?.
  apply no_zde_bind; [by apply no_zde_raise_unless|done].
Qed.

Lemma no_zde_reset_index df : no_zde (reset_index df).
Proof.
  unfold reset_index.
  apply no_zde_bind; [by apply no_zde_raise_unless|done].
Qed.
End no_zde.

Lemma never_raises_ret {A} e (a : A) : never_raises e (mret a).
Proof. done. Qed.

Lemma never_raises_lift {A} e (r : result A) :
  r ≠ Raise e → never_raises e (lift r).
Proof. by intros Hr w. Qed.

Lemma never_raises_bind {A B} e (m : M A) (k : A → M B) :
  never_raises e m → (∀ a, never_raises e (k a)) →
  never_raises e (m ≫= k).
Proof.
  intros Hm Hk w. unfold mbind, M_bind. specialize (Hm w).
  destruct (m w) as [[a|e'] w1]; simpl in *; [apply Hk|].
  intros H. apply Hm. by injection H as ->.
Qed.

Lemma never_raises_for {A} e (xs : list A) (body : A → M unit) :
  (∀ x, never_raises e (body x)) → never_raises e (for_ xs body).
Proof.
  intros Hbody. induction xs as [|x xs IH]; simpl.
  - apply never_raises_ret.
  - apply never_raises_bind; auto.
Qed.

Lemma never_raises_if {A} e (b : bool) (m1 m2 : M A) :
  never_raises e m1 → never_raises e m2 →
  never_raises e (if b then m1 else m2).
Proof. by destruct b. Qed.

Lemma never_raises_write e f c : never_raises e (write f c).
Proof. done. Qed.

Lemma never_raises_open_w e f : never_raises e (open_w f).
Proof. done. Qed.

Lemma never_raises_print e s : never_raises e (print s).
Proof. done. Qed.

Lemma never_raises_new e df : never_raises e (new df).
Proof. done. Qed.

Lemma never_raises_assign e l df : never_raises e (assign l df).
Proof. done. Qed.

Lemma never_raises_deref e l : e ≠ ReferenceError → never_raises e (deref l).
Proof.
  intros He w. unfold deref. destruct (heap w !! l); simpl; congruence.
Qed.

Create HintDb no_zde.
#[local] Hint Resolve never_raises_ret never_raises_lift never_raises_bind
  never_raises_for never_raises_if never_raises_write never_raises_open_w
  never_raises_print never_raises_new never_raises_assign never_raises_deref
  no_zde_gt no_zde_format_0f no_zde_row_locals no_zde_getitem
  no_zde_series_gt no_zde_setitem no_zde_sort_values no_zde_reset_index
  : no_zde.

Lemma never_divides_by_zero_write_row f row :
  never_raises ZeroDivisionError (write_row f row).
Proof. unfold write_row. auto 20 with no_zde. Qed.

Lemma never_divides_by_zero_write_program f data program :
  never_raises ZeroDivisionError (write_program f data program).
Proof.
  unfold write_program, write_channel.
  auto 30 using never_divides_by_zero_write_row with no_zde.
Qed.

Lemma never_divides_by_zero_sort data :
  never_raises ZeroDivisionError (sort_by_program_order data).
Proof. unfold sort_by_program_order, call. auto 30 with no_zde. Qed.

Lemma never_divides_by_zero_generate_markdown data output_file :
  never_raises ZeroDivisionError (generate_markdown data output_file).
Proof.
  unfold generate_markdown, call.
  auto 40 using never_divides_by_zero_write_program,
    never_divides_by_zero_sort with no_zde.
Qed.

(** *** The percent change *)

(** What [pct_change] returns on numbers: two roundings to a nearest
    [float] for a base that is not zero, the convention for a zero base. *)
Lemma pct_change_Ok d p c :
  pct_change (Num d) (Num p) = Ok c →
  (p ≠ 0%Qc → ∃ ratio pct,
     binary64 (d / p) = Some ratio
     ∧ nearest_float (d / p) ratio
     ∧ binary64 (ratio * Qc_of_Z 100) = Some pct
     ∧ nearest_float (ratio * Qc_of_Z 100) pct
     ∧ c = Num pct)
  ∧ (p = 0%Qc → c = Num (percent_change d p)).
Proof.
  unfold pct_change, percent_change, truediv, mul, float, int. simpl.
  intros H. case_bool_decide as Hp; simpl in H.
  - split; [intros _|done].
    rewrite bool_decide_eq_false_2 in H by done.
    destruct (binary64 (d / p)) as [ratio|] eqn:Hratio; simpl in H; [|done].
    destruct (binary64 (ratio * Qc_of_Z 100)) as [pct|] eqn:Hpct;
      simpl in H; [|done].
    exists ratio, pct.
    split_and!; [done|by apply binary64_nearest|done
                |by apply binary64_nearest|congruence].
  - assert (p = 0%Qc) as -> by (by destruct (decide (p = 0%Qc))).
    split; [done|intros _]. rewrite decide_True by done.
    injection H as <-. by repeat (case_bool_decide || case_decide).
Qed.

(** *** The lines of a report *)

Lemma headers_app cs1 cs2 : headers (cs1 ++ cs2) = headers cs1 ++ headers cs2.
Proof. apply omap_app. Qed.

Lemma headers_concat css :
  Forall (λ cs, headers cs = []) css → headers (concat css) = [].
Proof.
  induction 1 as [|cs css Hcs _ IH]; simpl; [done|].
  by rewrite headers_app, Hcs, IH.
Qed.

Lemma row_chunks_lines row cs :
  row_chunks row = Ok cs →
  headers cs = []
  ∧ is_Some (row !! "Landing_page")
  ∧ ∀ P C tail, lines_from P C (cs ++ tail)
      = mkLine P C (row !!! "Landing_page") (get row "Session_mom" (int 0))
        :: lines_from P C tail.
Proof.
  unfold row_chunks, row_locals. intros H. inv_ok.
  destruct (row !! "Landing_page") as [pg|] eqn:Hpg; [|done].
  assert (row !!! "Landing_page" = pg) as ->
    by (by apply lookup_total_correct).
  inv_ok. simpl.
  match goal with H : gt _ _ = Ok ?b |- _ => destruct b end; inv_ok; eauto.
Qed.

Lemma rows_chunks_lines rs css :
  traverse row_chunks rs = Ok css →
  headers (concat css) = []
  ∧ Forall (λ r, is_Some (r !! "Landing_page")) rs
  ∧ ∀ P C tail, lines_from P C (concat css ++ tail)
      = ((λ r, mkLine P C (r !!! "Landing_page")
                      (get r "Session_mom" (int 0))) <$> rs)
        ++ lines_from P C tail.
Proof.
  revert css. induction rs as [|r rs IH]; intros css H; simpl in H; inv_ok.
  - done.
  - destruct (IH _ Ha0) as (Hh & Hpg & Hl).
    destruct (row_chunks_lines _ _ Ha) as (Hh' & Hpg' & Hl').
    split; [simpl; by rewrite headers_app, Hh, Hh'|].
    split; [by constructor|].
    intros P C tail. simpl. by rewrite <-app_assoc, Hl', Hl.
Qed.

Lemma channel_chunks_lines program_data channel cs :
  channel_chunks program_data channel = Ok cs →
  headers cs = []
  ∧ ∃ rs, channel_rows program_data channel = Ok rs
    ∧ Forall (λ r, is_Some (r !! "Landing_page")) rs
    ∧ ∀ P C tail, lines_from P C (cs ++ tail)
        = ((λ r, mkLine P (Some channel) (r !!! "Landing_page")
                        (get r "Session_mom" (int 0))) <$> rs)
          ++ lines_from P (Some channel) tail.
Proof.
  unfold channel_chunks. intros H. inv_ok.
  destruct (rows_chunks_lines _ _ Ha0) as (Hh & Hpg & Hl).
  split; [simpl; by rewrite headers_app, Hh|].
  eexists; split_and!; [done|done|]. intros P C tail. simpl.
  by rewrite <-app_assoc, Hl.
Qed.

(** The lines of the sections of the channels [chs] of a program. *)
Lemma channels_chunks_lines program_data chs css :
  traverse (channel_chunks program_data) chs = Ok css →
  headers (concat css) = []
  ∧ ∀ P C tail, ∃ C' ls,
      lines_from P C (concat css ++ tail) = ls ++ lines_from P C' tail
      ∧ Forall (λ l, ∃ ch rs r,
                  channel_rows program_data ch = Ok rs ∧ r ∈ rs
                  ∧ is_Some (r !! "Landing_page")
                  ∧ l = mkLine P (Some ch) (r !!! "Landing_page")
                               (get r "Session_mom" (int 0))) ls.
Proof.
  revert css. induction chs as [|ch chs IH]; intros css H; simpl in H; inv_ok.
  - split; [done|]. intros P C tail. by exists C, [].
  - destruct (IH _ Ha0) as [Hh Hl].
    destruct (channel_chunks_lines _ _ _ Ha) as (Hh' & rs & Hrs & Hpg & Hl').
    split; [simpl; by rewrite headers_app, Hh, Hh'|].
    intros P C tail. simpl. rewrite <-app_assoc, Hl'.
    destruct (Hl P (Some ch) tail) as (C' & ls & -> & Hls).
    exists C'. eexists. split; [by rewrite app_assoc|].
    apply Forall_app. split; [|done].
    apply Forall_fmap, Forall_forall. intros r Hr. simpl.
    rewrite Forall_forall in Hpg. eauto 10.
Qed.

Lemma channel_rows_elem program_data channel rs r :
  channel_rows program_data channel = Ok rs → r ∈ rs →
  r ∈ rows program_data ∧ eqb (r !!! "default_channel") channel = true.
Proof.
  unfold channel_rows. intros H Hr. inv_ok.
  apply getitem_Ok in Ha as [_ ->].
  apply sort_values_Ok in Ha0 as (_ & _ & _ & Hbody).
  unfold iterrows, rows in Hr. rewrite Hbody in Hr.
  apply list_elem_of_fmap in Hr as (e & -> & He).
  rewrite stable_sort_Permutation, body_getitem_mask_eq in He.
  apply list_elem_of_filter in He as [Heq He].
  split; [|done]. apply list_elem_of_fmap. eauto.
Qed.

Lemma program_rows_Ok data program program_data :
  program_rows data program = Ok program_data →
  "program_category" ∈ columns data
  ∧ columns program_data = columns data
  ∧ body program_data
    = filter (λ e, eqb (e.2 !!! "program_category") (Str program) = true)
             (body data).
Proof.
  unfold program_rows. intros H. inv_ok.
  apply getitem_Ok in Ha as [Hc ->].
  by rewrite body_getitem_mask_eq.
Qed.

Lemma program_chunks_lines data program cs :
  program_chunks data program = Ok cs →
  headers cs = (if decide (has_section data program)
                then [display_name program] else [])
  ∧ ∀ P C tail, ∃ P' C' ls,
      lines_from P C (cs ++ tail) = ls ++ lines_from P' C' tail
      ∧ Forall (section_line data program) ls.
Proof.
  unfold program_chunks. intros H. inv_ok.
  apply program_rows_Ok in Ha as (Hpc & Hcols & Hbody).
  assert (has_section data program ↔ body a ≠ []) as Hsec.
  { unfold has_section, rows. rewrite Exists_exists, Hbody. split.
    - intros (r & [e [-> He]]%list_elem_of_fmap & Hr) Hnil.
      assert (e ∈ filter (λ e, eqb (e.2 !!! "program_category")
                                 (Str program) = true) (body data)) as Hin
        by by apply list_elem_of_filter.
      rewrite Hnil in Hin. by apply not_elem_of_nil in Hin.
    - intros Hne. destruct (filter _ _) as [|e l] eqn:Hf; [done|].
      assert (e ∈ e :: l) as Hin by left. rewrite <-Hf in Hin.
      apply list_elem_of_filter in Hin as [? ?].
      exists e.2. split; [apply list_elem_of_fmap; eauto|done]. }
  unfold empty in H. case_bool_decide as Hempty.
  - inv_ok. rewrite decide_False.
    + split; [done|]. intros P C tail. by exists P, C, [].
    + rewrite Hsec. destruct Hempty as [->|Hnil]; [tauto|].
      rewrite Hcols in Hnil. rewrite Hnil in Hpc.
      by apply not_elem_of_nil in Hpc.
  - inv_ok. rewrite decide_True by (rewrite Hsec; tauto).
    destruct (channels_chunks_lines _ _ _ Ha1) as [Hh Hl].
    split; [simpl; by rewrite headers_app, Hh|].
    intros P C tail. simpl. rewrite <-app_assoc.
    destruct (Hl (program_of (display_name program)) None ([Newline] ++ tail))
      as (C' & ls & -> & Hls).
    exists (program_of (display_name program)), C', ls. split; [done|].
    eapply Forall_impl; [exact Hls|]. simpl.
    intros l (ch & rs & r & Hrs & Hr & Hpg & ->).
    destruct (channel_rows_elem _ _ _ _ Hrs Hr) as [Hin Hch].
    unfold rows in Hin. rewrite Hbody in Hin.
    apply list_elem_of_fmap in Hin as (e & -> & He).
    apply list_elem_of_filter in He as [Hprog He].
    exists ch, e.2. split_and!; try done.
    apply list_elem_of_fmap. eauto.
Qed.

Lemma program_of_display_name :
  Forall (λ p, program_of (display_name p) = Some p) PROGRAM_ORDER.
Proof. apply (bool_decide_unpack _). by vm_compute. Qed.

Lemma programs_chunks_lines data ps css :
  traverse (program_chunks data) ps = Ok css →
  headers (concat css)
  = display_name <$> filter (has_section data) ps
  ∧ ∀ P C, ∃ ls, lines_from P C (concat css) = ls
      ∧ Forall (λ l, ∃ p, p ∈ ps ∧ section_line data p l) ls.
Proof.
  revert css. induction ps as [|p ps IH]; intros css H; simpl in H; inv_ok.
  - split; [done|]. intros P C. by exists [].
  - destruct (IH _ Ha0) as [Hh Hl].
    destruct (program_chunks_lines _ _ _ Ha) as [Hh' Hl'].
    split.
    + simpl. rewrite headers_app, Hh, Hh', filter_cons.
      by destruct (decide (has_section data p)).
    + intros P C. simpl.
      destruct (Hl' P C (concat a0)) as (P' & C' & ls & -> & Hls).
      destruct (Hl P' C') as (ls' & -> & Hls').
      eexists; split; [done|]. apply Forall_app. split.
      * eapply Forall_impl; [exact Hls|]. intros l Hl0. exists p.
        split; [left|done].
      * eapply Forall_impl; [exact Hls'|]. intros l (p' & Hp' & Hl0).
        exists p'. split; [by right|done].
Qed.

(** The report of a sorted table: one section per program with rows, in
    the official order, and every line is the line of a row of the table
    under its program and its channel. *)
Lemma report_chunks_lines data cs :
  report_chunks data = Ok cs →
  headers cs = display_name <$> filter (has_section data) PROGRAM_ORDER
  ∧ Forall (λ l, ∃ p ch r,
              p ∈ PROGRAM_ORDER ∧ r ∈ rows data
              ∧ eqb (r !!! "program_category") (Str p) = true
              ∧ eqb (r !!! "default_channel") ch = true
              ∧ is_Some (r !! "Landing_page")
              ∧ l = line_of p ch r) (report_lines cs).
Proof.
  unfold report_chunks. intros H. inv_ok.
  destruct (programs_chunks_lines _ _ _ Ha) as [Hh Hl].
  split; [done|]. unfold report_lines.
  destruct (Hl None None) as (ls & -> & Hls).
  eapply Forall_impl; [exact Hls|]. simpl.
  intros l (p & Hp & ch & r & Hr & Hprog & Hch & Hpg & ->).
  exists p, ch, r. split_and!; try done. unfold line_of.
  pose proof program_of_display_name as Hof.
  rewrite Forall_forall in Hof. by rewrite (Hof p Hp).
Qed.

(** Every bullet of a report is one of its lines. *)
Lemma bullet_is_line cs pg s P C :
  BulletHead pg s ∈ cs →
  ∃ l, l ∈ lines_from P C cs ∧ line_page l = pg ∧ line_sessions l = s.
Proof.
  revert P C. induction cs as [|c cs IH]; intros P C;
    [by intros ?%not_elem_of_nil|].
  intros [<-|Hin]%elem_of_cons.
  - eexists. split; [left|done].
  - destruct c; simpl; try (by apply IH).
    destruct (IH P C Hin) as (l & Hl & ?). exists l. split; [by right|done].
Qed.

(** *** The report of a table *)

(** The rows the report writer sorts are the rows with traffic. *)
Lemma filtered_rows df Session_mom mask :
  getitem df "Session_mom" = Ok Session_mom →
  series_gt Session_mom (Qc_of_Z 20) = Ok mask →
  ∀ e, e ∈ body (getitem_mask df mask) ↔ e ∈ body df ∧ has_traffic e.2.
Proof.
  intros [_ ->]%getitem_Ok Hmask%series_gt_Ok e.
  unfold rows in Hmask. rewrite <-list_fmap_compose in Hmask.
  apply Forall2_fmap_l in Hmask. simpl. split.
  - intros He. eapply select_Forall2 in He as [? Hgt]; [|exact Hmask].
    split; [done|]. by apply has_traffic_gt.
  - intros [He Ht]. eapply select_Forall2_elem; [exact Hmask|done|].
    simpl. intros b Hb. apply has_traffic_gt in Ht. congruence.
Qed.

(** A row of the sorted table is a row of the table before, recoded, with
    the old index in front. *)
Lemma program_sorted_elem df s :
  program_sorted df = Ok s →
  ∀ r', r' ∈ rows s ↔
    ∃ e, e ∈ body df
         ∧ r' = list_to_map (zip (level_names df) e.1) ∪ recode e.2.
Proof.
  intros (_ & _ & _ & _ & _ & _ & ->)%program_sorted_Ok r'.
  rewrite list_elem_of_fmap. split.
  - intros (e' & -> & He'). rewrite stable_sort_Permutation in He'.
    apply list_elem_of_fmap in He' as (e & -> & He). eauto.
  - intros (e & He & ->). exists (e.1, recode e.2). split; [done|].
    rewrite stable_sort_Permutation. apply list_elem_of_fmap. eauto.
Qed.

Lemma sorted_row_lookup df s label r c :
  program_sorted df = Ok s → c ∈ columns df →
  (list_to_map (zip (level_names df) label) ∪ recode r) !! c = recode r !! c.
Proof.
  intros (_ & _ & _ & Hfresh & _)%program_sorted_Ok Hc.
  apply lookup_with_index. rewrite Forall_forall in Hfresh.
  intros Hin. by apply (Hfresh c).
Qed.

Lemma sorted_row_program df s label r p :
  program_sorted df = Ok s →
  eqb ((list_to_map (zip (level_names df) label) ∪ recode r)
         !!! "program_category") (Str p) = true
  ↔ in_program p r ∧ p ∈ PROGRAM_ORDER.
Proof.
  intros Hs. pose proof Hs as (Hpc & _)%program_sorted_Ok.
  rewrite lookup_total_alt, (sorted_row_lookup _ _ _ _ _ Hs Hpc).
  unfold recode. rewrite lookup_insert_eq. simpl. apply eqb_categorize.
Qed.

Lemma generate_markdown_report data output_file w w' df cs :
  generate_markdown data output_file w = (Ok tt, w') →
  heap w !! data = Some df →
  files w' !! output_file = Some cs →
  headers cs = display_name <$> filter (survives df) PROGRAM_ORDER
  ∧ Forall (λ l, ∃ p r, p ∈ PROGRAM_ORDER ∧ has_traffic r
                        ∧ line_of_row df l p r) (report_lines cs).
Proof.
  intros Hrun Hdf Hcs.
  apply generate_markdown_Ok in Hrun
    as (df' & col & mask & s & cs' & Hdf' & Hcol & Hmask & Hs & Hrep & Hfiles).
  assert (df' = df) as -> by congruence.
  rewrite Hfiles, lookup_insert_eq in Hcs. injection Hcs as ->.
  pose proof (filtered_rows _ _ _ Hcol Hmask) as Hfilter.
  pose proof (program_sorted_elem _ _ Hs) as Helem.
  destruct (report_chunks_lines _ _ Hrep) as [Hheaders Hlines].
  split.
  - rewrite Hheaders. f_equal. apply filter_ext_in. intros p Hp.
    unfold has_section, survives. rewrite !Exists_exists. split.
    + intros (r' & (e & He & ->)%(Helem r') & Hprog).
      apply (sorted_row_program _ _ _ _ _ Hs) in Hprog as [Hprog _].
      apply Hfilter in He as [He Ht]. exists e.2. split; [|done].
      apply list_elem_of_fmap. eauto.
    + intros (r & (e & -> & He)%list_elem_of_fmap & Ht & Hprog).
      eexists. split.
      * apply Helem. exists e. split; [|done]. by apply Hfilter.
      * by apply (sorted_row_program _ _ _ _ _ Hs).
  - eapply Forall_impl; [exact Hlines|]. simpl.
    intros l (p & ch & r' & Hp & (e & He & ->)%(Helem r') & Hprog & Hch
              & Hpg & ->).
    apply (sorted_row_program _ _ _ _ _ Hs) in Hprog as [Hprog _].
    apply Hfilter in He as [He Ht].
    pose proof Hs as (_ & Hdc & _)%program_sorted_Ok.
    apply getitem_Ok in Hcol as [HSm _].
    assert (∀ c, c ∈ columns df → c ≠ "program_category" →
      (list_to_map (zip (level_names (getitem_mask df mask)) e.1)
         ∪ recode e.2) !! c = e.2 !! c) as Hlook.
    { intros c Hc Hne. rewrite (sorted_row_lookup _ _ _ _ _ Hs Hc).
      unfold recode. by rewrite lookup_insert_ne. }
    exists p, e.2. split_and!; try done.
    unfold line_of_row, line_of; simpl. split_and!; try done.
    + apply list_elem_of_fmap. eauto.
    + exists ch. split; [done|].
      by rewrite lookup_total_alt, <-(Hlook "default_channel"),
        <-lookup_total_alt.
    + unfold get. rewrite (Hlook "Session_mom") by done.
      rewrite lookup_total_alt. unfold has_traffic in Ht.
      by destruct (e.2 !! "Session_mom").
    + intros HLp.
      by rewrite !lookup_total_alt, (Hlook "Landing_page").
Qed.

(** *** The summary *)

#[local] Arguments fill_row : simpl never.
#[local] Arguments recode : simpl never.
#[local] Arguments merged_row : simpl never.
#[local] Arguments level_names : simpl never.
#[local] Arguments fill_values : simpl never.

Lemma summarize_data_Ok mom_data yoy_data w l w' mom yoy :
  summarize_data mom_data yoy_data w = (Ok l, w') →
  heap w !! mom_data = Some mom →
  heap w !! yoy_data = Some yoy →
  ∃ merged summary,
    merge mom yoy join_columns ("_mom", "_yoy") = Ok merged
    ∧ program_sorted (fillna merged fill_values) = Ok summary
    ∧ heap w' !! l = Some summary
    ∧ files w' = files w.
Proof.
  intros H Hmom Hyoy. unfold summarize_data in H. inv_run.
  assert (a = mom) as -> by congruence.
  assert (a0 = yoy) as -> by congruence.
  match goal with H : new _ _ = _ |- _ =>
    apply new_Ok in H as (_ & Hheap1 & Hf1 & _) end.
  match goal with H : call _ _ _ = _ |- _ =>
    apply call_Ok in H as (df & df' & Hdf & [= <-] & _ & Hheap2 & Hf2 & _)
  end.
  rewrite Hheap1, lookup_insert_eq in Hdf. injection Hdf as <-.
  eapply sort_by_program_order_Ok in H as (summary & Hs & Hl & Hf3 & _);
    [|by rewrite Hheap2, lookup_insert_eq].
  match goal with H : merge _ _ _ _ = Ok ?m |- _ => exists m, summary end.
  split_and!; try done. congruence.
Qed.

(** The rows of the summary are the merged rows, filled and recoded, each
    with the position it had in the merge result in front, in some order. *)
Lemma summary_rows mom yoy merged summary :
  merge mom yoy join_columns ("_mom", "_yoy") = Ok merged →
  program_sorted (fillna merged fill_values) = Ok summary →
  rows summary
  ≡ₚ imap (λ p ij, list_to_map (zip (level_names merged) (RangeIndex p))
                   ∪ summary_row mom yoy (columns merged) ij)
       (outer_join_indexers (row_key join_columns <$> rows mom)
                            (row_key join_columns <$> rows yoy)).
Proof.
  intros Hm (_ & _ & _ & _ & _ & _ & ->)%program_sorted_Ok.
  apply merge_Ok in Hm as (_ & _ & _ & _ & _ & Hbody).
  rewrite stable_sort_Permutation.
  unfold fillna at 2; cbn [body]. rewrite Hbody.
  rewrite <-list_fmap_compose, !fmap_imap.
  match goal with |- ?a ≡ₚ ?b => assert (a = b) as -> end; [|done].
  apply imap_ext. intros p ij _. cbn [compose fst snd].
  unfold summary_row, level_names. cbn [index_names columns fillna].
  reflexivity.
Qed.

Lemma merged_left_column mom yoy merged c :
  merge mom yoy join_columns ("_mom", "_yoy") = Ok merged →
  c ∈ columns mom →
  suffixed join_columns (columns yoy) "_mom" c ∈ columns merged.
Proof.
  intros (_ & _ & -> & _)%merge_Ok Hc.
  apply elem_of_app. left. apply list_elem_of_fmap. eauto.
Qed.


Lemma suffixed_shared on others suffix c :
  c ∉ on → c ∈ others → suffixed on others suffix c = c +:+ suffix.
Proof. intros. unfold suffixed. by rewrite bool_decide_eq_true_2. Qed.



Lemma summary_elem mom yoy merged summary r :
  merge mom yoy join_columns ("_mom", "_yoy") = Ok merged →
  program_sorted (fillna merged fill_values) = Ok summary →
  r ∈ rows summary ↔
  ∃ p ij,
    outer_join_indexers (row_key join_columns <$> rows mom)
                        (row_key join_columns <$> rows yoy) !! p = Some ij
    ∧ r = list_to_map (zip (level_names merged) (RangeIndex p))
          ∪ summary_row mom yoy (columns merged) ij.
Proof.
  intros Hm Hs. rewrite (summary_rows _ _ _ _ Hm Hs).
  rewrite elem_of_lookup_imap. naive_solver.
Qed.

Lemma summary_lookup mom yoy merged summary label ij c :
  program_sorted (fillna merged fill_values) = Ok summary →
  c ∈ columns merged →
  (list_to_map (zip (level_names merged) label)
   ∪ summary_row mom yoy (columns merged) ij) !! c
  = summary_row mom yoy (columns merged) ij !! c.
Proof.
  intros (_ & _ & _ & Hfresh & _)%program_sorted_Ok Hc.
  apply lookup_with_index. rewrite Forall_forall in Hfresh.
  intros Hin. by apply (Hfresh c).
Qed.

Lemma fill_values_zero : Forall (λ cv, cv.2 = int 0) fill_values.
Proof. by repeat constructor. Qed.

Lemma fill_values_not_program : "program_category" ∉ fill_values.*1.
Proof. compute_done. Qed.

(** A designated cell of a summary row: the cell of the merged row, or zero
    where that is missing. *)
Lemma summary_row_designated mom yoy cols ij c :
  c ∈ cols → c ∈ fill_values.*1 →
  summary_row mom yoy cols ij !! c
  = Some (match merged_row mom yoy join_columns ("_mom", "_yoy") ij !!! c with
          | NaN => int 0
          | v => v
          end).
Proof.
  intros Hc Hfill. unfold summary_row, recode.
  rewrite lookup_insert_ne
    by (intros <-; by apply fill_values_not_program).
  set (m := merged_row _ _ _ _ _).
  destruct (fill_row_filled cols fill_values m c Hc Hfill) as (v & Hv & Hnan).
  { eapply Forall_impl; [apply fill_values_zero|]. by intros ? ->. }
  destruct (fill_row_lookup cols fill_values m c)
    as [Heq|(Hm & _ & v' & Hv' & Heq)].
  - rewrite Heq in Hv |- *. rewrite lookup_total_alt, Hv. simpl.
    by destruct v.
  - rewrite Hm, Heq. f_equal.
    pose proof fill_values_zero as Hz. rewrite Forall_forall in Hz.
    apply (Hz _ Hv').
Qed.

(** *** The order of the summary *)

Lemma StronglySorted_any {A} (l : list A) : StronglySorted (λ _ _, True) l.
Proof.
  induction l; constructor; [done|]. by apply Forall_forall.
Qed.

Lemma StronglySorted_elem {A} (R : relation A) (P : A → Prop) l :
  StronglySorted R l → Forall P l →
  StronglySorted (λ a b, R a b ∧ P a ∧ P b) l.
Proof.
  induction 1 as [|a l Hl IH Ha]; intros HP; [constructor|].
  apply Forall_cons in HP as [HPa HP]. constructor; [auto|].
  rewrite Forall_forall in Ha, HP |- *. auto.
Qed.

Lemma recoded_categorize v : recoded (categorize PROGRAM_ORDER v).
Proof.
  destruct (categorize_cases PROGRAM_ORDER v) as [->|(i & p & -> & Hi & _)].
  - by left.
  - right. eauto.
Qed.

Lemma recoded_leb a1 a2 :
  recoded a1 → recoded a2 →
  cell_leb true a1 a2 = bool_decide (program_rank a1 ≤ program_rank a2).
Proof.
  intros [->|(i & p & -> & Hi)] [->|(j & q & -> & Hj)];
    try apply lookup_lt_Some in Hi; try apply lookup_lt_Some in Hj;
    unfold cell_leb; cbn [isna value_leb program_rank].
  - by rewrite bool_decide_eq_true_2.
  - by rewrite bool_decide_eq_false_2 by lia.
  - by rewrite bool_decide_eq_true_2 by lia.
  - done.
Qed.

Lemma program_leb_order (r1 r2 : gmap string cell) :
  recoded (r1 !!! "program_category") →
  recoded (r2 !!! "program_category") →
  key_leb true (program_key r1) (program_key r2) = true →
  summary_order r1 r2.
Proof.
  intros H1 H2.
  unfold summary_order, program_key, row_key. cbn [fmap list_fmap key_leb].
  rewrite (recoded_leb _ _ H1 H2), (recoded_leb _ _ H2 H1).
  repeat case_bool_decide; try done; try (intros _; left; lia).
  destruct (cell_leb true (r1 !!! "default_channel") _); [|done].
  intros _. right. split; [lia|done].
Qed.

(** The table [sort_by_program_order] returns is in the canonical order,
    and its program cells are recoded. *)
Lemma program_sorted_order df s :
  program_sorted df = Ok s →
  StronglySorted summary_order (rows s)
  ∧ Forall (λ r, recoded (r !!! "program_category")) (rows s).
Proof.
  intros Hs.
  pose proof Hs as (Hpc & Hdc & _ & Hfresh & _ & _ & ->)%program_sorted_Ok.
  set (L := (λ e : list cell * gmap string cell, (e.1, recode e.2))
              <$> body df).
  assert (Forall (λ e : list cell * gmap string cell,
                    recoded (e.2 !!! "program_category")) L) as HL.
  { apply Forall_fmap, Forall_forall. intros e _. simpl. unfold recode.
    rewrite lookup_total_insert_eq. apply recoded_categorize. }
  assert (∀ (e : list cell * gmap string cell) c, c ∈ columns df →
    (list_to_map (zip (level_names df) e.1) ∪ e.2) !!! c = e.2 !!! c)
    as Hlook.
  { intros e c Hc. rewrite !lookup_total_alt. f_equal.
    apply lookup_with_index. rewrite Forall_forall in Hfresh.
    intros Hin. by apply (Hfresh c). }
  rewrite <-(stable_sort_Permutation program_leb) in HL.
  split.
  - eapply StronglySorted_fmap;
      [|apply StronglySorted_elem;
        [apply (stable_sort_stable program_leb (λ _ _, True) (λ _, True))
        |exact HL]].
    + intros e1 e2 ([Hleb _] & H1 & H2). simpl in *.
      unfold summary_order. rewrite !Hlook by done.
      by apply program_leb_order.
    + intros. apply key_leb_total.
    + intros a b c _ _ _. by apply key_leb_trans.
    + by apply Forall_forall.
    + apply StronglySorted_any.
  - apply Forall_fmap. eapply Forall_impl; [exact HL|].
    intros e He. simpl. by rewrite Hlook.
Qed.

(** *** Where the rows of the summary come from *)

Lemma join_column_merged mom yoy merged c :
  merge mom yoy join_columns ("_mom", "_yoy") = Ok merged →
  c ∈ join_columns → c ∈ columns merged.
Proof.
  intros Hm Hc. pose proof Hm as (Hon & _)%merge_Ok.
  replace c with (suffixed join_columns (columns yoy) "_mom" c).
  - eapply merged_left_column; [done|]. by apply Hon.
  - unfold suffixed. rewrite bool_decide_eq_false_2; [done|]. by intros [? _].
Qed.

(** A key cell of a summary row other than the program is the cell of the
    merged row. *)
Lemma summary_row_key mom yoy cols ij c :
  c ∈ join_columns → c ≠ "program_category" →
  summary_row mom yoy cols ij !! c
  = merged_row mom yoy join_columns ("_mom", "_yoy") ij !! c.
Proof.
  intros Hc Hne. unfold summary_row, recode.
  rewrite lookup_insert_ne by done.
  destruct (fill_row_lookup cols fill_values
              (merged_row mom yoy join_columns ("_mom", "_yoy") ij) c)
    as [Heq|(_ & _ & v & Hv & _)]; [done|].
  exfalso. apply (list_elem_of_fmap_2 fst) in Hv. simpl in Hv.
  revert Hc Hv. rewrite !list_elem_of_In. simpl. intros Hc Hv.
  repeat destruct Hc as [<-|Hc]; try done;
    repeat destruct Hv as [Hv|Hv]; done.
Qed.

Lemma summary_row_program mom yoy cols ij :
  summary_row mom yoy cols ij !!! "program_category"
  = categorize PROGRAM_ORDER
      (merged_row mom yoy join_columns ("_mom", "_yoy") ij
         !!! "program_category").
Proof.
  unfold summary_row, recode. rewrite lookup_total_insert_eq. f_equal.
  rewrite !lookup_total_alt. f_equal.
  destruct (fill_row_lookup cols fill_values
              (merged_row mom yoy join_columns ("_mom", "_yoy") ij)
              "program_category")
    as [Heq|(_ & _ & v & Hv & _)]; [done|].
  exfalso. apply (list_elem_of_fmap_2 fst) in Hv.
  by apply fill_values_not_program.
Qed.

(** A summary row with traffic has a row of the MoM table behind it, with
    the same channel and page and the same program text. *)
Lemma summary_row_with_traffic mom yoy merged summary label ij r pos :
  merge mom yoy join_columns ("_mom", "_yoy") = Ok merged →
  program_sorted (fillna merged fill_values) = Ok summary →
  "Session" ∈ columns mom → "Session" ∈ columns yoy →
  outer_join_indexers (row_key join_columns <$> rows mom)
                      (row_key join_columns <$> rows yoy) !! pos = Some ij →
  r = list_to_map (zip (level_names merged) label)
      ∪ summary_row mom yoy (columns merged) ij →
  has_traffic r →
  ∃ mr, mr ∈ rows mom
        ∧ r !!! "program_category"
          = categorize PROGRAM_ORDER (mr !!! "program_category")
        ∧ r !!! "default_channel" = mr !!! "default_channel"
        ∧ r !!! "Landing_page" = mr !!! "Landing_page".
Proof.
  intros Hm Hs HSm HSy Hij -> Ht.
  assert ("Session_mom" ∈ columns merged) as Hcol.
  { pose proof (merged_left_column _ _ _ "Session" Hm HSm) as H.
    rewrite suffixed_shared in H by (done || compute_done). exact H. }
  unfold has_traffic in Ht.
  rewrite (summary_lookup _ _ _ _ _ _ _ Hs Hcol) in Ht.
  rewrite summary_row_designated in Ht by (done || compute_done).
  destruct (ij.1 ≫= (λ i, rows mom !! i)) as [mr|] eqn:Hleft; last first.
  { exfalso.
    assert (merged_row mom yoy join_columns ("_mom", "_yoy") ij
              !! "Session_mom" = Some NaN) as Hnan.
    { pose proof (merged_row_no_left mom yoy join_columns ("_mom", "_yoy")
                    ij "Session" Hleft) as H.
      rewrite suffixed_shared in H by (done || compute_done).
      apply H; (done || compute_done). }
    rewrite lookup_total_alt, Hnan in Ht.
    simpl in Ht. by vm_compute in Ht. }
  exists mr. split.
  { destruct ij as [[i|] oj]; [|done]. simpl in Hleft.
    by eapply list_elem_of_lookup_2. }
  assert (∀ c, c ∈ join_columns →
    merged_row mom yoy join_columns ("_mom", "_yoy") ij !!! c = mr !!! c)
    as Hkey.
  { intros c Hc. rewrite lookup_total_alt, merged_row_key by done.
    by rewrite Hleft. }
  assert (∀ c, c ∈ join_columns →
    (list_to_map (zip (level_names merged) label)
     ∪ summary_row mom yoy (columns merged) ij) !!! c
    = summary_row mom yoy (columns merged) ij !!! c) as Hsum.
  { intros c Hc. rewrite !lookup_total_alt. f_equal.
    apply (summary_lookup _ _ _ _ _ _ _ Hs).
    by eapply join_column_merged. }
  split_and!.
  - rewrite Hsum by compute_done.
    rewrite summary_row_program, Hkey by compute_done. done.
  - rewrite Hsum by compute_done. rewrite <-Hkey by compute_done.
    rewrite !lookup_total_alt. f_equal.
    by apply summary_row_key; [compute_done|].
  - rewrite Hsum by compute_done. rewrite <-Hkey by compute_done.
    rewrite !lookup_total_alt. f_equal.
    by apply summary_row_key; [compute_done|].
Qed.

(** *** The pairs of an outer join *)

Lemma elem_of_zip_seq {A} (l : list A) s i x :
  (i, x) ∈ zip (seq s (length l)) l ↔ s ≤ i ∧ l !! (i - s) = Some x.
Proof.
  revert s. induction l as [|y l IH]; intros s; simpl.
  - split; [by intros ?%not_elem_of_nil|by intros [_ ?]].
  - rewrite elem_of_cons, IH. split.
    + intros [[= -> ->]|[Hs Hl]].
      * split; [lia|]. by rewrite Nat.sub_diag.
      * split; [lia|]. by replace (i - s) with (S (i - S s)) by lia.
    + intros [Hs Hl]. destruct (decide (i = s)) as [->|Hne].
      * left. rewrite Nat.sub_diag in Hl. simpl in Hl. congruence.
      * right. split; [lia|].
        by replace (i - s) with (S (i - S s)) in Hl by lia.
Qed.

Lemma NoDup_zip_seq_filter {A} (P : nat * A → Prop) `{∀ p, Decision (P p)}
    (l : list A) s :
  NoDup (filter P (zip (seq s (length l)) l)).*1.
Proof.
  apply NoDup_fmap_fst.
  - intros i x y [_ Hx%elem_of_zip_seq]%list_elem_of_filter
                 [_ Hy%elem_of_zip_seq]%list_elem_of_filter.
    destruct Hx as [_ Hx], Hy as [_ Hy]. congruence.
  - apply NoDup_filter. apply (NoDup_fmap_1 fst).
    rewrite fst_zip by (by rewrite length_seq). apply NoDup_seq.
Qed.

Lemma elem_of_positions_of k keys i :
  i ∈ positions_of k keys ↔ keys !! i = Some k.
Proof.
  unfold positions_of. rewrite list_elem_of_fmap. split.
  - intros ([i' k'] & -> & [Hk Hin%elem_of_zip_seq]%list_elem_of_filter).
    simpl in *. subst. destruct Hin as [_ Hin].
    by rewrite Nat.sub_0_r in Hin.
  - intros Hi. exists (i, k). split; [done|].
    apply list_elem_of_filter. split; [done|].
    apply elem_of_zip_seq. split; [lia|]. by rewrite Nat.sub_0_r.
Qed.

Lemma NoDup_positions_of k keys : NoDup (positions_of k keys).
Proof. apply NoDup_zip_seq_filter. Qed.

Lemma positions_of_nil k keys : positions_of k keys = [] ↔ k ∉ keys.
Proof.
  split.
  - intros Hnil [i Hi]%list_elem_of_lookup.
    apply elem_of_positions_of in Hi. rewrite Hnil in Hi.
    by apply not_elem_of_nil in Hi.
  - intros Hk. destruct (positions_of k keys) as [|i l] eqn:Hp; [done|].
    destruct Hk. apply (list_elem_of_lookup_2 _ i).
    apply elem_of_positions_of. rewrite Hp. left.
Qed.

Lemma length_positions_of k keys :
  length (positions_of k keys) = occurrences k keys.
Proof.
  unfold positions_of, occurrences. rewrite length_fmap.
  generalize 0. induction keys as [|k' keys IH]; intros s; simpl; [done|].
  rewrite !filter_cons. simpl.
  destruct (decide (k' = k)); simpl; by rewrite IH.
Qed.

Lemma occurrences_nil {A} `{EqDecision A} (x : A) : occurrences x [] = 0.
Proof. done. Qed.

Lemma occurrences_cons {A} `{EqDecision A} (x y : A) l :
  occurrences x (y :: l)
  = (if decide (y = x) then 1 else 0) + occurrences x l.
Proof. unfold occurrences. rewrite filter_cons. by case_decide. Qed.

Lemma occurrences_app {A} `{EqDecision A} (x : A) l1 l2 :
  occurrences x (l1 ++ l2) = occurrences x l1 + occurrences x l2.
Proof. unfold occurrences. by rewrite filter_app, length_app. Qed.

Lemma occurrences_none {A} `{EqDecision A} (x : A) l :
  x ∉ l → occurrences x l = 0.
Proof.
  induction l as [|y l IH]; [done|]. intros Hx.
  rewrite occurrences_cons, decide_False, IH; set_solver.
Qed.

Lemma occurrences_NoDup {A} `{EqDecision A} (x : A) l :
  NoDup l → x ∈ l → occurrences x l = 1.
Proof.
  induction 1 as [|y l Hy Hl IH]; [by intros ?%not_elem_of_nil|].
  rewrite occurrences_cons. intros [->|Hx]%elem_of_cons.
  - by rewrite decide_True, occurrences_none.
  - rewrite decide_False, IH; [done..|]. by intros ->.
Qed.

Lemma occurrences_fmap_inj {A B} `{EqDecision A} `{EqDecision B}
    (f : A → B) `{!Inj (=) (=) f} (x : A) l :
  occurrences (f x) (f <$> l) = occurrences x l.
Proof.
  induction l as [|y l IH]; [done|].
  rewrite fmap_cons, !occurrences_cons, IH.
  destruct (decide (y = x)) as [->|Hne]; [by rewrite decide_True|].
  rewrite decide_False; [done|]. by intros ?%(inj f).
Qed.

Lemma occurrences_bind {A B} `{EqDecision B} (f : A → list B) l (x : B) a0 :
  NoDup l → a0 ∈ l →
  (∀ a, a ∈ l → a ≠ a0 → occurrences x (f a) = 0) →
  occurrences x (l ≫= f) = occurrences x (f a0).
Proof.
  induction 1 as [|a l Ha Hl IH]; [by intros ?%not_elem_of_nil|].
  intros Ha0 Hzero. rewrite bind_cons, occurrences_app.
  apply elem_of_cons in Ha0 as [<-|Ha0].
  - assert (occurrences x (l ≫= f) = 0) as ->; [|lia].
    clear IH. induction l as [|b l IHl]; [done|].
    rewrite bind_cons, occurrences_app.
    apply NoDup_cons in Hl as [Hb Hl].
    rewrite Hzero, IHl; [done|set_solver|done| |set_solver|set_solver].
    intros a Ha' Hne. apply Hzero; [set_solver|done].
  - rewrite Hzero, IH; [done|done| |left|by intros ->].
    intros b Hb Hne. apply Hzero; [by right|done].
Qed.

Lemma pair_up_nil_r ls : pair_up ls [] = (λ i, (Some i, None)) <$> ls.
Proof. by destruct ls. Qed.

Lemma pair_up_nil_l rs : pair_up [] rs = (λ j, (None, Some j)) <$> rs.
Proof. done. Qed.

Lemma pair_up_product ls rs :
  ls ≠ [] → rs ≠ [] → pair_up ls rs = i ← ls; j ← rs; [(Some i, Some j)].
Proof. by destruct ls, rs. Qed.

Lemma product_row_left (i' i : nat) (rs : list nat) :
  occurrences (Some i) (rs ≫= (λ j, [(Some i', Some j)])).*1
  = if decide (i' = i) then length rs else 0.
Proof.
  induction rs as [|j rs IH]; [by case_decide|].
  rewrite bind_cons, fmap_app, occurrences_app, IH.
  cbn [fmap list_fmap fst]. rewrite occurrences_cons, occurrences_nil.
  destruct (decide (i' = i)) as [->|Hne].
  - rewrite decide_True by done. simpl. lia.
  - rewrite decide_False by congruence. lia.
Qed.

Lemma product_row_right (i j : nat) (rs : list nat) :
  NoDup rs →
  occurrences (Some j) (rs ≫= (λ j, [(Some i, Some j)])).*2
  = if decide (j ∈ rs) then 1 else 0.
Proof.
  induction 1 as [|j' rs Hj' Hnd IH].
  { by rewrite decide_False by apply not_elem_of_nil. }
  rewrite bind_cons, fmap_app, occurrences_app, IH.
  cbn [fmap list_fmap snd]. rewrite occurrences_cons, occurrences_nil.
  destruct (decide (j' = j)) as [->|Hne].
  - rewrite (decide_True (P:=Some j = Some j)) by done.
    rewrite (decide_True (P:=j ∈ j :: rs)) by left.
    by rewrite (decide_False (P:=j ∈ rs)).
  - rewrite (decide_False (P:=Some j' = Some j)) by congruence.
    destruct (decide (j ∈ rs)).
    + by rewrite decide_True by (by right).
    + rewrite decide_False; [done|]. set_solver.
Qed.

(** How often a row of the left table is paired within its key. *)
Lemma pair_up_left ls rs i :
  NoDup ls →
  occurrences (Some i) (pair_up ls rs).*1
  = if decide (i ∈ ls) then Nat.max 1 (length rs) else 0.
Proof.
  intros Hnd. destruct (decide (rs = [])) as [->|Hrs].
  - rewrite pair_up_nil_r, <-list_fmap_compose.
    rewrite (list_fmap_ext _ Some ls) by done.
    rewrite (occurrences_fmap_inj Some). simpl.
    case_decide; [by apply occurrences_NoDup|by apply occurrences_none].
  - destruct (decide (ls = [])) as [->|Hls].
    { rewrite pair_up_nil_l, decide_False by apply not_elem_of_nil.
      apply occurrences_none. rewrite <-list_fmap_compose.
      by intros (? & ? & ?)%list_elem_of_fmap. }
    rewrite pair_up_product by done. clear Hls.
    induction Hnd as [|i' ls Hi' Hnd IH].
    { by rewrite decide_False by apply not_elem_of_nil. }
    rewrite bind_cons, fmap_app, occurrences_app, IH, product_row_left.
    destruct (decide (i' = i)) as [->|Hne].
    + rewrite (decide_True (P:=i ∈ i :: ls)) by left.
      rewrite (decide_False (P:=i ∈ ls)) by done.
      destruct rs; [done|]. simpl. lia.
    + destruct (decide (i ∈ ls)) as [Hin|Hin].
      * rewrite decide_True by (by right). lia.
      * rewrite decide_False; [lia|]. set_solver.
Qed.

(** How often a row of the right table is paired within its key. *)
Lemma pair_up_right ls rs j :
  NoDup rs →
  occurrences (Some j) (pair_up ls rs).*2
  = if decide (j ∈ rs) then Nat.max 1 (length ls) else 0.
Proof.
  intros Hnd. destruct (decide (ls = [])) as [->|Hls].
  - rewrite pair_up_nil_l, <-list_fmap_compose.
    rewrite (list_fmap_ext _ Some rs) by done.
    rewrite (occurrences_fmap_inj Some). simpl.
    case_decide; [by apply occurrences_NoDup|by apply occurrences_none].
  - destruct (decide (rs = [])) as [->|Hrs].
    { rewrite pair_up_nil_r, decide_False by apply not_elem_of_nil.
      apply occurrences_none. rewrite <-list_fmap_compose.
      by intros (? & ? & ?)%list_elem_of_fmap. }
    rewrite pair_up_product by done. clear Hrs.
    induction ls as [|i ls IH]; [done|].
    rewrite bind_cons, fmap_app, occurrences_app, product_row_right by done.
    destruct ls as [|i' ls].
    { simpl. rewrite occurrences_nil. case_decide; lia. }
    rewrite IH by done. case_decide; simpl; lia.
Qed.

Lemma fmap_bind_list {A B C} (f : B → C) (g : A → list B) (l : list A) :
  f <$> (l ≫= g) = l ≫= (λ x, f <$> g x).
Proof.
  induction l as [|x l IH]; [done|].
  by rewrite !bind_cons, fmap_app, IH.
Qed.

Lemma join_keys_NoDup lkeys rkeys :
  NoDup (stable_sort (key_leb true) (remove_dups (lkeys ++ rkeys))).
Proof. rewrite stable_sort_Permutation. apply NoDup_remove_dups. Qed.

Lemma join_keys_elem lkeys rkeys k :
  k ∈ stable_sort (key_leb true) (remove_dups (lkeys ++ rkeys))
  ↔ k ∈ lkeys ∨ k ∈ rkeys.
Proof.
  by rewrite stable_sort_Permutation, elem_of_remove_dups, elem_of_app.
Qed.

(** A row of the left table is in as many pairs as the right table has
    rows of its key, and in one pair when it has none. *)
Lemma outer_join_left lkeys rkeys i k :
  lkeys !! i = Some k →
  occurrences (Some i) (outer_join_indexers lkeys rkeys).*1
  = Nat.max 1 (occurrences k rkeys).
Proof.
  intros Hi. unfold outer_join_indexers. rewrite fmap_bind_list.
  rewrite (occurrences_bind _ _ _ k).
  - rewrite pair_up_left by apply NoDup_positions_of.
    rewrite decide_True by (by apply elem_of_positions_of).
    by rewrite length_positions_of.
  - apply join_keys_NoDup.
  - apply join_keys_elem. left. by eapply list_elem_of_lookup_2.
  - intros k' _ Hne. rewrite pair_up_left by apply NoDup_positions_of.
    rewrite decide_False; [done|].
    rewrite elem_of_positions_of. congruence.
Qed.

Lemma outer_join_right lkeys rkeys j k :
  rkeys !! j = Some k →
  occurrences (Some j) (outer_join_indexers lkeys rkeys).*2
  = Nat.max 1 (occurrences k lkeys).
Proof.
  intros Hj. unfold outer_join_indexers. rewrite fmap_bind_list.
  rewrite (occurrences_bind _ _ _ k).
  - rewrite pair_up_right by apply NoDup_positions_of.
    rewrite decide_True by (by apply elem_of_positions_of).
    by rewrite length_positions_of.
  - apply join_keys_NoDup.
  - apply join_keys_elem. right. by eapply list_elem_of_lookup_2.
  - intros k' _ Hne. rewrite pair_up_right by apply NoDup_positions_of.
    rewrite decide_False; [done|].
    rewrite elem_of_positions_of. congruence.
Qed.

(** The pairs of a join: each has a side, and the rows of a pair with two
    sides have the same key. *)
Lemma pair_up_elem ls rs ij :
  ij ∈ pair_up ls rs →
  match ij with
  | (Some i, Some j) => i ∈ ls ∧ j ∈ rs
  | (Some i, None) => i ∈ ls ∧ rs = []
  | (None, Some j) => j ∈ rs ∧ ls = []
  | (None, None) => False
  end.
Proof.
  destruct (decide (ls = [])) as [->|Hls].
  { rewrite pair_up_nil_l. by intros (j & -> & Hj)%list_elem_of_fmap. }
  destruct (decide (rs = [])) as [->|Hrs].
  { rewrite pair_up_nil_r. by intros (i & -> & Hi)%list_elem_of_fmap. }
  rewrite pair_up_product by done.
  intros (i & (j & ->%list_elem_of_singleton & Hj)%list_elem_of_bind & Hi)
    %list_elem_of_bind.
  done.
Qed.

Lemma outer_join_elem lkeys rkeys ij :
  ij ∈ outer_join_indexers lkeys rkeys →
  match ij with
  | (Some i, Some j) => ∃ k, lkeys !! i = Some k ∧ rkeys !! j = Some k
  | (Some i, None) => ∃ k, lkeys !! i = Some k ∧ k ∉ rkeys
  | (None, Some j) => ∃ k, rkeys !! j = Some k ∧ k ∉ lkeys
  | (None, None) => False
  end.
Proof.
  unfold outer_join_indexers.
  intros (k & Hij%pair_up_elem & _)%list_elem_of_bind.
  destruct ij as [[i|] [j|]]; [| | |done].
  - destruct Hij as [Hi%elem_of_positions_of Hj%elem_of_positions_of]. eauto.
  - destruct Hij as [Hi%elem_of_positions_of Hj%positions_of_nil]. eauto.
  - destruct Hij as [Hj%elem_of_positions_of Hi%positions_of_nil]. eauto.
Qed.

(** *** The rows [nlargest] keeps *)

Lemma StronglySorted_zip_seq {A} (l : list A) s :
  StronglySorted (λ a b : nat * A, a.1 < b.1) (zip (seq s (length l)) l).
Proof.
  revert s. induction l as [|x l IH]; intros s; simpl; constructor; [done|].
  apply Forall_forall. intros [i y] [Hi _]%elem_of_zip_seq. simpl. lia.
Qed.

Lemma numeric_elem s x : numeric s = true → x ∈ s → x = NaN ∨ ∃ q, x = Num q.
Proof.
  unfold numeric. rewrite forallb_forall. intros Hs Hx.
  apply list_elem_of_In, Hs in Hx. destruct x; try done; eauto.
Qed.

(** Two numeric values in the order of a descending sort. *)
Lemma descending_larger x y (i j : nat) :
  (x = NaN ∨ ∃ q, x = Num q) → (y = NaN ∨ ∃ q, y = Num q) →
  cell_leb false x y = true →
  (cell_leb false y x = true → i < j) →
  larger x y ∨ (x = y ∧ i < j).
Proof.
  intros [->|[a ->]] [->|[b ->]]; unfold cell_leb; simpl.
  - intros _ Hij. right. auto.
  - done.
  - intros _ _. by left.
  - rewrite !bool_decide_eq_true. intros Hba Hij.
    destruct (decide (a ≤ b)%Qc) as [Hab|Hab].
    + right. split; [|auto]. f_equal. by apply Qcle_antisym.
    + left. by apply Qcnot_le_lt.
Qed.

Lemma series_nlargest_spec (n : Z) (s : list cell) :
  numeric s = true →
  let sel := series_nlargest n s in
  NoDup sel
  ∧ Forall (λ i, i < length s) sel
  ∧ Z.of_nat (length sel) = Z.max 0 (Z.min n (Z.of_nat (length s)))
  ∧ (∀ i j, i ∈ sel → j < length s → j ∉ sel → outranks s i j)
  ∧ ((Z.of_nat (length s) ≤ n)%Z → sel ≡ₚ seq 0 (length s)).
Proof.
  intros Hnum. unfold series_nlargest. case_bool_decide as Hn; simpl.
  { split_and!; [constructor|constructor|lia|by intros ? ? ?%not_elem_of_nil|].
    intros Hlen. destruct s; [done|simpl in Hlen; lia]. }
  set (leb := λ a b : nat * cell, cell_leb false a.2 b.2).
  set (ix := zip (seq 0 (length s)) s).
  set (sorted := stable_sort leb ix).
  assert (sorted ≡ₚ ix) as Hperm by apply stable_sort_Permutation.
  assert (ix.*1 = seq 0 (length s)) as Hfst
    by (apply fst_zip; by rewrite length_seq).
  assert (sorted.*1 ≡ₚ seq 0 (length s)) as Hperm1
    by (by rewrite Hperm, Hfst).
  assert (NoDup sorted.*1) as Hnd by (rewrite Hperm1; apply NoDup_seq).
  assert (length sorted = length s) as Hlen.
  { rewrite Hperm. unfold ix. rewrite length_zip, length_seq. lia. }
  assert (StronglySorted
            (sorted_stable leb (λ a b : nat * cell, a.1 < b.1)) sorted)
    as Hsorted.
  { apply (stable_sort_stable leb _ (λ _, True)).
    - intros a b. apply cell_leb_total.
    - intros a b c _ _ _. apply cell_leb_trans.
    - by apply Forall_forall.
    - apply StronglySorted_zip_seq. }
  rewrite <-fmap_take. split_and!.
  - rewrite fmap_take. eapply sublist_NoDup; [done|apply sublist_take].
  - apply Forall_forall. intros i Hi.
    assert (i ∈ sorted.*1) as Hin.
    { rewrite fmap_take in Hi. eapply elem_of_sublist;
        [done|apply sublist_take]. }
    rewrite Hperm1 in Hin. apply elem_of_seq in Hin. lia.
  - rewrite length_fmap, length_take, Hlen. lia.
  - intros i j Hi Hj Hnot.
    apply list_elem_of_fmap in Hi as ([i' x] & -> & Ha).
    assert (j ∈ sorted.*1) as Hjin
      by (rewrite Hperm1; apply elem_of_seq; lia).
    rewrite <-(take_drop (Z.to_nat n) sorted), fmap_app, elem_of_app
      in Hjin.
    destruct Hjin as [Hjin|Hjin]; [done|].
    apply list_elem_of_fmap in Hjin as ([j' y] & -> & Hb).
    rewrite <-(take_drop (Z.to_nat n) sorted) in Hsorted.
    apply StronglySorted_app in Hsorted as (Hcross & _ & _).
    destruct (Hcross _ _ Ha Hb) as [Hle Hstable]. unfold leb in *.
    simpl in *.
    assert ((i', x) ∈ ix ∧ (j', y) ∈ ix) as [Hx Hy].
    { rewrite <-Hperm. split.
      - eapply elem_of_sublist; [done|apply sublist_take].
      - eapply elem_of_sublist; [done|apply sublist_drop]. }
    apply elem_of_zip_seq in Hx as [_ Hx], Hy as [_ Hy].
    rewrite Nat.sub_0_r in Hx, Hy.
    exists x, y. split_and!; try done.
    apply descending_larger; try done.
    + eapply numeric_elem; [done|]. by eapply list_elem_of_lookup_2.
    + eapply numeric_elem; [done|]. by eapply list_elem_of_lookup_2.
  - intros Hall. rewrite take_ge by lia. done.
Qed.

(** *** Grouping *)

Lemma nlargest_Ok n column df x :
  nlargest n column df = Ok x →
  column ∈ columns df
  ∧ numeric ((λ r, r !!! column) <$> rows df) = true
  ∧ x = take_rows df (series_nlargest n ((λ r, r !!! column) <$> rows df)).
Proof.
  unfold nlargest. intros H. inv_ok.
  match goal with H : getitem _ _ = _ |- _ =>
    apply getitem_Ok in H as [? ->] end.
  done.
Qed.

Lemma groupby_nlargest_Ok df by_ n metric applied :
  groupby_apply df by_ (nlargest n metric) = Ok applied →
  by_ ≠ [] ∧ by_ ⊆ columns df
  ∧ columns applied = filter (λ c, c ∉ by_) (columns df)
  ∧ index_names applied = (Some <$> by_) ++ index_names df
  ∧ body applied
    = group_keys df by_
        ≫= (λ k, (λ e, (k ++ e.1, e.2))
                   <$> body (top_of_group df by_ metric n k))
  ∧ Forall (λ k, metric ∈ filter (λ c, c ∉ by_) (columns df)
                 ∧ numeric ((λ r, r !!! metric)
                              <$> rows (get_group df by_ k)) = true)
           (group_keys df by_).
Proof.
  unfold groupby_apply. intros H. inv_ok.
  match goal with H : traverse _ _ = Ok ?ps |- _ =>
    rename H into Hparts; rename ps into parts end.
  apply traverse_Ok in Hparts.
  split_and!; try done.
  - simpl. induction Hparts as [|k p ks ps Hk _ IH]; [done|].
    rewrite !bind_cons, IH. f_equal. inv_ok.
    match goal with H : nlargest _ _ _ = _ |- _ =>
      apply nlargest_Ok in H as (_ & _ & ->) end.
    done.
  - induction Hparts as [|k p ks ps Hk _ IH]; constructor; [|done].
    inv_ok.
    match goal with H : nlargest _ _ _ = _ |- _ =>
      apply nlargest_Ok in H as (? & ? & _) end.
    done.
Qed.

Lemma get_top_pages_Ok data group_cols metric top_n result :
  get_top_pages data group_cols metric top_n = Ok result →
  ∃ applied dropped,
    groupby_apply data group_cols (nlargest top_n metric) = Ok applied
    ∧ dropped ⊆ ["level_1"; "level_2"]
    ∧ NoDup (level_names applied)
    ∧ Forall (λ c, c ∉ columns applied) (level_names applied)
    ∧ columns result
      = filter (λ c, c ∉ dropped) (level_names applied ++ columns applied)
    ∧ index_names result = [None]
    ∧ rows result
      = (λ e, foldr delete
                (list_to_map (zip (level_names applied) e.1) ∪ e.2) dropped)
          <$> body applied.
Proof.
  unfold get_top_pages. intros H. inv_ok.
  match goal with H : reset_index _ = Ok ?r |- _ =>
    apply reset_index_Ok in H as (Hnd & Hfresh & Hcols & Hnames & Hbody);
    rename r into reset end.
  match goal with H : groupby_apply _ _ _ = Ok ?a |- _ =>
    rename a into applied end.
  assert (rows reset
          = (λ e, list_to_map (zip (level_names applied) e.1) ∪ e.2)
              <$> body applied) as Hrows
    by (unfold rows; by rewrite Hbody, rows_imap).
  assert (∀ d r, drop reset d = Ok r →
    columns r = filter (λ c, c ∉ d) (level_names applied ++ columns applied)
    ∧ index_names r = [None]
    ∧ rows r = (λ e, foldr delete
                  (list_to_map (zip (level_names applied) e.1) ∪ e.2) d)
               <$> body applied) as Hdrop.
  { intros d r Hr. unfold drop in Hr. inv_ok. simpl.
    rewrite Hcols, Hnames. split_and!; try done.
    trans ((λ r, foldr delete r d) <$> rows reset).
    - unfold rows. cbn [body]. by rewrite <-!list_fmap_compose.
    - by rewrite Hrows, <-list_fmap_compose. }
  exists applied. repeat case_bool_decide.
  - exists ["level_2"]. destruct (Hdrop _ _ H) as (? & ? & ?).
    split_and!; try done. set_solver.
  - exists ["level_1"]. destruct (Hdrop _ _ H) as (? & ? & ?).
    split_and!; try done. set_solver.
  - exists []. inv_ok. split_and!; try done.
    + set_solver.
    + rewrite Hcols. generalize (level_names applied ++ columns applied).
      intros l. induction l as [|c l IH]; [done|].
      rewrite filter_cons_True by apply not_elem_of_nil. by f_equal.
Qed.
(** *** The rows of [get_top_pages] *)

Lemma lookup_total_foldr_delete (r : gmap string cell) (cols : list string) c :
  c ∉ cols → foldr delete r cols !!! c = r !!! c.
Proof.
  induction cols as [|d cols IH]; [done|].
  intros [Hd Hc]%not_elem_of_cons. simpl.
  rewrite lookup_total_delete_ne by done. by apply IH.
Qed.

Lemma imap_default_Some (f : nat → string) (l : list string) :
  imap (λ i name, default (f i) name) (Some <$> l) = l.
Proof.
  revert f. induction l as [|c l IH]; intros f; [done|].
  simpl. f_equal. apply IH.
Qed.

(** The grouping columns are the first index levels of the stacked groups,
    and [reset_index] names them so. *)
Lemma level_names_groups df (by_ : list string) levels :
  by_ ≠ [] → index_names df = (Some <$> by_) ++ levels →
  ∃ others, level_names df = by_ ++ others.
Proof.
  intros Hby Hnames. unfold level_names. rewrite Hnames.
  destruct by_ as [|c cs]; [done|]. destruct cs as [|c' cs].
  - destruct levels as [|l levels]; simpl.
    + by exists [].
    + eexists. done.
  - change (∃ others,
              imap (λ i name, default ("level_" +:+ pretty i) name)
                   ((Some <$> c :: c' :: cs) ++ levels)
              = (c :: c' :: cs) ++ others).
    rewrite imap_app. eexists. f_equal.
    apply (imap_default_Some (λ i, "level_" +:+ pretty i)).
Qed.

Lemma zip_graph {A B} (f : A → B) (l : list A) :
  zip l (f <$> l) = (λ x, (x, f x)) <$> l.
Proof. induction l as [|x l IH]; [done|]. simpl. by f_equal. Qed.

(** A row of the result has the cells of the row it comes from. *)
Lemma top_row_lookup (by_ others dropped : list string) (label : list cell)
    (r : gmap string cell) c :
  c ∉ dropped → (c ∈ by_ ∨ c ∉ by_ ++ others) →
  foldr delete
    (list_to_map (zip (by_ ++ others) (row_key by_ r ++ label))
     ∪ foldr delete r by_) dropped !!! c
  = r !!! c.
Proof.
  intros Hdrop Hc. rewrite lookup_total_foldr_delete by done.
  rewrite !lookup_total_alt. unfold row_key.
  rewrite zip_with_app by (by rewrite length_fmap).
  destruct (decide (c ∈ by_)) as [Hin|Hout].
  - rewrite zip_graph.
    erewrite lookup_union_Some_l; [|by apply list_to_map_graph].
    by rewrite lookup_total_alt.
  - destruct Hc as [?|Hc]; [done|].
    rewrite <-zip_with_app by (by rewrite length_fmap).
    rewrite lookup_with_index by done.
    rewrite <-!lookup_total_alt. by apply lookup_total_foldr_delete.
Qed.

Lemma filter_fmap {A B} (f : A → B) (P : B → Prop) `{∀ x, Decision (P x)}
    (l : list A) :
  filter P (f <$> l) = f <$> filter (λ x, P (f x)) l.
Proof.
  induction l as [|x l IH]; [done|]. simpl.
  rewrite !filter_cons. simpl. destruct (decide (P (f x))); simpl; by f_equal.
Qed.

Lemma group_rows_body df by_ k :
  group_rows df by_ k
  = (filter (λ e, group_key by_ e.2 = Some k) (body df)).*2.
Proof. unfold group_rows, rows. by rewrite filter_fmap. Qed.

Lemma group_key_Some by_ r k :
  group_key by_ r = Some k → k = row_key by_ r.
Proof. unfold group_key. case_bool_decide; congruence. Qed.

Lemma group_keys_elem df by_ k :
  k ∈ group_keys df by_ ↔ group_rows df by_ k ≠ [].
Proof.
  unfold group_keys. rewrite stable_sort_Permutation, elem_of_remove_dups.
  rewrite list_elem_of_omap, group_rows_body. split.
  - intros (e & He & Hk) Hnil. apply fmap_nil_inv in Hnil.
    assert (e ∈ filter (λ e, group_key by_ e.2 = Some k) (body df)) as Hin
      by (by apply list_elem_of_filter).
    rewrite Hnil in Hin. by apply not_elem_of_nil in Hin.
  - intros Hne.
    destruct (filter (λ e, group_key by_ e.2 = Some k) (body df))
      as [|e l] eqn:Hf; [done|].
    assert (e ∈ filter (λ e, group_key by_ e.2 = Some k) (body df)) as Hin
      by (rewrite Hf; left).
    apply list_elem_of_filter in Hin as [? ?]. by exists e.
Qed.

Lemma group_keys_NoDup df by_ : NoDup (group_keys df by_).
Proof.
  unfold group_keys. rewrite stable_sort_Permutation. apply NoDup_remove_dups.
Qed.

(** The metric column of a group, with or without the grouping columns. *)
Lemma get_group_metric df by_ k metric :
  metric ∉ by_ →
  (λ r, r !!! metric) <$> rows (get_group df by_ k)
  = (λ r : gmap string cell, r !!! metric) <$> group_rows df by_ k.
Proof.
  intros Hm. rewrite group_rows_body. unfold rows, get_group. cbn [body].
  rewrite <-!list_fmap_compose. apply list_fmap_ext. intros i e _. simpl.
  by apply lookup_total_foldr_delete.
Qed.

(** The rows of one group in the result, against the rows selected in the
    table. *)
Lemma top_of_group_rows (R : gmap string cell → gmap string cell → Prop)
    (final : list cell * gmap string cell → gmap string cell)
    df by_ metric n k :
  metric ∉ by_ →
  (∀ label r, group_key by_ r = Some k →
              R (final (k ++ label, foldr delete r by_)) r) →
  Forall2 R
    (final <$> ((λ e, (k ++ e.1, e.2))
                  <$> body (top_of_group df by_ metric n k)))
    (omap (λ i, group_rows df by_ k !! i)
          (series_nlargest n ((λ r, r !!! metric) <$> group_rows df by_ k))).
Proof.
  intros Hm HR. unfold top_of_group, take_rows. cbn [body].
  rewrite get_group_metric by done.
  generalize (series_nlargest n
                ((λ r, r !!! metric) <$> group_rows df by_ k)).
  intros sel. rewrite group_rows_body. unfold get_group. cbn [body].
  induction sel as [|i sel IH]; [constructor|]. simpl.
  rewrite !list_lookup_fmap.
  destruct (filter (λ e, group_key by_ e.2 = Some k) (body df) !! i)
    as [[label r]|] eqn:Hi; simpl; [|done].
  constructor; [|done]. apply HR.
  apply list_elem_of_lookup_2, list_elem_of_filter in Hi as [? _]. done.
Qed.

(** The result of [get_top_pages], row by row: group after group in the
    order of the keys, the rows [nlargest] selects in the group, each with
    the cells it has in the table. *)
Lemma get_top_pages_rows data group_cols metric top_n result :
  get_top_pages data group_cols metric top_n = Ok result →
  ∃ dropped,
    dropped ⊆ ["level_1"; "level_2"]
    ∧ Forall2 (λ r' r, ∀ c, c ∈ columns data → c ∉ dropped →
                            r' !!! c = r !!! c)
        (rows result)
        (group_keys data group_cols ≫= λ k,
           omap (λ i, group_rows data group_cols k !! i)
                (series_nlargest top_n
                   ((λ r, r !!! metric) <$> group_rows data group_cols k))).
Proof.
  intros (applied & dropped & Happ & Hsub & _ & Hfresh & _ & _ & Hrows)
    %get_top_pages_Ok.
  apply groupby_nlargest_Ok in Happ
    as (Hby & _ & Hcols & Hidx & Hbody & Hall).
  destruct (level_names_groups _ _ _ Hby Hidx) as [others Hnames].
  exists dropped. split; [done|].
  rewrite Hrows, Hbody, fmap_bind_list.
  apply Forall2_bind, Forall_Forall2_diag.
  eapply Forall_impl; [exact Hall|]. simpl.
  intros k [[Hm _]%list_elem_of_filter _].
  apply top_of_group_rows; [done|].
  intros label r Hk%group_key_Some c Hc Hdrop. subst k. simpl.
  rewrite Hnames. apply top_row_lookup; [done|].
  destruct (decide (c ∈ group_cols)) as [?|Hout]; [by left|right].
  rewrite <-Hnames. rewrite Forall_forall in Hfresh.
  intros Hin. apply (Hfresh _ Hin). rewrite Hcols.
  by apply list_elem_of_filter.
Qed.

Lemma omap_lookup_length {A} (l : list A) (sel : list nat) :
  Forall (λ i, i < length l) sel →
  length (omap (λ i, l !! i) sel) = length sel.
Proof.
  induction 1 as [|i sel Hi _ IH]; [done|]. simpl.
  destruct (lookup_lt_is_Some_2 l i Hi) as [x ->]. simpl. by f_equal.
Qed.

Lemma omap_lookup_seq {A} (l : list A) :
  omap (λ i, l !! i) (seq 0 (length l)) = l.
Proof.
  assert (∀ pre : list A,
            omap (λ i, (pre ++ l) !! i) (seq (length pre) (length l)) = l)
    as Hpre; [|apply (Hpre [])].
  induction l as [|x l IH]; intros pre; [done|]. simpl.
  rewrite list_lookup_middle by done. simpl. f_equal.
  specialize (IH (pre ++ [x])).
  rewrite <-app_assoc, length_app in IH. simpl in IH.
  by rewrite Nat.add_1_r in IH.
Qed.

(** ** The claims *)

(** C1 (as amended). For every table, grouping columns, metric and integer
    [top_n] for which [get_top_pages] returns: the result is made, group
    after group, of the rows [nlargest] selects in the group, each with the
    cells it has in the table.  Of a group, max(0, min([top_n], size of the
    group)) rows are selected, which is min([top_n], size) when [top_n] is
    not negative and none when it is; a selected row has a larger metric
    value than every row of the group that is not selected, or the same
    value and an earlier place in the table; a group with at most [top_n]
    rows contributes all its rows. *)
Theorem top_pages_per_group data group_cols metric top_n result :
  get_top_pages data group_cols metric top_n = Ok result →
  let group := group_rows data group_cols in
  let values k := (λ r : gmap string cell, r !!! metric) <$> group k in
  let top k := series_nlargest top_n (values k) in
  let selected k := omap (λ i, group k !! i) (top k) in
  (∀ k, k ∈ group_keys data group_cols ↔ group k ≠ [])
  ∧ NoDup (group_keys data group_cols)
  ∧ (∃ dropped,
       dropped ⊆ ["level_1"; "level_2"]
       ∧ Forall2 (λ r' r, ∀ c, c ∈ columns data → c ∉ dropped →
                               r' !!! c = r !!! c)
           (rows result) (group_keys data group_cols ≫= selected))
  ∧ (∀ k, k ∈ group_keys data group_cols →
       Z.of_nat (length (selected k))
       = Z.max 0 (Z.min top_n (Z.of_nat (length (group k))))
       ∧ ((0 ≤ top_n)%Z →
          Z.of_nat (length (selected k))
          = Z.min top_n (Z.of_nat (length (group k))))
       ∧ ((top_n ≤ 0)%Z → selected k = [])
       ∧ NoDup (top k)
       ∧ (∀ i j, i ∈ top k → j < length (group k) → j ∉ top k →
                 outranks (values k) i j)
       ∧ ((Z.of_nat (length (group k)) ≤ top_n)%Z →
          selected k ≡ₚ group k)).
Proof.
  intros Hok group values top selected.
  split; [intros k; apply group_keys_elem|].
  split; [apply group_keys_NoDup|].
  split; [by apply get_top_pages_rows|].
  intros k Hk.
  pose proof Hok as (applied & _ & Happ & _)%get_top_pages_Ok.
  apply groupby_nlargest_Ok in Happ as (_ & _ & _ & _ & _ & Hall).
  rewrite Forall_forall in Hall.
  destruct (Hall k Hk) as [[Hm _]%list_elem_of_filter Hnum].
  rewrite get_group_metric in Hnum by done.
  destruct (series_nlargest_spec top_n _ Hnum)
    as (Hnd & Hlt & Hlen & Hrank & Hfull).
  rewrite length_fmap in Hlt, Hlen, Hrank, Hfull.
  assert (length (selected k) = length (top k)) as Hsel
    by (by apply omap_lookup_length).
  split_and!.
  - by rewrite Hsel.
  - intros Hn. rewrite Hsel. unfold top, values, group. lia.
  - intros Hn. apply nil_length_inv. unfold top, values, group in Hsel. lia.
  - done.
  - done.
  - intros Hn. unfold selected, top, values, group.
    rewrite (Hfull Hn). by rewrite omap_lookup_seq.
Qed.

(** C6 (as amended). For every row the report writer emits, the percent
    change of the conversions is computed without a division by zero:
    [generate_markdown] never raises [ZeroDivisionError].  Month over month
    as well as year over year, when the previous-period value is not zero
    the value is (difference / previous-period value) × 100 in double
    precision: the quotient is rounded to a nearest [float], multiplied by
    100 and rounded again to a nearest [float]; it is the exact value when
    the exact quotient and its product by 100 are [float]s.  When the
    previous-period value is zero the value is 100 for a positive
    difference and 0 for any other. *)
Theorem conversions_percent_change data output_file w row v dm pm dy py :
  row_locals row = Ok v →
  conv_mom_diff v = Num dm → prev_conv_mom v = Num pm →
  conv_yoy_diff v = Num dy → prev_conv_yoy v = Num py →
  (generate_markdown data output_file w).1 ≠ Raise ZeroDivisionError
  ∧ row_locals row ≠ Raise ZeroDivisionError
  ∧ (pm ≠ 0%Qc → ∃ ratio pct,
       binary64 (dm / pm) = Some ratio
       ∧ nearest_float (dm / pm) ratio
       ∧ binary64 (ratio * Qc_of_Z 100) = Some pct
       ∧ nearest_float (ratio * Qc_of_Z 100) pct
       ∧ conv_pct_change_mom v = Num pct)
  ∧ (py ≠ 0%Qc → ∃ ratio pct,
       binary64 (dy / py) = Some ratio
       ∧ nearest_float (dy / py) ratio
       ∧ binary64 (ratio * Qc_of_Z 100) = Some pct
       ∧ nearest_float (ratio * Qc_of_Z 100) pct
       ∧ conv_pct_change_yoy v = Num pct)
  ∧ (binary64 (dm / pm) = Some (dm / pm)%Qc →
     binary64 (dm / pm * Qc_of_Z 100) = Some (dm / pm * Qc_of_Z 100)%Qc →
     conv_pct_change_mom v = Num (percent_change dm pm))
  ∧ (binary64 (dy / py) = Some (dy / py)%Qc →
     binary64 (dy / py * Qc_of_Z 100) = Some (dy / py * Qc_of_Z 100)%Qc →
     conv_pct_change_yoy v = Num (percent_change dy py))
  ∧ (pm = 0%Qc →
     conv_pct_change_mom v
     = Num (if decide (0 < dm)%Qc then Qc_of_Z 100 else Qc_of_Z 0))
  ∧ (py = 0%Qc →
     conv_pct_change_yoy v
     = Num (if decide (0 < dy)%Qc then Qc_of_Z 100 else Qc_of_Z 0)).
Proof.
  intros Hv Hdm Hpm Hdy Hpy.
  split; [apply never_divides_by_zero_generate_markdown|].
  split; [by rewrite Hv|].
  assert (∀ d p c, pct_change (Num d) (Num p) = Ok c →
            (binary64 (d / p) = Some (d / p)%Qc →
             binary64 (d / p * Qc_of_Z 100) = Some (d / p * Qc_of_Z 100)%Qc →
             c = Num (percent_change d p))
            ∧ (p = 0%Qc →
               c = Num (if decide (0 < d)%Qc
                        then Qc_of_Z 100 else Qc_of_Z 0))) as Hexact.
  { intros d p c [Hne Hzero]%pct_change_Ok.
    destruct (decide (p = 0%Qc)) as [Hp|Hp].
    - rewrite (Hzero Hp). unfold percent_change. rewrite decide_True by done.
      done.
    - split; [|done]. intros Hq Hm.
      destruct (Hne Hp) as (ratio & pct & Hratio & _ & Hpct & _ & ->).
      rewrite Hq in Hratio. injection Hratio as <-.
      rewrite Hm in Hpct. injection Hpct as <-.
      unfold percent_change. by rewrite decide_False. }
  unfold row_locals in Hv. inv_ok. simpl in *. subst.
  rewrite Hdm, Hdy in *.
  repeat match goal with
  | H : pct_change (Num _) (Num _) = Ok _ |- _ =>
      pose proof (Hexact _ _ _ H) as [? ?];
      apply pct_change_Ok in H as [? _]
  end.
  split_and!; done.
Qed.


(** C10. [generate_markdown] leaves the table it is given unchanged,
    whatever the table, the output path and the outcome: the filter builds
    a new table, which is copied, and the column assignment of the sort
    changes the copy. Every other table of the store is unchanged too. *)
Theorem generate_markdown_keeps_input data output_file w :
  heap (generate_markdown data output_file w).2 !! data = heap w !! data
  ∧ extends w (generate_markdown data output_file w).2.
Proof.
  pose proof (generate_markdown_extends data output_file w) as Hext.
  split; [|done].
  destruct (heap w !! data) as [df|] eqn:Hdata.
  - destruct Hext as [_ Hun]. rewrite Hun; [done| |set_solver].
    apply elem_of_dom. by exists df.
  - unfold generate_markdown, mbind, M_bind, deref. by rewrite Hdata.
Qed.

(** C4. Whatever the order of the rows of the table given to
    [generate_markdown], the program sections of the report are the
    programs of the official order that have a row passing the low-traffic
    filter, in that order (the others are skipped), and every line of the
    report is the line of a row of a program of the official order, under
    the header of that program: no other program appears. *)
Theorem report_sections_follow_program_order data output_file w w' df cs :
  generate_markdown data output_file w = (Ok tt, w') →
  heap w !! data = Some df →
  files w' !! output_file = Some cs →
  headers cs = display_name <$> filter (survives df) PROGRAM_ORDER
  ∧ headers cs `sublist_of` (display_name <$> PROGRAM_ORDER)
  ∧ Forall (λ l, ∃ p r, p ∈ PROGRAM_ORDER ∧ line_of_row df l p r)
           (report_lines cs)
  ∧ (∀ df', rows df' ≡ₚ rows df →
       filter (survives df') PROGRAM_ORDER
       = filter (survives df) PROGRAM_ORDER).
Proof.
  intros Hrun Hdf Hcs.
  destruct (generate_markdown_report _ _ _ _ _ _ Hrun Hdf Hcs)
    as [Hheaders Hlines].
  split_and!.
  - done.
  - rewrite Hheaders. apply fmap_sublist, sublist_filter.
  - eapply Forall_impl; [exact Hlines|]. simpl.
    intros l (p & r & Hp & _ & Hl). eauto.
  - intros df' Hperm. apply filter_ext_in. intros p _.
    unfold survives. rewrite !Exists_exists.
    split; intros (r & Hr & ?); exists r; (split; [|done]).
    + by rewrite <-Hperm.
    + by rewrite Hperm.
Qed.

(** C5. No row with 20 sessions or fewer, month over month, is in the
    report of [generate_markdown]: every bullet has a session count above
    20, and every line is the line of a row of the table whose
    [Session_mom] is above 20. *)
Theorem low_traffic_rows_are_dropped data output_file w w' df cs :
  generate_markdown data output_file w = (Ok tt, w') →
  heap w !! data = Some df →
  files w' !! output_file = Some cs →
  (∀ pg s, BulletHead pg s ∈ cs →
           ∃ q, s = Num q ∧ (Qc_of_Z 20 < q)%Qc ∧ ¬ (q ≤ Qc_of_Z 20)%Qc)
  ∧ Forall (λ l, ∃ p r q, line_of_row df l p r
                          ∧ r !! "Session_mom" = Some (Num q)
                          ∧ line_sessions l = Num q
                          ∧ (Qc_of_Z 20 < q)%Qc) (report_lines cs).
Proof.
  intros Hrun Hdf Hcs.
  destruct (generate_markdown_report _ _ _ _ _ _ Hrun Hdf Hcs)
    as [_ Hlines].
  assert (Forall (λ l, ∃ p r q, line_of_row df l p r
                          ∧ r !! "Session_mom" = Some (Num q)
                          ∧ line_sessions l = Num q
                          ∧ (Qc_of_Z 20 < q)%Qc) (report_lines cs)) as Hall.
  { eapply Forall_impl; [exact Hlines|]. simpl.
    intros l (p & r & _ & Ht & Hl). unfold has_traffic in Ht.
    destruct (r !! "Session_mom") as [[|q| |]|] eqn:Hr; try done.
    exists p, r, q. split_and!; try done.
    destruct Hl as (_ & _ & _ & _ & -> & _).
    by rewrite lookup_total_alt, Hr. }
  split; [|done].
  intros pg s (l & Hl & _ & <-)%(bullet_is_line _ _ _ None None).
  rewrite Forall_forall in Hall.
  destruct (Hall l Hl) as (_ & _ & q & _ & _ & -> & Hq).
  exists q. split_and!; [done|done|]. by apply Qclt_not_le.
Qed.


(** C3 (as amended). The summary keeps every joined row: a row whose
    program is outside the official order is not dropped, its program
    becomes missing.  The program cell of every row of the summary is a
    program of the official order or missing, and the rows are ordered by
    the position of the program in the official order, the missing
    programs last, and by channel within a program. *)
Theorem summary_sorted_by_program mom_data yoy_data w l w' mom yoy :
  summarize_data mom_data yoy_data w = (Ok l, w') →
  heap w !! mom_data = Some mom →
  heap w !! yoy_data = Some yoy →
  ∃ merged summary,
    merge mom yoy join_columns ("_mom", "_yoy") = Ok merged
    ∧ heap w' !! l = Some summary
    ∧ length (rows summary) = length (rows merged)
    ∧ rows summary
      ≡ₚ imap (λ p ij, list_to_map (zip (level_names merged) (RangeIndex p))
                       ∪ summary_row mom yoy (columns merged) ij)
           (outer_join_indexers (row_key join_columns <$> rows mom)
                                (row_key join_columns <$> rows yoy))
    ∧ Forall (λ r, recoded (r !!! "program_category")) (rows summary)
    ∧ StronglySorted summary_order (rows summary).
Proof.
  intros Hrun Hmom Hyoy.
  destruct (summarize_data_Ok _ _ _ _ _ _ _ Hrun Hmom Hyoy)
    as (merged & summary & Hm & Hs & Hl & _).
  exists merged, summary.
  destruct (program_sorted_order _ _ Hs) as [Hsorted Hrecoded].
  pose proof (summary_rows _ _ _ _ Hm Hs) as Hperm.
  split_and!; try done.
  rewrite Hperm, length_imap.
  apply merge_Ok in Hm as (_ & _ & _ & _ & _ & Hbody).
  unfold rows. by rewrite Hbody, length_fmap, length_imap.
Qed.

(** C8 (as amended). The outer join of [summarize_data] covers both ranked
    tables: the rows of the summary are the pairs of the join, each made of
    a row of one table and a row of the other with the same (program,
    channel, landing page), or of a single row; a row is in one pair when
    the other table has at most one row of its triple, and otherwise in as
    many pairs as the other table has rows of that triple. *)
Theorem outer_join_covers_every_row mom_data yoy_data w l w' mom yoy :
  summarize_data mom_data yoy_data w = (Ok l, w') →
  heap w !! mom_data = Some mom →
  heap w !! yoy_data = Some yoy →
  let mom_keys := row_key join_columns <$> rows mom in
  let yoy_keys := row_key join_columns <$> rows yoy in
  let pairs := outer_join_indexers mom_keys yoy_keys in
  ∃ merged summary,
    merge mom yoy join_columns ("_mom", "_yoy") = Ok merged
    ∧ heap w' !! l = Some summary
    ∧ rows summary
      ≡ₚ imap (λ p ij, list_to_map (zip (level_names merged) (RangeIndex p))
                       ∪ summary_row mom yoy (columns merged) ij) pairs
    ∧ (∀ i k, mom_keys !! i = Some k →
         occurrences (Some i) pairs.*1 = Nat.max 1 (occurrences k yoy_keys)
         ∧ (occurrences k yoy_keys ≤ 1 → occurrences (Some i) pairs.*1 = 1))
    ∧ (∀ j k, yoy_keys !! j = Some k →
         occurrences (Some j) pairs.*2 = Nat.max 1 (occurrences k mom_keys)
         ∧ (occurrences k mom_keys ≤ 1 → occurrences (Some j) pairs.*2 = 1))
    ∧ Forall (λ ij, match ij with
                    | (Some i, Some j) =>
                        ∃ k, mom_keys !! i = Some k ∧ yoy_keys !! j = Some k
                    | (Some i, None) =>
                        ∃ k, mom_keys !! i = Some k ∧ k ∉ yoy_keys
                    | (None, Some j) =>
                        ∃ k, yoy_keys !! j = Some k ∧ k ∉ mom_keys
                    | (None, None) => False
                    end) pairs.
Proof.
  intros Hrun Hmom Hyoy mom_keys yoy_keys pairs.
  destruct (summarize_data_Ok _ _ _ _ _ _ _ Hrun Hmom Hyoy)
    as (merged & summary & Hm & Hs & Hl & _).
  exists merged, summary. split_and!; try done.
  - apply (summary_rows _ _ _ _ Hm Hs).
  - intros i k Hi. unfold pairs.
    rewrite (outer_join_left _ _ _ _ Hi). split; [done|lia].
  - intros j k Hj. unfold pairs.
    rewrite (outer_join_right _ _ _ _ Hj). split; [done|lia].
  - apply Forall_forall. intros ij Hij. by apply outer_join_elem.
Qed.

(** C9. A (program, channel, landing page) triple that only the
    year-over-year table has never produces a line of the report: the
    summary row of a pair without a month-over-month row has its
    [Session_mom] filled with zero, which fails the low-traffic filter, so
    that every line of the report is the line of a row of the
    month-over-month table. *)
Theorem yoy_only_pages_never_reported
    mom_data yoy_data w summary_data w1 output_file w2 mom yoy cs p ch pg :
  summarize_data mom_data yoy_data w = (Ok summary_data, w1) →
  heap w !! mom_data = Some mom →
  heap w !! yoy_data = Some yoy →
  generate_markdown summary_data output_file w1 = (Ok tt, w2) →
  files w2 !! output_file = Some cs →
  "Session" ∈ columns mom → "Session" ∈ columns yoy →
  has_triple yoy p ch pg → ¬ has_triple mom p ch pg →
  Forall (λ l, ¬ reports_triple l p ch pg) (report_lines cs)
  ∧ Forall (λ l, ∃ p' ch', line_program l = Some p'
                           ∧ line_channel l = Some ch'
                           ∧ has_triple mom p' ch' (line_page l))
           (report_lines cs)
  ∧ (∀ cols ij, "Session_mom" ∈ cols →
       ij.1 ≫= (λ i, rows mom !! i) = None →
       summary_row mom yoy cols ij !! "Session_mom" = Some (int 0)).
Proof.
  intros Hsum Hmom Hyoy Hrun Hcs HSm HSy _ Hno.
  destruct (summarize_data_Ok _ _ _ _ _ _ _ Hsum Hmom Hyoy)
    as (merged & summary & Hm & Hs & Hl & _).
  destruct (generate_markdown_report _ _ _ _ _ _ Hrun Hl Hcs)
    as [_ Hlines].
  assert (Forall (λ l, ∃ p' ch', line_program l = Some p'
                           ∧ line_channel l = Some ch'
                           ∧ has_triple mom p' ch' (line_page l))
           (report_lines cs)) as Hall.
  { eapply Forall_impl; [exact Hlines|]. simpl.
    intros l (p' & r & _ & Ht & Hr & Hprog & Hlp & (ch' & Hlc & Hch)
              & _ & Hpage).
    pose proof Hr as (pos & ij & Hij & Heq)%(summary_elem _ _ _ _ _ Hm Hs).
    destruct (summary_row_with_traffic _ _ _ _ _ _ _ _ Hm Hs HSm HSy Hij
                Heq Ht) as (mr & Hmr & Hpc & Hdc & Hpg).
    exists p', ch'. split_and!; try done.
    exists mr. split_and!; try done.
    - unfold in_program in *. rewrite Hpc in Hprog.
      by eapply cell_text_categorize.
    - by rewrite <-Hdc.
    - rewrite Hpage, Hpg; [done|].
      pose proof Hs as (_ & _ & _ & _ & -> & _)%program_sorted_Ok.
      apply elem_of_app. right.
      apply (join_column_merged _ _ _ _ Hm). compute_done. }
  split_and!.
  - eapply Forall_impl; [exact Hall|]. simpl.
    intros l (p' & ch' & Hp' & Hch' & Htriple) (Hp & Hch & Hpg).
    apply Hno. rewrite Hp in Hp'. rewrite Hch in Hch'.
    injection Hp' as <-. injection Hch' as <-. by rewrite <-Hpg.
  - done.
  - intros cols ij Hcols Hleft.
    rewrite summary_row_designated by (done || compute_done).
    assert (merged_row mom yoy join_columns ("_mom", "_yoy") ij
              !! "Session_mom" = Some NaN) as Hnan.
    { pose proof (merged_row_no_left mom yoy join_columns ("_mom", "_yoy")
                    ij "Session" Hleft) as H.
      rewrite suffixed_shared in H by (done || compute_done).
      apply H; (done || compute_done). }
    by rewrite lookup_total_alt, Hnan.
Qed.

(** ** The claims on the sample tables *)

Lemma has_triple_Exists df p ch pg :
  has_triple df p ch pg
  ↔ Exists (λ r, in_program p r
                 ∧ eqb (r !!! "default_channel") ch = true
                 ∧ r !!! "Landing_page" = pg) (rows df).
Proof.
  unfold has_triple. rewrite Exists_exists.
  split; intros (r & ? & ?); exists r; tauto.
Qed.

(** *** Runs on closed inputs

    A run is evaluated as far as its outcome; what it leaves behind is
    named by projection. *)

Lemma Ok_value {A} (r : result A) (d : A) :
  is_Ok r = true → r = Ok (value d r).
Proof. by destruct r. Qed.

Lemma run_returns {A} (m : result A * world) (a : A) :
  m.1 = Ok a → m = (Ok a, m.2).
Proof. destruct m as [r w]. simpl. by intros ->. Qed.

Lemma Some_default {A} (o : option A) (d : A) :
  is_Some o → o = Some (default d o).
Proof. by intros [x ->]. Qed.

Ltac by_decision :=
  lazymatch goal with
  | |- ?P => apply (bool_decide_eq_true_1 P); reflexivity
  end.

Ltac returns :=
  lazymatch goal with
  | |- ?m = (Ok ?a, _) => exact (run_returns m a eq_refl)
  end.

Ltac returns_value d :=
  lazymatch goal with
  | |- ?r = Ok _ => exact (Ok_value r d eq_refl)
  end.

Ltac found d :=
  lazymatch goal with
  | |- ?o = Some _ => refine (Some_default o d _); by_decision
  end.

(** The ranking of the sample month-over-month table. *)
Lemma top_pages_per_group_sample :
  get_top_pages mom_table program_channel "Session" 3
  = Ok (ranked 3 mom_table)
  ∧ NoDup (group_keys mom_table program_channel)
  ∧ ∃ dropped,
      dropped ⊆ ["level_1"; "level_2"]
      ∧ Forall2 (λ r' r, ∀ c, c ∈ columns mom_table → c ∉ dropped →
                              r' !!! c = r !!! c)
          (rows (ranked 3 mom_table))
          (group_keys mom_table program_channel ≫= λ k,
             omap (λ i, group_rows mom_table program_channel k !! i)
                  (series_nlargest 3
                     ((λ r : gmap string cell, r !!! "Session")
                        <$> group_rows mom_table program_channel k))).
Proof.
  assert (get_top_pages mom_table program_channel "Session" 3
          = Ok (ranked 3 mom_table)) as Hok
    by returns_value mom_table.
  split; [exact Hok|].
  pose proof (top_pages_per_group _ _ _ _ _ Hok) as (_ & Hnd & Hrows & _).
  split; [exact Hnd|exact Hrows].
Defined.

(** The percent changes of a row with 63 conversions, 23 more than the
    month before and 21 more than the year before: 23 over 40 is rounded
    twice, 21 over 42 is exactly 50 percent. *)
Lemma conversions_percent_change_sample :
  row_locals rounded_line = Ok rounded_line_locals
  ∧ (generate_markdown summary_data "report.md" summary_world).1
    ≠ Raise ZeroDivisionError
  ∧ (∃ ratio pct,
       binary64 (Qc_of_Z 23 / (Qc_of_Z 63 - Qc_of_Z 23)) = Some ratio
       ∧ nearest_float (Qc_of_Z 23 / (Qc_of_Z 63 - Qc_of_Z 23)) ratio
       ∧ binary64 (ratio * Qc_of_Z 100) = Some pct
       ∧ nearest_float (ratio * Qc_of_Z 100) pct
       ∧ conv_pct_change_mom rounded_line_locals = Num pct)
  ∧ conv_pct_change_yoy rounded_line_locals
    = Num (percent_change (Qc_of_Z 21) (Qc_of_Z 63 - Qc_of_Z 21)).
Proof.
  assert (row_locals rounded_line = Ok rounded_line_locals) as Hv
    by reflexivity.
  assert (Qc_of_Z 63 - Qc_of_Z 23 ≠ 0)%Qc as Hpm by by_decision.
  assert (binary64 (Qc_of_Z 21 / (Qc_of_Z 63 - Qc_of_Z 21))
          = Some (Qc_of_Z 21 / (Qc_of_Z 63 - Qc_of_Z 21))%Qc) as Hhalf
    by by_decision.
  assert (binary64 (Qc_of_Z 21 / (Qc_of_Z 63 - Qc_of_Z 21) * Qc_of_Z 100)
          = Some (Qc_of_Z 21 / (Qc_of_Z 63 - Qc_of_Z 21) * Qc_of_Z 100)%Qc)
    as Hfifty by by_decision.
  split; [exact Hv|].
  pose proof (conversions_percent_change summary_data "report.md"
                summary_world rounded_line rounded_line_locals
                (Qc_of_Z 23) (Qc_of_Z 63 - Qc_of_Z 23)
                (Qc_of_Z 21) (Qc_of_Z 63 - Qc_of_Z 21)
                Hv eq_refl eq_refl eq_refl eq_refl)
    as (Hrun & _ & Hmom & _ & _ & Hyoy & _).
  split; [exact Hrun|]. split; [exact (Hmom Hpm)|exact (Hyoy Hhalf Hfifty)].
Defined.


(** The report of the sample summary has the sections of its two
    programs. *)
Lemma report_sections_follow_program_order_sample :
  generate_markdown summary_data "report.md" summary_world
  = (Ok tt, report_world)
  ∧ headers report_file
    = display_name <$> filter (survives summary_table) PROGRAM_ORDER
  ∧ headers report_file `sublist_of` (display_name <$> PROGRAM_ORDER).
Proof.
  assert (generate_markdown summary_data "report.md" summary_world
          = (Ok tt, report_world)) as Hrun
    by returns.
  assert (heap summary_world !! summary_data = Some summary_table) as Hdf
    by found mom_table.
  assert (files report_world !! "report.md" = Some report_file) as Hcs
    by found (@nil chunk).
  split; [exact Hrun|].
  pose proof (report_sections_follow_program_order _ _ _ _ _ _
                Hrun Hdf Hcs) as (Hheaders & Hsub & _).
  split; [exact Hheaders|exact Hsub].
Defined.

(** Every bullet of the sample report has more than 20 sessions. *)
Lemma low_traffic_rows_are_dropped_sample :
  generate_markdown summary_data "report.md" summary_world
  = (Ok tt, report_world)
  ∧ ∀ pg s, BulletHead pg s ∈ report_file →
            ∃ q, s = Num q ∧ (Qc_of_Z 20 < q)%Qc ∧ ¬ (q ≤ Qc_of_Z 20)%Qc.
Proof.
  assert (generate_markdown summary_data "report.md" summary_world
          = (Ok tt, report_world)) as Hrun
    by returns.
  assert (heap summary_world !! summary_data = Some summary_table) as Hdf
    by found mom_table.
  assert (files report_world !! "report.md" = Some report_file) as Hcs
    by found (@nil chunk).
  split; [exact Hrun|].
  pose proof (low_traffic_rows_are_dropped _ _ _ _ _ _ Hrun Hdf Hcs)
    as (Hbullets & _).
  exact Hbullets.
Defined.


(** The summary of the sample rankings is in the order of the programs. *)
Lemma summary_sorted_by_program_sample :
  summarize_data 1%positive 2%positive ranked_world
  = (Ok summary_data, summary_world)
  ∧ ∃ summary,
      heap summary_world !! summary_data = Some summary
      ∧ Forall (λ r, recoded (r !!! "program_category")) (rows summary)
      ∧ StronglySorted summary_order (rows summary).
Proof.
  assert (summarize_data 1%positive 2%positive ranked_world
          = (Ok summary_data, summary_world)) as Hrun
    by returns.
  assert (heap ranked_world !! 1%positive = Some (ranked 3 mom_table))
    as Hmom by reflexivity.
  assert (heap ranked_world !! 2%positive = Some (ranked 3 yoy_table))
    as Hyoy by reflexivity.
  split; [exact Hrun|].
  pose proof (summary_sorted_by_program _ _ _ _ _ _ _ Hrun Hmom Hyoy)
    as (_ & summary & _ & Hl & _ & _ & Hrecoded & Hsorted).
  exists summary. split; [exact Hl|]. split; [exact Hrecoded|exact Hsorted].
Defined.

(** In the sample, no triple is repeated: every row is in one pair. *)
Lemma outer_join_covers_every_row_sample :
  summarize_data 1%positive 2%positive ranked_world
  = (Ok summary_data, summary_world)
  ∧ ∀ i k,
      (row_key join_columns <$> rows (ranked 3 mom_table)) !! i = Some k →
      occurrences (Some i)
        (outer_join_indexers
           (row_key join_columns <$> rows (ranked 3 mom_table))
           (row_key join_columns <$> rows (ranked 3 yoy_table))).*1
      = Nat.max 1
          (occurrences k (row_key join_columns <$> rows (ranked 3 yoy_table))).
Proof.
  assert (summarize_data 1%positive 2%positive ranked_world
          = (Ok summary_data, summary_world)) as Hrun
    by returns.
  assert (heap ranked_world !! 1%positive = Some (ranked 3 mom_table))
    as Hmom by reflexivity.
  assert (heap ranked_world !! 2%positive = Some (ranked 3 yoy_table))
    as Hyoy by reflexivity.
  split; [exact Hrun|].
  pose proof (outer_join_covers_every_row _ _ _ _ _ _ _ Hrun Hmom Hyoy)
    as (_ & _ & _ & _ & _ & Hleft & _).
  intros i k Hi. exact (proj1 (Hleft i k Hi)).
Defined.

(** In the sample, the page [/teach] of the program [MED] is in the
    year-over-year table only, and has no line in the report. *)
Lemma yoy_only_pages_never_reported_sample :
  has_triple (ranked 3 yoy_table) "MED" (Str "Paid Social") (Str "/teach")
  ∧ ¬ has_triple (ranked 3 mom_table) "MED" (Str "Paid Social")
        (Str "/teach")
  ∧ Forall (λ l, ¬ reports_triple l "MED" (Str "Paid Social") (Str "/teach"))
           (report_lines report_file).
Proof.
  assert (summarize_data 1%positive 2%positive ranked_world
          = (Ok summary_data, summary_world)) as Hsum
    by returns.
  assert (heap ranked_world !! 1%positive = Some (ranked 3 mom_table))
    as Hmom by reflexivity.
  assert (heap ranked_world !! 2%positive = Some (ranked 3 yoy_table))
    as Hyoy by reflexivity.
  assert (generate_markdown summary_data "report.md" summary_world
          = (Ok tt, report_world)) as Hrun
    by returns.
  assert (files report_world !! "report.md" = Some report_file) as Hcs
    by found (@nil chunk).
  assert ("Session" ∈ columns (ranked 3 mom_table)) as HSm by by_decision.
  assert ("Session" ∈ columns (ranked 3 yoy_table)) as HSy by by_decision.
  assert (has_triple (ranked 3 yoy_table) "MED" (Str "Paid Social")
            (Str "/teach")) as Hyes
    by (apply has_triple_Exists; by_decision).
  assert (¬ has_triple (ranked 3 mom_table) "MED" (Str "Paid Social")
            (Str "/teach")) as Hno
    by (rewrite has_triple_Exists; by_decision).
  split; [exact Hyes|]. split; [exact Hno|].
  pose proof (yoy_only_pages_never_reported _ _ _ _ _ _ _ _ _ _ _ _ _
                Hsum Hmom Hyoy Hrun Hcs HSm HSy Hyes Hno) as (Hnone & _).
  exact Hnone.
Defined.

(** ** Where the code differs from the claims *)

(** C1, as worded, fails. With [top_n] negative, [nlargest] selects
    nothing: the ranking of the sample table has no row, where min(-1, size)
    is not a number of rows. And a row without a program belongs to no
    group: the ranking of a table with one such row has no row, where
    min(3, 1) is 1. *)
Lemma top_pages_count_differs :
  (get_top_pages mom_table program_channel "Session" (-1)
   = Ok (ranked (-1) mom_table)
   ∧ rows (ranked (-1) mom_table) = []
   ∧ ¬ keeps_top_of_each_combination mom_table (ranked (-1) mom_table)
         program_channel (-1))
  ∧ (get_top_pages missing_program_table program_channel "Session" 3
     = Ok (ranked 3 missing_program_table)
     ∧ rows (ranked 3 missing_program_table) = []
     ∧ ¬ keeps_top_of_each_combination missing_program_table
           (ranked 3 missing_program_table) program_channel 3).
Proof.
  split; (split; [first [returns_value mom_table
                        |returns_value missing_program_table]|]);
    (split; [reflexivity|]).
  - intros Hkeeps.
    specialize (Hkeeps [Str "CyberOps"; Str "Paid Search"]).
    assert ([Str "CyberOps"; Str "Paid Search"]
            ∈ row_key program_channel <$> rows mom_table) as Hin
      by by_decision.
    apply Hkeeps in Hin. change (0 = -1)%Z in Hin. discriminate Hin.
  - intros Hkeeps.
    specialize (Hkeeps [NaN; Str "Organic Search"]).
    assert ([NaN; Str "Organic Search"]
            ∈ row_key program_channel <$> rows missing_program_table)
      as Hin by by_decision.
    apply Hkeeps in Hin. change (0 = 1)%Z in Hin. discriminate Hin.
Qed.

(** C6, as worded, fails: for 23 conversions more than the 40 of the month
    before, (difference / previous-period value) × 100 is 57.5, which is
    written [+58]; the program holds 57.49999999999999, the double next
    below, and writes [+57]. *)
Lemma percent_change_is_rounded :
  row_locals rounded_line = Ok rounded_line_locals
  ∧ conv_mom_diff rounded_line_locals = int 23
  ∧ prev_conv_mom rounded_line_locals = int 40
  ∧ percent_change (Qc_of_Z 23) (Qc_of_Z 40) = Q2Qc (115 # 2)
  ∧ conv_pct_change_mom rounded_line_locals
    = Num (Q2Qc (8092405580431359 # 140737488355328))
  ∧ conv_pct_change_mom rounded_line_locals
    ≠ Num (percent_change (Qc_of_Z 23) (Qc_of_Z 40))
  ∧ conv_mom_pct_str rounded_line_locals = "+57"
  ∧ signed (Num (percent_change (Qc_of_Z 23) (Qc_of_Z 40))) = Ok "+58".
Proof.
  split; [reflexivity|]. split; [reflexivity|]. split; [by_decision|].
  split; [by_decision|]. split; [by_decision|]. split; [by_decision|].
  split; reflexivity.
Qed.

(** C3, as worded, fails: the page of the program [XYZ], which is not in
    the official order, is a row of the summary, the last one, without a
    program. *)
Lemma unknown_program_is_kept :
  ("XYZ" ∉ PROGRAM_ORDER)
  ∧ (λ r : gmap string cell, (r !!! "program_category", r !!! "Landing_page"))
      <$> rows (ranked 3 other_program_table)
    = [(Str "XYZ", Str "/x")]
  ∧ (summarize_data 1%positive 2%positive
       (rankings other_program_table yoy_table)).1 = Ok summary_data
  ∧ (λ r : gmap string cell,
       (cell_text (r !!! "program_category"), r !!! "Landing_page",
        r !!! "Session_mom"))
      <$> rows (summary_of other_program_table yoy_table)
    = [ (Some "Informatics", Str "/home", int 0);
        (Some "MED", Str "/teach", int 0);
        (None, Str "/x", int 100) ].
Proof.
  split; [by_decision|]. split; [reflexivity|]. split; reflexivity.
Qed.

(** C8, as worded, fails: the year-over-year table has two rows of the
    page [/home], and the month-over-month row of that page is in two rows
    of the summary. *)
Lemma repeated_page_is_joined_twice :
  (λ r : gmap string cell, (r !!! "Landing_page", r !!! "Session"))
    <$> rows (ranked 3 mom_table)
  = [ (Str "/cyber", int 30); (Str "/home", int 50); (Str "/apply", int 15) ]
  ∧ (λ r : gmap string cell, (r !!! "Landing_page", r !!! "Session"))
      <$> rows (ranked 3 repeated_page_table)
    = [ (Str "/home", int 45); (Str "/home", int 40) ]
  ∧ (summarize_data 1%positive 2%positive
       (rankings mom_table repeated_page_table)).1 = Ok summary_data
  ∧ (λ r : gmap string cell,
       (r !!! "Landing_page", r !!! "Session_mom", r !!! "Session_yoy"))
      <$> rows (summary_of mom_table repeated_page_table)
    = [ (Str "/apply", int 15, int 0);
        (Str "/home", int 50, int 45);
        (Str "/home", int 50, int 40);
        (Str "/cyber", int 30, int 0) ]
  ∧ occurrences (Some 1%nat)
      (outer_join_indexers
         (row_key join_columns <$> rows (ranked 3 mom_table))
         (row_key join_columns <$> rows (ranked 3 repeated_page_table))).*1
    = 2%nat.
Proof.
  split; [reflexivity|]. split; [reflexivity|].
  split; [reflexivity|]. split; reflexivity.
Qed.

(** ** Further properties *)

(** *** The channel filter *)

Lemma isin_in_channels channels (r : gmap string cell) :
  (match cell_text (r !!! "default_channel") with
   | Some v => bool_decide (v ∈ channels)
   | None => false
   end) = true ↔ in_channels channels r.
Proof.
  unfold in_channels. destruct (cell_text (r !!! "default_channel")).
  - by rewrite bool_decide_eq_true.
  - done.
Qed.

Lemma filter_channels_Ok data channels result :
  filter_channels data channels = Ok result →
  "default_channel" ∈ columns data
  ∧ columns result = columns data
  ∧ index_names result = index_names data
  ∧ body result = filter (λ e, in_channels channels e.2) (body data).
Proof.
  unfold filter_channels. intros H. inv_ok.
  match goal with H : getitem _ _ = _ |- _ =>
    apply getitem_Ok in H as [Hcol ->] end.
  split_and!; try done.
  unfold getitem_mask, isin, rows. cbn [body].
  rewrite <-!list_fmap_compose.
  etrans;
    [apply (select_fmap
              (λ e : list cell * gmap string cell,
                 match cell_text (e.2 !!! "default_channel") with
                 | Some v => bool_decide (v ∈ channels)
                 | None => false
                 end))|].
  apply filter_ext_in. intros e _. apply isin_in_channels.
Qed.

Lemma filter_channels_cases data channels :
  (("default_channel" ∈ columns data)
   ∧ ∃ result, filter_channels data channels = Ok result)
  ∨ (("default_channel" ∉ columns data)
     ∧ filter_channels data channels = Raise KeyError).
Proof.
  unfold filter_channels, getitem.
  destruct (decide ("default_channel" ∈ columns data)) as [Hin|Hout].
  - rewrite bool_decide_eq_true_2 by done. simpl. left. eauto.
  - rewrite bool_decide_eq_false_2 by done. simpl. by right.
Qed.

(** X1. [filter_channels] returns the rows of the table whose channel is
    one of the given channels, in the order of the table and with their
    index labels; the columns and the index are those of the table, and a
    row without a channel is left out. *)
Theorem filter_channels_keeps_allowed_rows data channels result :
  filter_channels data channels = Ok result →
  columns result = columns data
  ∧ index_names result = index_names data
  ∧ body result = filter (λ e, in_channels channels e.2) (body data)
  ∧ rows result `sublist_of` rows data
  ∧ Forall (in_channels channels) (rows result)
  ∧ Forall (λ r, r !!! "default_channel" ≠ NaN) (rows result)
  ∧ (wf data → wf result).
Proof.
  intros (_ & Hcols & Hidx & Hbody)%filter_channels_Ok.
  split_and!; try done.
  - unfold rows. rewrite Hbody. apply fmap_sublist, sublist_filter.
  - unfold rows. rewrite Hbody. apply Forall_fmap, Forall_forall.
    by intros e [? _]%list_elem_of_filter.
  - unfold rows. rewrite Hbody. apply Forall_fmap, Forall_forall.
    intros e [He _]%list_elem_of_filter Hna. simpl in Hna.
    unfold in_channels in He. by rewrite Hna in He.
  - unfold wf. rewrite Hcols, Hidx, Hbody, !Forall_forall.
    intros Hwf e [_ He]%list_elem_of_filter. by apply Hwf.
Qed.

(** The channel filter on the sample table, which has no other channel. *)
Lemma filter_channels_keeps_allowed_rows_sample :
  filter_channels mom_table channels_of_interest
  = Ok (value mom_table (filter_channels mom_table channels_of_interest))
  ∧ rows (value mom_table (filter_channels mom_table channels_of_interest))
    `sublist_of` rows mom_table.
Proof.
  assert (filter_channels mom_table channels_of_interest
          = Ok (value mom_table
                  (filter_channels mom_table channels_of_interest)))
    as Hok by returns_value mom_table.
  split; [exact Hok|].
  pose proof (filter_channels_keeps_allowed_rows _ _ _ Hok)
    as (_ & _ & _ & Hsub & _).
  exact Hsub.
Defined.

(** X2. [filter_channels] raises [KeyError] when the table has no channel
    column, and in no other case: with the column it returns a table,
    whatever the cells and the channels. *)
Theorem filter_channels_raises_only_KeyError data channels :
  ("default_channel" ∈ columns data →
     ∃ result, filter_channels data channels = Ok result)
  ∧ ("default_channel" ∉ columns data →
     filter_channels data channels = Raise KeyError)
  ∧ ∀ e, filter_channels data channels = Raise e → e = KeyError.
Proof.
  destruct (filter_channels_cases data channels)
    as [[Hin [result Hok]]|[Hout Hraise]].
  - split_and!; [by eauto|done|]. intros e. by rewrite Hok.
  - split_and!; [done|done|]. intros e. rewrite Hraise. by intros [= <-].
Qed.

(** X3. Filtering twice by the same channels is filtering once. *)
Theorem filter_channels_idempotent data channels result :
  filter_channels data channels = Ok result →
  filter_channels result channels = Ok result.
Proof.
  intros (Hcol & Hcols & Hidx & Hbody)%filter_channels_Ok.
  destruct (filter_channels_cases result channels)
    as [[_ [again Hagain]]|[Hout _]]; [|by rewrite Hcols in Hout].
  rewrite Hagain. f_equal.
  apply filter_channels_Ok in Hagain as (_ & Hcols' & Hidx' & Hbody').
  destruct again as [cols idx bd], result as [cols0 idx0 bd0].
  simpl in *. subst. f_equal.
  generalize (body data). intros l.
  induction l as [|e l IH]; [done|].
  rewrite filter_cons. case_decide; [|done].
  rewrite filter_cons_True by done. by f_equal.
Qed.

Lemma filter_channels_idempotent_sample :
  filter_channels mom_table channels_of_interest
  = Ok (value mom_table (filter_channels mom_table channels_of_interest))
  ∧ filter_channels
      (value mom_table (filter_channels mom_table channels_of_interest))
      channels_of_interest
    = Ok (value mom_table (filter_channels mom_table channels_of_interest)).
Proof.
  assert (filter_channels mom_table channels_of_interest
          = Ok (value mom_table
                  (filter_channels mom_table channels_of_interest)))
    as Hok by returns_value mom_table.
  split; [exact Hok|].
  exact (filter_channels_idempotent _ _ _ Hok).
Defined.

(** *** The ranking: what it refuses, and when it returns *)

Lemma numeric_Forall s :
  numeric s = true
  ↔ Forall (λ c, match c with Num _ | NaN => True | _ => False end) s.
Proof.
  unfold numeric. rewrite forallb_forall, Forall_forall.
  split; intros H c Hc.
  - apply list_elem_of_In, H in Hc. by destruct c.
  - apply list_elem_of_In, H in Hc. by destruct c.
Qed.

Lemma numeric_group df by_ k metric :
  numeric ((λ r, r !!! metric) <$> rows df) = true →
  numeric ((λ r : gmap string cell, r !!! metric) <$> group_rows df by_ k)
  = true.
Proof.
  rewrite !numeric_Forall, !Forall_fmap, !Forall_forall.
  intros H r [_ Hr]%list_elem_of_filter. by apply H.
Qed.

Lemma nlargest_group df by_ k metric n :
  metric ∈ columns df → metric ∉ by_ →
  numeric ((λ r, r !!! metric) <$> rows df) = true →
  nlargest n metric (get_group df by_ k)
  = Ok (top_of_group df by_ metric n k).
Proof.
  intros Hm Hby Hnum. unfold nlargest, getitem.
  rewrite bool_decide_eq_true_2
    by (cbn [columns get_group]; by apply list_elem_of_filter).
  simpl. rewrite get_group_metric, numeric_group by done. simpl.
  unfold top_of_group. by rewrite get_group_metric.
Qed.

Lemma groupby_nlargest_returns df by_ metric n :
  by_ ≠ [] → by_ ⊆ columns df →
  metric ∈ columns df → metric ∉ by_ →
  numeric ((λ r, r !!! metric) <$> rows df) = true →
  groupby_apply df by_ (nlargest n metric)
  = Ok {| columns := filter (λ c, c ∉ by_) (columns df);
          index_names := (Some <$> by_) ++ index_names df;
          body := group_keys df by_
                    ≫= (λ k, (λ e, (k ++ e.1, e.2))
                               <$> body (top_of_group df by_ metric n k)) |}.
Proof.
  intros Hne Hsub Hm Hby Hnum. unfold groupby_apply.
  rewrite !bool_decide_eq_true_2 by done. simpl.
  rewrite (traverse_total _ (λ k, (k, top_of_group df by_ metric n k))).
  2:{ intros k _. by rewrite nlargest_group. }
  simpl. do 2 f_equal.
  generalize (group_keys df by_). intros ks.
  induction ks as [|k ks IH]; [done|].
  rewrite fmap_cons, !bind_cons. by rewrite IH.
Qed.

Lemma filter_id {A} (P : A → Prop) `{∀ x, Decision (P x)} (l : list A) :
  Forall P l → filter P l = l.
Proof.
  induction 1 as [|x l Hx _ IH]; [done|].
  rewrite filter_cons_True by done. by f_equal.
Qed.

Lemma Ok_bind {A B} (a : A) (k : A → result B) : (Ok a ≫= k) = k a.
Proof. done. Qed.

Lemma reset_index_returns df names :
  level_names df = names → NoDup names →
  Forall (λ n, n ∉ columns df) names →
  reset_index df
  = Ok {| columns := names ++ columns df;
          index_names := [None];
          body := imap (λ i e, (RangeIndex i,
                                list_to_map (zip names e.1) ∪ e.2))
                       (body df) |}.
Proof.
  intros Hnames Hnd Hfresh. unfold reset_index. rewrite Hnames.
  by rewrite bool_decide_eq_true_2.
Qed.

Lemma imap_labels {A B} (f : nat → B) (l : list A) :
  imap (λ i _, f i) l = f <$> seq 0 (length l).
Proof.
  induction l as [|x l IH] using rev_ind; [done|].
  rewrite imap_app, length_app, seq_app, fmap_app, IH. simpl.
  by rewrite Nat.add_0_r.
Qed.


(** X5. In the use the entry point makes of it, [get_top_pages] returns:
    for a table with the default index, two grouping columns and a numeric
    metric column, and no column named [level_2].  The result has the
    grouping columns in front, then the other columns of the table; the
    column of the old row labels is gone, and the rows are numbered anew. *)
Theorem get_top_pages_returns data g1 g2 metric top_n :
  index_names data = [None] →
  g1 ≠ g2 → g1 ∈ columns data → g2 ∈ columns data →
  "level_2" ∉ columns data →
  metric ∈ columns data → metric ≠ g1 → metric ≠ g2 →
  numeric ((λ r, r !!! metric) <$> rows data) = true →
  ∃ result,
    get_top_pages data [g1; g2] metric top_n = Ok result
    ∧ columns result
      = [g1; g2] ++ filter (λ c, c ∉ [g1; g2]) (columns data)
    ∧ index_names result = [None]
    ∧ (body result).*1 = RangeIndex <$> seq 0 (length (body result)).
Proof.
  intros Hidx Hg Hg1 Hg2 Hlevel Hm Hm1 Hm2 Hnum.
  assert (g1 ≠ "level_2") as Hl1 by (by intros ->).
  assert (g2 ≠ "level_2") as Hl2 by (by intros ->).
  unfold get_top_pages.
  rewrite groupby_nlargest_returns; [|done|set_solver|done|set_solver|done].
  rewrite Ok_bind.
  erewrite (reset_index_returns _ [g1; g2; "level_2"]); first last.
  - cbn [columns]. repeat constructor;
      rewrite list_elem_of_filter; set_solver.
  - repeat constructor; set_solver.
  - unfold level_names. cbn [index_names]. by rewrite Hidx.
  - rewrite Ok_bind. cbn [columns].
    rewrite bool_decide_eq_true_2 by set_solver.
    unfold drop. rewrite bool_decide_eq_true_2 by set_solver.
    unfold raise_unless. rewrite Ok_bind.
    eexists. split; [done|]. cbn [columns index_names body]. split_and!.
    + rewrite filter_app, !filter_cons_True by set_solver.
      rewrite filter_cons_False by set_solver. rewrite filter_nil.
      f_equal. apply filter_id, Forall_forall.
      intros c [_ Hc]%list_elem_of_filter. set_solver.
    + done.
    + rewrite <-list_fmap_compose, fmap_imap, length_fmap, length_imap.
      apply (imap_labels RangeIndex).
Qed.

(** The ranking of the entry point on the sample table. *)
Lemma get_top_pages_returns_sample :
  ∃ result,
    get_top_pages mom_table ["program_category"; "default_channel"]
                  "Session" 3 = Ok result
    ∧ columns result
      = ["program_category"; "default_channel"]
        ++ filter (λ c, c ∉ ["program_category"; "default_channel"])
                  (columns mom_table)
    ∧ index_names result = [None]
    ∧ (body result).*1 = RangeIndex <$> seq 0 (length (body result)).
Proof.
  apply (get_top_pages_returns mom_table "program_category"
           "default_channel" "Session" 3).
  - reflexivity.
  - by_decision.
  - by_decision.
  - by_decision.
  - by_decision.
  - by_decision.
  - by_decision.
  - by_decision.
  - reflexivity.
Defined.

(** *** The sort and the summary in the store *)

Lemma extends_sort w0 w l :
  extends w0 w → l ∉ dom (heap w0) →
  extends w0 (sort_by_program_order l w).2.
Proof.
  intros [Hdom Hun] Hl.
  destruct (sort_by_program_order_frame l w) as [Hsort Hgrow].
  split; [set_solver|].
  intros l0 Hl0 _.
  rewrite Hsort; [apply Hun; set_solver|set_solver|set_solver].
Qed.

Lemma summarize_data_extends mom_data yoy_data w :
  extends w (summarize_data mom_data yoy_data w).2.
Proof.
  assert (∀ A (m : M A) w', keeps_heap m → extends w w' → extends w (m w').2)
    as Hkeep by (intros; by apply keeps_heap_extends).
  unfold summarize_data.
  apply extends_bind; [by apply Hkeep; [apply keeps_heap_deref|]|].
  intros mom wa _ Hwa.
  apply extends_bind; [by apply Hkeep; [apply keeps_heap_deref|]|].
  intros yoy wb _ Hwb.
  apply extends_bind.
  { apply extends_bind; [by apply Hkeep; [apply keeps_heap_lift|]|].
    intros merged wc _ Hwc. etransitivity; [done|apply extends_new]. }
  intros l1 wd Hl1 Hwd.
  apply extends_bind; [etransitivity; [done|apply extends_call]|].
  intros l2 we Hl2 Hwe.
  apply call_Ok in Hl2 as (? & ? & _ & _ & Hfresh & _).
  apply extends_sort; [done|]. destruct Hwd. set_solver.
Qed.

(** X6. [sort_by_program_order] changes the table it is given: after the
    call the program column of the caller's table is categorical (a program
    outside the official order has become a missing value), the rows and
    the other cells being the same.  The sorted table is a new object; no
    other object changes. *)
Theorem sort_by_program_order_changes_its_argument data w l w' df :
  heap w !! data = Some df →
  sort_by_program_order data w = (Ok l, w') →
  ∃ recoded result,
    with_program_categories df = Ok recoded
    ∧ program_sorted df = Ok result
    ∧ heap w' !! data = Some recoded
    ∧ heap w' !! l = Some result
    ∧ l ≠ data
    ∧ (l ∉ dom (heap w))
    ∧ rows recoded = recode <$> rows df
    ∧ (∀ l0, l0 ∈ dom (heap w) → l0 ≠ data → heap w' !! l0 = heap w !! l0).
Proof.
  intros Hdf Hrun.
  destruct (sort_by_program_order_frame data w) as [Hun Hgrow].
  rewrite Hrun in Hun, Hgrow. simpl in Hun, Hgrow.
  pose proof Hrun as H. unfold sort_by_program_order in H. inv_run.
  assert (a = df) as -> by congruence.
  apply assign_Ok in Ha2 as (Hheap & _ & _).
  apply call_Ok in Ha3 as (df1 & df2 & Hdf1 & Hsort & Hf3 & Hheap3 & _).
  apply call_Ok in H as (df2' & df3 & Hdf2 & Hreset & Hf4 & Hheap4 & _).
  rewrite Hheap, lookup_insert_eq in Hdf1. injection Hdf1 as <-.
  rewrite Hheap3, lookup_insert_eq in Hdf2. injection Hdf2 as <-.
  assert (data ∈ dom (heap w)) as Hdata by (apply elem_of_dom; eauto).
  assert (with_program_categories df = Ok a1) as Hrec.
  { unfold with_program_categories. by rewrite Ha0. }
  assert (l ≠ data) as Hne.
  { intros ->. apply Hf4. rewrite Hheap3, Hheap, !dom_insert_L. set_solver. }
  exists a1, df3. split_and!; try done.
  - unfold program_sorted. rewrite Hrec. simpl. by rewrite Hsort.
  - rewrite Hheap4, lookup_insert_ne by done.
    rewrite Hheap3, lookup_insert_ne.
    + by rewrite Hheap, lookup_insert_eq.
    + intros ->. apply Hf3. rewrite Hheap, !dom_insert_L. set_solver.
  - by rewrite Hheap4, lookup_insert_eq.
  - intros Hl. apply Hf4. rewrite Hheap3, Hheap, !dom_insert_L. set_solver.
  - apply with_program_categories_Ok in Hrec as (_ & _ & _ & Hbody).
    unfold rows. rewrite Hbody, <-!list_fmap_compose. done.
  - intros l0 Hl0 Hl0'. apply Hun; [done|set_solver].
Qed.

(** The sort of the sample summary changes the summary. *)
Lemma sort_by_program_order_changes_its_argument_sample :
  sort_by_program_order summary_data summary_world
  = (Ok 8%positive, (sort_by_program_order summary_data summary_world).2)
  ∧ ∃ recoded,
      with_program_categories summary_table = Ok recoded
      ∧ heap (sort_by_program_order summary_data summary_world).2
          !! summary_data = Some recoded
      ∧ 8%positive ≠ summary_data.
Proof.
  assert (sort_by_program_order summary_data summary_world
          = (Ok 8%positive,
             (sort_by_program_order summary_data summary_world).2))
    as Hrun by returns.
  assert (heap summary_world !! summary_data = Some summary_table) as Hdf
    by found mom_table.
  split; [exact Hrun|].
  pose proof (sort_by_program_order_changes_its_argument _ _ _ _ _ Hdf Hrun)
    as (recoded & _ & Hrec & _ & Hdata & _ & Hne & _).
  exists recoded. split; [exact Hrec|]. split; [exact Hdata|exact Hne].
Defined.

(** X7. [summarize_data] changes no table of the store, whatever its
    outcome: the merged table, the filled table and the sorted table are new
    objects, and the column assignment of the sort changes the filled
    table, which is one of them.  Both ranked tables are as they were. *)
Theorem summarize_data_keeps_inputs mom_data yoy_data w :
  extends w (summarize_data mom_data yoy_data w).2
  ∧ heap (summarize_data mom_data yoy_data w).2 !! mom_data
    = heap w !! mom_data
  ∧ heap (summarize_data mom_data yoy_data w).2 !! yoy_data
    = heap w !! yoy_data.
Proof.
  pose proof (summarize_data_extends mom_data yoy_data w) as Hext.
  split; [done|].
  assert (∀ l, heap (summarize_data mom_data yoy_data w).2 !! l
               = heap w !! l ∨ heap w !! l = None) as Hl.
  { intros l. destruct (heap w !! l) as [df|] eqn:Hdf; [left|by right].
    destruct Hext as [_ Hun]. rewrite Hun; [done| |set_solver].
    apply elem_of_dom. by exists df. }
  split.
  - destruct (Hl mom_data) as [?|Hnone]; [done|].
    unfold summarize_data, mbind, M_bind, deref. by rewrite Hnone.
  - destruct (Hl yoy_data) as [?|Hnone]; [done|].
    unfold summarize_data, mbind, M_bind, deref.
    destruct (heap w !! mom_data); simpl; [by rewrite Hnone|done].
Qed.
